(** * CPU scheduling simulator: process records and the five schedulers

    Shallow embedding of [process.py] and [scheduler.py].  The threads of
    [multithreading.py] are embedded as interleavings of their statements
    (section "multithreading.py").

    Python integers are unbounded, so every time, pid and priority is a [Z].
    A Gantt entry is the triple [(start, end, label)] with the label a
    string, exactly as the schedulers build it.  Process objects are
    mutable and shared by reference: the schedulers of this file run on an
    explicit object store (section "Object store"), and a value-passing
    functional model ([Module Fn]) is proved equivalent to them and carries
    the invariant proofs. *)

From Stdlib Require Import ZArith QArith Qround String List Lia Permutation.
From Stdlib Require Import DecimalString DecimalZ Sorted.
From stdpp Require Import list sets.
Import ListNotations.

#[local] Set Warnings "-clear-no-such-hyp".

Local Open Scope Z_scope.

(** ** process.py *)

Inductive ProcessState := NEW | READY | RUNNING | WAITING | TERMINATED.

Definition ProcessState_eqb (a b : ProcessState) : bool :=
  match a, b with
  | NEW, NEW | READY, READY | RUNNING, RUNNING
  | WAITING, WAITING | TERMINATED, TERMINATED => true
  | _, _ => false
  end.

Record Process := mkProcess {
  pid : Z;
  arrival_time : Z;
  burst_time : Z;
  priority : Z;
  state : ProcessState;
  remaining_time : Z;
  completion_time : Z;
  turnaround_time : Z;
  waiting_time : Z;
  response_time : Z;
  start_time : Z
}.

(** [Process.__init__] *)
Definition Process_init (pid arrival_time burst_time priority : Z) : Process :=
  {| pid := pid; arrival_time := arrival_time; burst_time := burst_time;
     priority := priority; state := NEW; remaining_time := burst_time;
     completion_time := 0; turnaround_time := 0; waiting_time := 0;
     response_time := -1; start_time := -1 |}.

(** Attribute assignments [p.f = v]. *)
Definition set_state (s : ProcessState) (p : Process) : Process :=
  mkProcess (pid p) (arrival_time p) (burst_time p) (priority p) s
    (remaining_time p) (completion_time p) (turnaround_time p)
    (waiting_time p) (response_time p) (start_time p).

Definition set_remaining_time (v : Z) (p : Process) : Process :=
  mkProcess (pid p) (arrival_time p) (burst_time p) (priority p) (state p)
    v (completion_time p) (turnaround_time p)
    (waiting_time p) (response_time p) (start_time p).

Definition set_completion_time (v : Z) (p : Process) : Process :=
  mkProcess (pid p) (arrival_time p) (burst_time p) (priority p) (state p)
    (remaining_time p) v (turnaround_time p)
    (waiting_time p) (response_time p) (start_time p).

Definition set_turnaround_time (v : Z) (p : Process) : Process :=
  mkProcess (pid p) (arrival_time p) (burst_time p) (priority p) (state p)
    (remaining_time p) (completion_time p) v
    (waiting_time p) (response_time p) (start_time p).

Definition set_waiting_time (v : Z) (p : Process) : Process :=
  mkProcess (pid p) (arrival_time p) (burst_time p) (priority p) (state p)
    (remaining_time p) (completion_time p) (turnaround_time p)
    v (response_time p) (start_time p).

Definition set_response_time (v : Z) (p : Process) : Process :=
  mkProcess (pid p) (arrival_time p) (burst_time p) (priority p) (state p)
    (remaining_time p) (completion_time p) (turnaround_time p)
    (waiting_time p) v (start_time p).

Definition set_start_time (v : Z) (p : Process) : Process :=
  mkProcess (pid p) (arrival_time p) (burst_time p) (priority p) (state p)
    (remaining_time p) (completion_time p) (turnaround_time p)
    (waiting_time p) (response_time p) v.

(** [Process.execute]: the object after the call and the returned count. *)
Definition execute (time_slice : Z) (p : Process) : Process * Z :=
  if negb (ProcessState_eqb (state p) RUNNING) then (p, 0)
  else
    let executed := Z.min time_slice (remaining_time p) in
    let p1 := set_remaining_time (remaining_time p - executed) p in
    let p2 := if remaining_time p1 =? 0 then set_state TERMINATED p1 else p1 in
    (p2, executed).

(** [Process.is_complete] *)
Definition is_complete (p : Process) : bool := remaining_time p =? 0.

(** [Process.get_statistics]: a dict with eight fixed keys. *)
Record Statistics := mkStatistics {
  st_pid : Z;
  st_arrival_time : Z;
  st_burst_time : Z;
  st_priority : Z;
  st_completion_time : Z;
  st_turnaround_time : Z;
  st_waiting_time : Z;
  st_response_time : Z
}.

Definition get_statistics (p : Process) : Statistics :=
  {| st_pid := pid p; st_arrival_time := arrival_time p;
     st_burst_time := burst_time p; st_priority := priority p;
     st_completion_time := completion_time p;
     st_turnaround_time := turnaround_time p;
     st_waiting_time := waiting_time p;
     st_response_time := response_time p |}.

(** ** Gantt entries and labels *)

Definition Interval : Type := Z * Z * string.

Definition iv_start (i : Interval) : Z := fst (fst i).
Definition iv_end (i : Interval) : Z := snd (fst i).
Definition iv_label (i : Interval) : string := snd i.

(** [str(n)] for a Python integer. *)
Definition py_str (n : Z) : string := NilZero.string_of_int (Z.to_int n).

(** The f-string [f"P{process.pid}"]. *)
Definition proc_label (p : Process) : string := String.append "P"%string (py_str (pid p)).

Definition IDLE : string := "IDLE"%string.

(** ** Python built-ins used by the schedulers *)

(** Tuple keys compare lexicographically. *)
Definition lt_pair (a b : Z * Z) : bool :=
  (fst a <? fst b) || ((fst a =? fst b) && (snd a <? snd b)).

Definition lt_triple (a b : Z * Z * Z) : bool :=
  (fst (fst a) <? fst (fst b))
  || ((fst (fst a) =? fst (fst b)) && lt_pair (snd (fst a), snd a) (snd (fst b), snd b)).

(** [list.sort(key=...)] is stable and only uses [<] on the keys.  Stable
    insertion sort: the head of the input goes in front of the first
    element of the sorted tail whose key is not smaller. *)
Section Sorting.
Context {A K : Type} (key : A -> K) (lt : K -> K -> bool).

Fixpoint insert_by (x : A) (l : list A) : list A :=
  match l with
  | [] => [x]
  | y :: l' => if lt (key y) (key x) then y :: insert_by x l' else x :: l
  end.

Fixpoint sort_by (l : list A) : list A :=
  match l with
  | [] => []
  | x :: l' => insert_by x (sort_by l')
  end.

(** [min(iterable, key=...)] on a non-empty iterable [x :: l]: the first
    element with the least key. *)
Definition min_by (x : A) (l : list A) : A :=
  fold_left (fun m y => if lt (key y) (key m) then y else m) l x.
End Sorting.

(** [sum(...)] and [max(...)] over integers. *)
Definition sum_Z (l : list Z) : Z := fold_left Z.add l 0.

Definition max_Z (x : Z) (l : list Z) : Z := fold_left Z.max l x.

(** [range(n)] *)
Definition py_range (n : Z) : list Z := map Z.of_nat (seq 0 (Z.to_nat n)).

(** The sort keys of the schedulers. *)
Definition arrival_key (p : Process) : Z * Z := (arrival_time p, pid p).
Definition sjf_key (p : Process) : Z * Z * Z := (burst_time p, arrival_time p, pid p).
Definition srtf_key (p : Process) : Z * Z * Z := (remaining_time p, arrival_time p, pid p).
Definition priority_key (p : Process) : Z * Z * Z := (priority p, arrival_time p, pid p).

(** ** Outcomes of a call *)

Inductive exn := ZeroDivisionError | ValueError.

(** A call returns, raises, or is cut off by the fuel of a [while] loop. *)
Inductive outcome (A : Type) :=
| Done (a : A)
| Raise (e : exn)
| OutOfFuel.
Arguments Done {A} a.
Arguments Raise {A} e.
Arguments OutOfFuel {A}.

Definition bind {A B} (m : outcome A) (k : A -> outcome B) : outcome B :=
  match m with
  | Done a => k a
  | Raise e => Raise e
  | OutOfFuel => OutOfFuel
  end.

Notation "'let!' x ':=' m 'in' k" := (bind m (fun x => k))
  (at level 10, x name, m at level 100, k at level 200).

(** [while cond: body] with a bound on the number of iterations. *)
Fixpoint while_loop {S : Type} (cond : S -> bool) (body : S -> S)
    (fuel : nat) (s : S) : outcome S :=
  if cond s then
    match fuel with
    | O => OutOfFuel
    | Datatypes.S fuel' => while_loop cond body fuel' (body s)
    end
  else Done s.

(** [for t in ts: body] where the body may [break]. *)
Fixpoint for_loop {S : Type} (body : Z -> S -> S * bool) (ts : list Z) (s : S) : S :=
  match ts with
  | [] => s
  | t :: ts' =>
      let '(s', stop) := body t s in
      if stop then s' else for_loop body ts' s'
  end.

(** ** Floating point *)

(** [int / int] and [round(x, ndigits)] produce Python floats.  Their
    arithmetic is a parameter of the development; what is modelled is
    which operands reach them and that [/] raises on a zero divisor. *)
Class PyFloat := {
  float : Type;
  float_div : Z -> Z -> float;
  float_round : float -> Z -> float
}.

Definition py_truediv `{PyFloat} (a b : Z) : outcome float :=
  if b =? 0 then Raise ZeroDivisionError else Done (float_div a b).

Inductive MetricVal `{PyFloat} :=
| MFloat (x : float)
| MInt (n : Z).

(** The metrics dict, in insertion order. *)
Definition Metrics `{PyFloat} : Type := list (string * MetricVal).

(** [CPUScheduler.calculate_metrics] *)
Definition calculate_metrics `{PyFloat} (completed_processes : list Process)
  : outcome Metrics :=
  let n := Z.of_nat (length completed_processes) in
  if n =? 0 then Done []
  else
    let! avg_turnaround := py_truediv (sum_Z (map turnaround_time completed_processes)) n in
    let! avg_waiting := py_truediv (sum_Z (map waiting_time completed_processes)) n in
    let! avg_response := py_truediv (sum_Z (map response_time completed_processes)) n in
    Done [ ("avg_turnaround_time"%string, MFloat (float_round avg_turnaround 2));
           ("avg_waiting_time"%string, MFloat (float_round avg_waiting 2));
           ("avg_response_time"%string, MFloat (float_round avg_response 2));
           ("total_processes"%string, MInt n) ].

Definition Result `{PyFloat} : Type := list Statistics * Metrics * list Interval.

(** [CPUScheduler.get_results] on the completed records and the chart. *)
Definition get_results `{PyFloat} (completed_processes : list Process)
    (gantt_chart : list Interval) : outcome Result :=
  let stats := map get_statistics completed_processes in
  let! metrics := calculate_metrics completed_processes in
  Done (stats, metrics, gantt_chart).

(** ** Mutations the schedulers apply to one process object *)

(** [state = RUNNING; start_time = t; response_time = t - arrival_time] *)
Definition begin_run (t : Z) (p : Process) : Process :=
  set_response_time (t - arrival_time p) (set_start_time t (set_state RUNNING p)).

(** [state = RUNNING] and, on the first dispatch only, the start fields. *)
Definition dispatch (t : Z) (p : Process) : Process :=
  let p1 := set_state RUNNING p in
  if start_time p1 =? -1
  then set_response_time (t - arrival_time p1) (set_start_time t p1)
  else p1.

(** The three completion fields. *)
Definition finalize (t : Z) (p : Process) : Process :=
  let p1 := set_completion_time t p in
  let p2 := set_turnaround_time (completion_time p1 - arrival_time p1) p1 in
  set_waiting_time (turnaround_time p2 - burst_time p2) p2.

(** Completion in the run-to-completion schedulers. *)
Definition complete_run (t : Z) (p : Process) : Process :=
  set_remaining_time 0 (set_state TERMINATED (finalize t p)).

(** Appending one unit [time, time+1) in SRTF: extend the last entry when
    its label is the same, open a new entry otherwise. *)
Definition extend_gantt (gantt : list Interval) (time : Z) (lbl : string)
  : list Interval :=
  match last gantt with
  | Some (s, e, l) =>
      if negb (String.eqb l lbl) then gantt ++ [(time, time + 1, lbl)]
      else removelast gantt ++ [(s, time + 1, l)]
  | None => gantt ++ [(time, time + 1, lbl)]
  end.

(** Decimal arithmetic on exact rationals, to run the schedulers on
    concrete inputs: the quotient is exact and [round] goes to the nearest
    multiple of [10^-ndigits], ties to even. *)
Definition exact_round (x : Q) (ndigits : Z) : Q :=
  let scale := 10 ^ ndigits in
  let y := Qmult x (inject_Z scale) in
  let f := Qfloor y in
  let n := match Qcompare (Qminus y (inject_Z f)) (Qmake 1 2) with
           | Lt => f
           | Gt => f + 1
           | Eq => if Z.even f then f else f + 1
           end in
  Qred (Qmake n (Z.to_pos scale)).

#[export] Instance ExactFloat : PyFloat :=
  {| float := Q;
     float_div := fun a b => Qred (Qdiv (inject_Z a) (inject_Z b));
     float_round := exact_round |}.

(** ** Scheduler state *)

(** The fields of a scheduler object ([current_time], [gantt_chart],
    [completed_processes]) and the locals of [schedule]
    ([remaining_processes], [ready_queue], [current_process]).  [R] is what
    a list cell holds: an object reference in the schedulers, a record in
    the functional model. *)
Record SchedState (R : Type) := mkState {
  current_time : Z;
  gantt_chart : list Interval;
  completed_processes : list R;
  remaining_processes : list R;
  ready_queue : list R;
  current_process : option R
}.
Arguments mkState {R}.
Arguments current_time {R}.
Arguments gantt_chart {R}.
Arguments completed_processes {R}.
Arguments remaining_processes {R}.
Arguments ready_queue {R}.
Arguments current_process {R}.

(** [while remaining_processes or ready_queue] *)
Definition work_left {R} (s : SchedState R) : bool :=
  match remaining_processes s, ready_queue s with
  | [], [] => false
  | _, _ => true
  end.

(** The five policies; Round-Robin carries its [time_quantum]. *)
Inductive Policy := FCFS | SJF | SRTF | RoundRobin (time_quantum : Z) | Priority.

(** ** Functional model: the schedulers on records passed by value *)

Module Fn.

Definition State := SchedState Process.

Definition init (remaining : list Process) : State :=
  mkState 0 [] [] remaining [] None.

(** [while remaining_processes and remaining_processes[0].arrival_time <= t]:
    pop the head, mark it READY, append it to the ready queue. *)
Fixpoint pull_arrived (t : Z) (remaining ready : list Process)
  : list Process * list Process :=
  match remaining with
  | [] => ([], ready)
  | p :: remaining' =>
      if arrival_time p <=? t
      then pull_arrived t remaining' (ready ++ [set_state READY p])
      else (remaining, ready)
  end.

(** *** FCFS *)

Definition fcfs_step (s : State) (process : Process) : State :=
  let '(t1, g1) :=
    if current_time s <? arrival_time process
    then (arrival_time process,
          gantt_chart s ++ [(current_time s, arrival_time process, IDLE)])
    else (current_time s, gantt_chart s) in
  let p1 := begin_run t1 process in
  let execution_time := burst_time p1 in
  let g2 := g1 ++ [(t1, t1 + execution_time, proc_label p1)] in
  let t2 := t1 + execution_time in
  let p2 := complete_run t2 p1 in
  mkState t2 g2 (completed_processes s ++ [p2])
    (remaining_processes s) (ready_queue s) (current_process s).

Definition fcfs_run (processes : list Process) : State :=
  fold_left fcfs_step (sort_by arrival_key lt_pair processes) (init []).

(** *** SJF and Priority: one loop, two selection keys *)

Definition np_body (key : Process -> Z * Z * Z) (s : State) : State :=
  let '(rem1, ready1) :=
    pull_arrived (current_time s) (remaining_processes s) (ready_queue s) in
  match ready1 with
  | [] =>
      match rem1 with
      | next :: _ =>
          let next_arrival := arrival_time next in
          mkState next_arrival
            (gantt_chart s ++ [(current_time s, next_arrival, IDLE)])
            (completed_processes s) rem1 ready1 (current_process s)
      | [] =>
          mkState (current_time s) (gantt_chart s) (completed_processes s)
            rem1 ready1 (current_process s)
      end
  | _ :: _ =>
      match sort_by key lt_triple ready1 with
      | process :: ready2 =>
          let p1 := begin_run (current_time s) process in
          let execution_time := burst_time p1 in
          let g := gantt_chart s
                   ++ [(current_time s, current_time s + execution_time, proc_label p1)] in
          let t := current_time s + execution_time in
          let p2 := complete_run t p1 in
          mkState t g (completed_processes s ++ [p2]) rem1 ready2 (current_process s)
      | [] => s
      end
  end.

Definition np_run (key : Process -> Z * Z * Z) (fuel : nat)
    (processes : list Process) : outcome State :=
  while_loop work_left (np_body key) fuel
    (init (sort_by arrival_key lt_pair processes)).

(** *** SRTF *)

(** One iteration of [for time in range(max_time + 1)], block by block.

    "Check if current process should be preempted": a completed process
    is finalized, a running one gives way to a strictly shorter ready
    process. *)
Definition srtf_settle (time : Z) (current : option Process)
    (ready completed : list Process)
  : option Process * list Process * list Process :=
  match current with
  | Some c =>
      if is_complete c
      then (None, ready, completed ++ [finalize time c])
      else
        match ready with
        | r :: rs =>
            let shortest := min_by srtf_key lt_triple r rs in
            if remaining_time shortest <? remaining_time c
            then (None, ready ++ [set_state READY c], completed)
            else (Some c, ready, completed)
        | [] => (Some c, ready, completed)
        end
  | None => (None, ready, completed)
  end.

(** "Select process with shortest remaining time" *)
Definition srtf_select (time : Z) (current : option Process) (ready : list Process)
  : option Process * list Process :=
  match current, ready with
  | None, _ :: _ =>
      match sort_by srtf_key lt_triple ready with
      | p :: rest => (Some (dispatch time p), rest)
      | [] => (current, ready)
      end
  | _, _ => (current, ready)
  end.

(** "Execute current process for 1 time unit", else "CPU is idle" *)
Definition srtf_tick (time : Z) (current : option Process) (gantt : list Interval)
  : option Process * list Interval :=
  match current with
  | Some c => (Some (fst (execute 1 c)), extend_gantt gantt time (proc_label c))
  | None => (None, extend_gantt gantt time IDLE)
  end.

(** "Check if all processes are complete"; the boolean is the [break]. *)
Definition srtf_finish (time : Z) (gantt : list Interval)
    (completed remaining ready : list Process) (current : option Process)
  : State * bool :=
  match remaining, ready, current with
  | [], [], None => (mkState time gantt completed remaining ready current, true)
  | [], [], Some c =>
      if is_complete c
      then
        let c' := finalize (time + 1) c in
        (mkState time gantt (completed ++ [c']) remaining ready (Some c'), true)
      else (mkState time gantt completed remaining ready current, false)
  | _, _, _ => (mkState time gantt completed remaining ready current, false)
  end.

Definition srtf_body (time : Z) (s : State) : State * bool :=
  let '(rem1, ready1) :=
    pull_arrived time (remaining_processes s) (ready_queue s) in
  let '(cur2, ready2, done2) :=
    srtf_settle time (current_process s) ready1 (completed_processes s) in
  let '(cur3, ready3) := srtf_select time cur2 ready2 in
  let '(cur4, g4) := srtf_tick time cur3 (gantt_chart s) in
  srtf_finish time g4 done2 rem1 ready3 cur4.

Definition srtf_max_time (processes : list Process) : outcome Z :=
  match processes with
  | [] => Raise ValueError
  | p :: ps =>
      Done (sum_Z (map burst_time processes)
            + max_Z (arrival_time p) (map arrival_time ps))
  end.

Definition srtf_run (processes : list Process) : outcome State :=
  let! max_time := srtf_max_time processes in
  Done (for_loop srtf_body (py_range (max_time + 1))
          (init (sort_by arrival_key lt_pair processes))).

(** *** Round-Robin *)

Definition rr_body (time_quantum : Z) (s : State) : State :=
  let '(rem1, ready1) :=
    pull_arrived (current_time s) (remaining_processes s) (ready_queue s) in
  match ready1 with
  | [] =>
      match rem1 with
      | next :: _ =>
          let next_arrival := arrival_time next in
          mkState next_arrival
            (gantt_chart s ++ [(current_time s, next_arrival, IDLE)])
            (completed_processes s) rem1 ready1 (current_process s)
      | [] =>
          mkState (current_time s) (gantt_chart s) (completed_processes s)
            rem1 ready1 (current_process s)
      end
  | process :: ready2 =>
      let p1 := dispatch (current_time s) process in
      let execution_time := Z.min time_quantum (remaining_time p1) in
      let g := gantt_chart s
               ++ [(current_time s, current_time s + execution_time, proc_label p1)] in
      let p2 := fst (execute execution_time p1) in
      let t := current_time s + execution_time in
      let '(rem2, ready3) := pull_arrived t rem1 ready2 in
      if is_complete p2
      then mkState t g (completed_processes s ++ [finalize t p2]) rem2 ready3
             (current_process s)
      else mkState t g (completed_processes s) rem2 (ready3 ++ [set_state READY p2])
             (current_process s)
  end.

Definition rr_run (time_quantum : Z) (fuel : nat) (processes : list Process)
  : outcome State :=
  while_loop work_left (rr_body time_quantum) fuel
    (init (sort_by arrival_key lt_pair processes)).

(** *** The five [schedule] methods *)

Definition run (fuel : nat) (policy : Policy) (processes : list Process)
  : outcome State :=
  match policy with
  | FCFS => Done (fcfs_run processes)
  | SJF => np_run sjf_key fuel processes
  | SRTF => srtf_run processes
  | RoundRobin q => rr_run q fuel processes
  | Priority => np_run priority_key fuel processes
  end.

Definition schedule `{PyFloat} (fuel : nat) (policy : Policy)
    (processes : list Process) : outcome Result :=
  let! s := run fuel policy processes in
  get_results (completed_processes s) (gantt_chart s).

End Fn.

(** ** Object store *)

(** Process objects live in a store and are handled through references.
    A reference is the index of its object; allocation appends. *)
Abbreviation loc := nat (only parsing).
Abbreviation Store := (list Process) (only parsing).

#[export] Instance Process_inhabited : Inhabited Process :=
  populate (Process_init 0 0 0 0).

Definition deref (h : Store) (l : loc) : Process := h !!! l.

(** Attribute assignments through the reference [l]. *)
Definition mutate (f : Process -> Process) (l : loc) (h : Store) : Store :=
  alter f l h.

(** The records behind a list of references. *)
Definition vals (h : Store) (ls : list loc) : list Process := map (deref h) ls.

(** [copy.deepcopy(p)]: a new object with the field values of [p]. *)
Definition deepcopy (l : loc) (h : Store) : Store * loc :=
  (h ++ [deref h l], length h).

(** [CPUScheduler.__init__]:
    [self.processes = [copy.deepcopy(p) for p in processes]]. *)
Fixpoint CPUScheduler_init (processes : list loc) (h : Store) : Store * list loc :=
  match processes with
  | [] => (h, [])
  | p :: ps =>
      let '(h1, c) := deepcopy p h in
      let '(h2, cs) := CPUScheduler_init ps h1 in
      (h2, c :: cs)
  end.

Definition HState : Type := Store * SchedState loc.

Definition init (remaining : list loc) : SchedState loc :=
  mkState 0 [] [] remaining [] None.

Fixpoint pull_arrived (t : Z) (remaining ready : list loc) (h : Store)
  : Store * (list loc * list loc) :=
  match remaining with
  | [] => (h, ([], ready))
  | p :: remaining' =>
      if arrival_time (deref h p) <=? t
      then pull_arrived t remaining' (ready ++ [p]) (mutate (set_state READY) p h)
      else (h, (remaining, ready))
  end.

(** *** [FCFSScheduler.schedule] *)

Definition fcfs_step (hs : HState) (process : loc) : HState :=
  let '(h, s) := hs in
  let '(t1, g1) :=
    if current_time s <? arrival_time (deref h process)
    then (arrival_time (deref h process),
          gantt_chart s ++ [(current_time s, arrival_time (deref h process), IDLE)])
    else (current_time s, gantt_chart s) in
  let h1 := mutate (begin_run t1) process h in
  let execution_time := burst_time (deref h1 process) in
  let g2 := g1 ++ [(t1, t1 + execution_time, proc_label (deref h1 process))] in
  let t2 := t1 + execution_time in
  let h2 := mutate (complete_run t2) process h1 in
  (h2, mkState t2 g2 (completed_processes s ++ [process])
         (remaining_processes s) (ready_queue s) (current_process s)).

Definition fcfs_run (processes : list loc) (h : Store) : HState :=
  fold_left fcfs_step
    (sort_by (fun l => arrival_key (deref h l)) lt_pair processes) (h, init []).

(** *** [SJFScheduler.schedule] and [PriorityScheduler.schedule]

    The two methods are the same text up to the key of the ready-queue
    sort. *)

Definition np_body (key : Process -> Z * Z * Z) (hs : HState) : HState :=
  let '(h, s) := hs in
  let '(h1, (rem1, ready1)) :=
    pull_arrived (current_time s) (remaining_processes s) (ready_queue s) h in
  match ready1 with
  | [] =>
      match rem1 with
      | next :: _ =>
          let next_arrival := arrival_time (deref h1 next) in
          (h1, mkState next_arrival
                 (gantt_chart s ++ [(current_time s, next_arrival, IDLE)])
                 (completed_processes s) rem1 ready1 (current_process s))
      | [] =>
          (h1, mkState (current_time s) (gantt_chart s) (completed_processes s)
                 rem1 ready1 (current_process s))
      end
  | _ :: _ =>
      match sort_by (fun l => key (deref h1 l)) lt_triple ready1 with
      | process :: ready2 =>
          let h2 := mutate (begin_run (current_time s)) process h1 in
          let execution_time := burst_time (deref h2 process) in
          let g := gantt_chart s
                   ++ [(current_time s, current_time s + execution_time,
                        proc_label (deref h2 process))] in
          let t := current_time s + execution_time in
          let h3 := mutate (complete_run t) process h2 in
          (h3, mkState t g (completed_processes s ++ [process]) rem1 ready2
                 (current_process s))
      | [] => (h1, s)
      end
  end.

Definition np_run (key : Process -> Z * Z * Z) (fuel : nat)
    (processes : list loc) (h : Store) : outcome HState :=
  while_loop (fun hs => work_left (snd hs)) (np_body key) fuel
    (h, init (sort_by (fun l => arrival_key (deref h l)) lt_pair processes)).

(** *** [SRTFScheduler.schedule] *)

(** One iteration of [for time in range(max_time + 1)], block by block.

    "Check if current process should be preempted" *)
Definition srtf_settle (time : Z) (current : option loc)
    (ready completed : list loc) (h : Store)
  : Store * (option loc * list loc * list loc) :=
  match current with
  | Some c =>
      if is_complete (deref h c)
      then (mutate (finalize time) c h, (None, ready, completed ++ [c]))
      else
        match ready with
        | r :: rs =>
            let shortest := min_by (fun l => srtf_key (deref h l)) lt_triple r rs in
            if remaining_time (deref h shortest) <? remaining_time (deref h c)
            then (mutate (set_state READY) c h, (None, ready ++ [c], completed))
            else (h, (Some c, ready, completed))
        | [] => (h, (Some c, ready, completed))
        end
  | None => (h, (None, ready, completed))
  end.

(** "Select process with shortest remaining time" *)
Definition srtf_select (time : Z) (current : option loc) (ready : list loc)
    (h : Store) : Store * (option loc * list loc) :=
  match current, ready with
  | None, _ :: _ =>
      match sort_by (fun l => srtf_key (deref h l)) lt_triple ready with
      | p :: rest => (mutate (dispatch time) p h, (Some p, rest))
      | [] => (h, (current, ready))
      end
  | _, _ => (h, (current, ready))
  end.

(** "Execute current process for 1 time unit", else "CPU is idle" *)
Definition srtf_tick (time : Z) (current : option loc) (gantt : list Interval)
    (h : Store) : Store * list Interval :=
  match current with
  | Some c =>
      (mutate (fun p => fst (execute 1 p)) c h,
       extend_gantt gantt time (proc_label (deref h c)))
  | None => (h, extend_gantt gantt time IDLE)
  end.

(** "Check if all processes are complete"; the boolean is the [break]. *)
Definition srtf_finish (time : Z) (gantt : list Interval)
    (completed remaining ready : list loc) (current : option loc) (h : Store)
  : HState * bool :=
  match remaining, ready, current with
  | [], [], None => ((h, mkState time gantt completed remaining ready current), true)
  | [], [], Some c =>
      if is_complete (deref h c)
      then ((mutate (finalize (time + 1)) c h,
             mkState time gantt (completed ++ [c]) remaining ready current), true)
      else ((h, mkState time gantt completed remaining ready current), false)
  | _, _, _ => ((h, mkState time gantt completed remaining ready current), false)
  end.

Definition srtf_body (time : Z) (hs : HState) : HState * bool :=
  let '(h, s) := hs in
  let '(h1, (rem1, ready1)) :=
    pull_arrived time (remaining_processes s) (ready_queue s) h in
  let '(h2, (cur2, ready2, done2)) :=
    srtf_settle time (current_process s) ready1 (completed_processes s) h1 in
  let '(h3, (cur3, ready3)) := srtf_select time cur2 ready2 h2 in
  let '(h4, g4) := srtf_tick time cur3 (gantt_chart s) h3 in
  srtf_finish time g4 done2 rem1 ready3 cur3 h4.

Definition srtf_max_time (processes : list loc) (h : Store) : outcome Z :=
  match processes with
  | [] => Raise ValueError
  | p :: ps =>
      Done (sum_Z (map (fun l => burst_time (deref h l)) processes)
            + max_Z (arrival_time (deref h p))
                (map (fun l => arrival_time (deref h l)) ps))
  end.

Definition srtf_run (processes : list loc) (h : Store) : outcome HState :=
  let! max_time := srtf_max_time processes h in
  Done (for_loop srtf_body (py_range (max_time + 1))
          (h, init (sort_by (fun l => arrival_key (deref h l)) lt_pair processes))).

(** *** [RoundRobinScheduler.schedule] *)

Definition rr_body (time_quantum : Z) (hs : HState) : HState :=
  let '(h, s) := hs in
  let '(h1, (rem1, ready1)) :=
    pull_arrived (current_time s) (remaining_processes s) (ready_queue s) h in
  match ready1 with
  | [] =>
      match rem1 with
      | next :: _ =>
          let next_arrival := arrival_time (deref h1 next) in
          (h1, mkState next_arrival
                 (gantt_chart s ++ [(current_time s, next_arrival, IDLE)])
                 (completed_processes s) rem1 ready1 (current_process s))
      | [] =>
          (h1, mkState (current_time s) (gantt_chart s) (completed_processes s)
                 rem1 ready1 (current_process s))
      end
  | process :: ready2 =>
      let h2 := mutate (dispatch (current_time s)) process h1 in
      let execution_time := Z.min time_quantum (remaining_time (deref h2 process)) in
      let g := gantt_chart s
               ++ [(current_time s, current_time s + execution_time,
                    proc_label (deref h2 process))] in
      let h3 := mutate (fun p => fst (execute execution_time p)) process h2 in
      let t := current_time s + execution_time in
      let '(h4, (rem2, ready3)) := pull_arrived t rem1 ready2 h3 in
      if is_complete (deref h4 process)
      then (mutate (finalize t) process h4,
            mkState t g (completed_processes s ++ [process]) rem2 ready3
              (current_process s))
      else (mutate (set_state READY) process h4,
            mkState t g (completed_processes s) rem2 (ready3 ++ [process])
              (current_process s))
  end.

Definition rr_run (time_quantum : Z) (fuel : nat) (processes : list loc)
    (h : Store) : outcome HState :=
  while_loop (fun hs => work_left (snd hs)) (rr_body time_quantum) fuel
    (h, init (sort_by (fun l => arrival_key (deref h l)) lt_pair processes)).

(** *** Constructing a scheduler and calling [schedule] *)

Definition run (fuel : nat) (policy : Policy) (processes : list loc) (h : Store)
  : outcome HState :=
  match policy with
  | FCFS => Done (fcfs_run processes h)
  | SJF => np_run sjf_key fuel processes h
  | SRTF => srtf_run processes h
  | RoundRobin q => rr_run q fuel processes h
  | Priority => np_run priority_key fuel processes h
  end.

(** [XScheduler(processes).schedule()] on the caller's references
    [processes]: the store after the call and the returned triple. *)
Definition schedule `{PyFloat} (fuel : nat) (policy : Policy)
    (processes : list loc) (h : Store) : outcome (Store * Result) :=
  let '(h0, copies) := CPUScheduler_init processes h in
  let! hs := run fuel policy copies h0 in
  let! r := get_results (vals (fst hs) (completed_processes (snd hs)))
              (gantt_chart (snd hs)) in
  Done (fst hs, r).

(** * Vocabulary of the properties *)

(** ** Gantt charts *)

(** [tiles from g to]: the entries of [g] are non-empty, each starts where
    the previous one ends, the first starts at [from], the last ends at
    [to]. *)
Fixpoint tiles (from : Z) (g : list Interval) (to : Z) : Prop :=
  match g with
  | [] => from = to
  | i :: g' => iv_start i = from /\ iv_start i < iv_end i /\ tiles (iv_end i) g' to
  end.

(** No two neighbours of a list are equal. *)
Fixpoint distinct_adjacent {A : Type} (l : list A) : Prop :=
  match l with
  | a :: (b :: _) as rest => a <> b /\ distinct_adjacent rest
  | _ => True
  end.

(** ** Arrivals *)

(** The pull loop stops at the first pending process: it moves the
    longest prefix of arrived processes. *)
Section Arrivals.
Context {A : Type} (arr : A -> Z) (t : Z).

Fixpoint arrived_prefix (l : list A) : list A :=
  match l with
  | a :: l' => if arr a <=? t then a :: arrived_prefix l' else []
  | [] => []
  end.

Fixpoint pending_suffix (l : list A) : list A :=
  match l with
  | a :: l' => if arr a <=? t then pending_suffix l' else l
  | [] => []
  end.
End Arrivals.

(** ** Inputs and per-process invariants *)

(** A record as [Process(pid, arrival, burst, priority)] leaves it. *)
Definition fresh (p : Process) : Prop :=
  p = Process_init (pid p) (arrival_time p) (burst_time p) (priority p).

Definition valid_proc (p : Process) : Prop :=
  fresh p /\ 0 <= arrival_time p /\ 0 < burst_time p.

Definition valid_quantum (policy : Policy) : Prop :=
  match policy with
  | RoundRobin q => 0 < q
  | _ => True
  end.

(** The preconditions of [schedule]. *)
Definition valid_input (policy : Policy) (processes : list Process) : Prop :=
  processes <> [] /\ NoDup (map pid processes)
  /\ Forall valid_proc processes /\ valid_quantum policy.

(** A process that has arrived and still has work, at time [t]. *)
Definition waiting (t : Z) (p : Process) : Prop :=
  0 <= arrival_time p <= t
  /\ 1 <= remaining_time p <= burst_time p
  /\ arrival_time p + (burst_time p - remaining_time p) <= t
  /\ (start_time p = -1 \/ 0 <= response_time p).

(** A completed process, at time [t]. *)
Definition finished (t : Z) (p : Process) : Prop :=
  0 <= arrival_time p /\ 0 < burst_time p
  /\ completion_time p <= t
  /\ turnaround_time p = completion_time p - arrival_time p
  /\ waiting_time p = turnaround_time p - burst_time p
  /\ 0 <= waiting_time p /\ 0 <= response_time p.

(** ** Loop measures and invariants *)

Definition total_remaining (l : list Process) : Z := sum_Z (map remaining_time l).

(** 1 when the next iteration can only idle. *)
Definition would_idle (s : Fn.State) : Z :=
  match ready_queue s, remaining_processes s with
  | [], p :: _ => if current_time s <? arrival_time p then 1 else 0
  | _, _ => 0
  end.

Definition np_measure (s : Fn.State) : nat :=
  Z.to_nat (2 * Z.of_nat (length (remaining_processes s) + length (ready_queue s))
            + would_idle s).

Definition rr_measure (s : Fn.State) : nat :=
  Z.to_nat (2 * (total_remaining (remaining_processes s)
                 + total_remaining (ready_queue s))
            + would_idle s).

Record loop_inv (procs : list Process) (s : Fn.State) : Prop := {
  li_time : 0 <= current_time s;
  li_tiles : tiles 0 (gantt_chart s) (current_time s);
  li_rem : Forall valid_proc (remaining_processes s);
  li_ready : Forall (waiting (current_time s)) (ready_queue s);
  li_done : Forall (finished (current_time s)) (completed_processes s);
  li_pids : Permutation
              (map pid (remaining_processes s) ++ map pid (ready_queue s)
               ++ map pid (completed_processes s))
              (map pid procs);
  li_last : work_left s = false ->
            Exists (fun p => completion_time p = current_time s) (completed_processes s)
}.

(** What the last chart entry of a run-to-completion loop tells: an IDLE
    entry is followed by a dispatch, a process entry belongs to a completed
    process. *)
Record label_inv (s : Fn.State) : Prop := {
  lb_distinct : distinct_adjacent (map iv_label (gantt_chart s));
  lb_last : forall i, last (gantt_chart s) = Some i ->
    (iv_label i = IDLE
     /\ exists p rem', remaining_processes s = p :: rem'
                       /\ arrival_time p <= current_time s)
    \/ (exists q, In q (completed_processes s) /\ iv_label i = proc_label q)
}.

Definition fuel_bound (policy : Policy) (processes : list Process) : nat :=
  match policy with
  | FCFS | SRTF => 0
  | SJF | Priority => 2 * length processes + 1
  | RoundRobin _ => Z.to_nat (2 * sum_Z (map burst_time processes) + 1)
  end.

(** What every run establishes; [T] is the end of the chart. *)
Record post (procs : list Process) (s : Fn.State) (T : Z) : Prop := {
  post_tiles : tiles 0 (gantt_chart s) T;
  post_done : Forall (finished T) (completed_processes s);
  post_last : Exists (fun p => completion_time p = T) (completed_processes s);
  post_pids : Permutation (map pid (completed_processes s)) (map pid procs)
}.

Record fcfs_inv (procs todo : list Process) (s : Fn.State) : Prop := {
  fi_time : 0 <= current_time s;
  fi_tiles : tiles 0 (gantt_chart s) (current_time s);
  fi_todo : Forall valid_proc todo;
  fi_done : Forall (finished (current_time s)) (completed_processes s);
  fi_pids : Permutation (map pid todo ++ map pid (completed_processes s)) (map pid procs);
  fi_last : completed_processes s <> [] ->
            Exists (fun p => completion_time p = current_time s) (completed_processes s);
  fi_distinct : distinct_adjacent (map iv_label (gantt_chart s));
  fi_label : forall i, last (gantt_chart s) = Some i ->
             exists q, In q (completed_processes s) /\ iv_label i = proc_label q
}.

(** The process holding the CPU at the start of unit [t]. *)
Definition running (t : Z) (c : Process) : Prop :=
  0 <= arrival_time c <= t
  /\ 0 <= remaining_time c <= burst_time c /\ 0 < burst_time c
  /\ arrival_time c + (burst_time c - remaining_time c) <= t
  /\ 0 <= response_time c
  /\ (1 <= remaining_time c -> state c = RUNNING).

Definition on_cpu (t : Z) (cur : option Process) : Prop :=
  forall c, cur = Some c -> running t c /\ 1 <= remaining_time c.

Record srtf_inv (procs : list Process) (M maxarr time : Z) (s : Fn.State) : Prop := {
  si_time : 0 <= time;
  si_tiles : tiles 0 (gantt_chart s) time;
  si_labels : distinct_adjacent (map iv_label (gantt_chart s));
  si_rem : Forall valid_proc (remaining_processes s);
  si_arr : Forall (fun p => arrival_time p <= maxarr) (remaining_processes s);
  si_ready : Forall (waiting time) (ready_queue s);
  si_cur : forall c, current_process s = Some c -> running time c;
  si_done : Forall (finished time) (completed_processes s);
  si_pids : Permutation
              (map pid (remaining_processes s) ++ map pid (ready_queue s)
               ++ map pid (option_list (current_process s))
               ++ map pid (completed_processes s))
              (map pid procs);
  si_work : remaining_processes s <> [] \/ ready_queue s <> []
            \/ exists c, current_process s = Some c /\ 1 <= remaining_time c;
  si_potential : total_remaining (remaining_processes s)
                 + total_remaining (ready_queue s)
                 + total_remaining (option_list (current_process s))
                 + Z.max (maxarr - time) 0 + time <= M
}.

(** ** The store as the functional model sees it *)

Definition view (hs : HState) : Fn.State :=
  let '(h, s) := hs in
  mkState (current_time s) (gantt_chart s)
    (vals h (completed_processes s)) (vals h (remaining_processes s))
    (vals h (ready_queue s)) (option_map (deref h) (current_process s)).

(** All references a scheduler holds. *)
Definition refs (s : SchedState loc) : list loc :=
  remaining_processes s ++ ready_queue s
  ++ option_list (current_process s) ++ completed_processes s.

(** The scheduler's objects are pairwise distinct and were allocated at or
    after [base]. *)
Definition owned (base : nat) (hs : HState) : Prop :=
  NoDup (refs (snd hs))
  /\ Forall (fun l => (base <= l < length (fst hs))%nat) (refs (snd hs)).

(** Objects below [base] are untouched. *)
Definition framed (base : nat) (h h' : Store) : Prop :=
  length h' = length h /\ take base h' = take base h.

(** The outcome of a run on the store against the outcome in the model. *)
Definition refines_outcome (base : nat) (h : Store)
    (r : outcome HState) (m : outcome Fn.State) : Prop :=
  match r, m with
  | Done hs, Done s => view hs = s /\ framed base h (fst hs)
  | Raise e, Raise e' => e = e'
  | OutOfFuel, OutOfFuel => True
  | _, _ => False
  end.

(** ** Calls, results and worked examples *)

(** A call [XScheduler(processes).schedule()] within the contract: the
    references are live and the records behind them meet the
    preconditions. *)
Definition valid_call (policy : Policy) (processes : list loc) (h : Store) : Prop :=
  Forall (fun l => (l < length h)%nat) processes
  /\ valid_input policy (vals h processes).

(** The label of the chart entry that covers the time unit [t]. *)
Definition running_at (t : Z) (gantt : list Interval) : option string :=
  option_map iv_label
    (List.find (fun i => (iv_start i <=? t) && (t <? iv_end i)) gantt).

(** The statistics entry of pid [p]. *)
Definition stats_of (p : Z) (stats : list Statistics) : option Statistics :=
  List.find (fun st => st_pid st =? p) stats.


Definition srtf_example : Store :=
  [Process_init 1 0 8 0; Process_init 2 1 4 0; Process_init 3 2 2 0; Process_init 4 3 1 0].

Definition fcfs_example : Store :=
  [Process_init 1 0 4 0; Process_init 2 1 3 0; Process_init 3 2 2 0].

Definition rr_example : Store :=
  [Process_init 1 0 5 0; Process_init 2 1 3 0; Process_init 3 2 1 0].




(** ** Reachable states of the Round-Robin loop *)

(** Sorted by arrival time. *)
Definition by_arrival (l : list Process) : Prop :=
  StronglySorted (fun a b => arrival_time a <= arrival_time b) l.

(** The states the Round-Robin loop goes through. *)
Inductive rr_reachable (q : Z) (procs : list Process) : Fn.State -> Prop :=
| rr_start : rr_reachable q procs (Fn.init (sort_by arrival_key lt_pair procs))
| rr_next (s : Fn.State) :
    rr_reachable q procs s -> work_left s = true ->
    rr_reachable q procs (Fn.rr_body q s).

(** The SRTF example at time 3: P3 runs with one unit left when P4
    arrives with a burst of one unit. *)
Definition srtf_state_at_3 : HState :=
  Eval vm_compute in
    for_loop srtf_body [0; 1; 2] (srtf_example, init [0; 1; 2; 3]%nat).

(** ** Further vocabulary *)

(** The processes of [create_sample_processes] in simulator.py. *)
Definition sample_processes : Store :=
  [Process_init 1 0 5 2; Process_init 2 1 3 1; Process_init 3 2 8 3;
   Process_init 4 3 6 2; Process_init 5 4 4 1].



(** A Round-Robin state that still holds a process with work left. *)
Definition rr_stuck (s : Fn.State) : Prop :=
  work_left s = true
  /\ Forall (fun p => 0 < remaining_time p) (ready_queue s)
  /\ Forall (fun p => 0 < remaining_time p) (remaining_processes s).

(** ** The chart as a ledger of CPU time *)























(** ** The choice of SJF and Priority *)







(** * multithreading.py: threads on shared data *)

(** ** Interleavings

    A thread is a program point with its local variables.  One statement
    of one thread runs at a time; a thread that has ended, or that waits for
    a lock or a semaphore, cannot run.  A schedule lists the threads in the
    order in which their statements run. *)

Record System (L G : Type) : Type := mkSystem {
  threads : list L;
  shared : G
}.

Arguments mkSystem {L G} _ _.
Arguments threads {L G} _.
Arguments shared {L G} _.

Section Interleaving.
Context {L G : Type}.

(** [thread_step tid pc g]: the statement at [pc] of the thread number
    [tid] on the shared data [g]; [None] when the thread cannot run. *)
Variable thread_step : nat -> L -> G -> option (L * G).

Definition sys_step (tid : nat) (s : System L G) : option (System L G) :=
  match threads s !! tid with
  | Some pc =>
      match thread_step tid pc (shared s) with
      | Some (pc', g') => Some (mkSystem (<[tid := pc']> (threads s)) g')
      | None => None
      end
  | None => None
  end.

Fixpoint sys_run (schedule : list nat) (s : System L G) : option (System L G) :=
  match schedule with
  | [] => Some s
  | tid :: rest =>
      match sys_step tid s with
      | Some s' => sys_run rest s'
      | None => None
      end
  end.

(** Some thread can run. *)
Definition can_run (s : System L G) : Prop :=
  exists tid s', sys_step tid s = Some s'.

End Interleaving.

(** ** [SynchronizationDemo.critical_section_with_lock] *)

Module Mutex.

(** The statement a thread is at, in pass [i] of [for i in range(3)]. *)
Inductive Pc : Type :=
| Enter (i : nat)                  (* with self.lock: *)
| Read (i : nat)                   (* old_value = self.shared_resource *)
| Sleep (i : nat) (old_value : Z)  (* time.sleep(0.01) *)
| Update (i : nat) (old_value : Z) (* self.shared_resource = old_value + 1 *)
| Append (i : nat)                 (* self.results.append(...) *)
| Leave (i : nat).                 (* the end of the with block *)

Record Shared : Type := mkShared {
  shared_resource : Z;
  lock : bool;
  results : list string
}.

(** f"Thread {thread_id}: Resource = {self.shared_resource}" *)
Definition result_line (thread_id : nat) (value : Z) : string :=
  String.append "Thread "%string
    (String.append (py_str (Z.of_nat thread_id))
       (String.append ": Resource = "%string (py_str value))).

(** One statement of a thread; the thread waits while the lock is taken. *)
Definition critical_section_with_lock (thread_id : nat) (pc : Pc) (d : Shared)
  : option (Pc * Shared) :=
  match pc with
  | Enter i =>
      if (i <? 3)%nat
      then if lock d then None
           else Some (Read i, mkShared (shared_resource d) true (results d))
      else None
  | Read i => Some (Sleep i (shared_resource d), d)
  | Sleep i old_value => Some (Update i old_value, d)
  | Update i old_value => Some (Append i, mkShared (old_value + 1) (lock d) (results d))
  | Append i =>
      Some (Leave i,
            mkShared (shared_resource d) (lock d)
              (results d ++ [result_line thread_id (shared_resource d)]))
  | Leave i => Some (Enter (S i), mkShared (shared_resource d) false (results d))
  end.

(** The thread has left its loop. *)
Definition ended (pc : Pc) : bool :=
  match pc with
  | Enter i => negb (i <? 3)%nat
  | _ => false
  end.

(** [n] threads at the start of [critical_section_with_lock], numbered
    from 0 as in [demonstrate_synchronization], which starts five, after
    [self.shared_resource = 0] and [self.results = []]. *)
Definition start (n : nat) : System Pc Shared :=
  mkSystem (replicate n (Enter 0)) (mkShared 0 false []).

Definition step := sys_step critical_section_with_lock.
Definition interleave := sys_run critical_section_with_lock.

End Mutex.

(** ** [SynchronizationDemo.critical_section_with_semaphore] *)

Module Semaphore.

Inductive Pc : Type :=
| Acquire      (* with self.semaphore: *)
| LogAcquired  (* self.results.append(f"Thread {thread_id} acquired semaphore") *)
| Sleep        (* time.sleep(0.1) *)
| LogReleased  (* self.results.append(f"Thread {thread_id} released semaphore") *)
| Release      (* the end of the with block *)
| Ended.

Record Shared : Type := mkShared {
  semaphore : Z;
  results : list string
}.

(** An entry of the log: the thread and whether it reports the
    acquisition. *)
Definition event_line (ev : bool * nat) : string :=
  String.append "Thread "%string
    (String.append (py_str (Z.of_nat (snd ev)))
       (if fst ev then " acquired semaphore"%string else " released semaphore"%string)).

(** One statement of a thread; the thread waits while the semaphore has no
    free place. *)
Definition critical_section_with_semaphore (thread_id : nat) (pc : Pc) (d : Shared)
  : option (Pc * Shared) :=
  match pc with
  | Acquire =>
      if 0 <? semaphore d
      then Some (LogAcquired, mkShared (semaphore d - 1) (results d))
      else None
  | LogAcquired =>
      Some (Sleep, mkShared (semaphore d) (results d ++ [event_line (true, thread_id)]))
  | Sleep => Some (LogReleased, d)
  | LogReleased =>
      Some (Release, mkShared (semaphore d) (results d ++ [event_line (false, thread_id)]))
  | Release => Some (Ended, mkShared (semaphore d + 1) (results d))
  | Ended => None
  end.

Definition ended (pc : Pc) : bool :=
  match pc with
  | Ended => true
  | _ => false
  end.

(** The thread is inside the with block. *)
Definition inside (pc : Pc) : bool :=
  match pc with
  | LogAcquired | Sleep | LogReleased | Release => true
  | Acquire | Ended => false
  end.

(** [n] threads at the start of [critical_section_with_semaphore], with
    [threading.Semaphore(2)] and [self.results = []]. *)
Definition start (n : nat) : System Pc Shared :=
  mkSystem (replicate n Acquire) (mkShared 2 []).

Definition step := sys_step critical_section_with_semaphore.
Definition interleave := sys_run critical_section_with_semaphore.

(** The threads that the log shows between their two entries. *)
Fixpoint balance (evs : list (bool * nat)) : Z :=
  match evs with
  | [] => 0
  | (true, _) :: evs' => balance evs' + 1
  | (false, _) :: evs' => balance evs' - 1
  end.

End Semaphore.

(** ** [demonstrate_deadlock_prevention] *)

Module Ordered.

(** The statements of [process1] and of [process2], which differ in the
    name they log only. *)
Inductive Pc : Type :=
| Lock1     (* with resource1: *)
| Log1      (* results.append("Process k: Acquired Resource 1") *)
| Sleep1    (* time.sleep(0.1) *)
| Lock2     (* with resource2: *)
| Log2      (* results.append("Process k: Acquired Resource 2") *)
| Sleep2    (* time.sleep(0.1) *)
| Log3      (* results.append("Process k: Released both resources") *)
| Unlock2   (* the end of the inner with block *)
| Unlock1   (* the end of the outer with block *)
| Ended.

Record Shared : Type := mkShared {
  resource1 : bool;
  resource2 : bool;
  results : list string
}.

(** The thread 0 runs [process1], the thread 1 runs [process2]. *)
Definition process_name (tid : nat) : string :=
  match tid with
  | O => "Process 1"%string
  | _ => "Process 2"%string
  end.

Definition acquired1 (tid : nat) : string :=
  String.append (process_name tid) ": Acquired Resource 1"%string.
Definition acquired2 (tid : nat) : string :=
  String.append (process_name tid) ": Acquired Resource 2"%string.
Definition released (tid : nat) : string :=
  String.append (process_name tid) ": Released both resources"%string.

Definition log (line : string) (d : Shared) : Shared :=
  mkShared (resource1 d) (resource2 d) (results d ++ [line]).

(** One statement of [process1] (thread 0) or [process2] (thread 1); the
    thread waits while the lock it asks for is taken. *)
Definition process (tid : nat) (pc : Pc) (d : Shared) : option (Pc * Shared) :=
  match pc with
  | Lock1 =>
      if resource1 d then None
      else Some (Log1, mkShared true (resource2 d) (results d))
  | Log1 => Some (Sleep1, log (acquired1 tid) d)
  | Sleep1 => Some (Lock2, d)
  | Lock2 =>
      if resource2 d then None
      else Some (Log2, mkShared (resource1 d) true (results d))
  | Log2 => Some (Sleep2, log (acquired2 tid) d)
  | Sleep2 => Some (Log3, d)
  | Log3 => Some (Unlock2, log (released tid) d)
  | Unlock2 => Some (Unlock1, mkShared (resource1 d) false (results d))
  | Unlock1 => Some (Ended, mkShared false (resource2 d) (results d))
  | Ended => None
  end.

Definition ended (pc : Pc) : bool :=
  match pc with
  | Ended => true
  | _ => false
  end.

(** The two threads that [demonstrate_deadlock_prevention] starts, with
    both locks free and [results = []]. *)
Definition start : System Pc Shared :=
  mkSystem [Lock1; Lock1] (mkShared false false []).

Definition step := sys_step process.
Definition interleave := sys_run process.

(** What a process logs from its first to its last statement. *)
Definition lines (tid : nat) : list string :=
  [acquired1 tid; acquired2 tid; released tid].

End Ordered.

(** ** Vocabulary of the properties of the threads *)

(** The threads of a list that satisfy [inside]. *)
Definition count_threads {L : Type} (inside : L -> bool) (l : list L) : Z :=
  sum_Z (map (fun pc => if inside pc then 1 else 0) l).

(** Every thread has ended. *)
Definition all_ended {L : Type} (ended : L -> bool) (l : list L) : Prop :=
  Forall (fun pc => ended pc = true) l.

(** *** The mutex *)

(** The thread is between the acquisition and the release of the lock. *)
Definition mutex_inside (pc : Mutex.Pc) : bool :=
  match pc with
  | Mutex.Enter _ => false
  | _ => true
  end.

Definition mutex_pass (pc : Mutex.Pc) : nat :=
  match pc with
  | Mutex.Enter i | Mutex.Read i | Mutex.Sleep i _ | Mutex.Update i _
  | Mutex.Append i | Mutex.Leave i => i
  end.

(** The updates of the shared resource and the appended lines of a
    thread so far, and the statements it has left. *)
Definition mutex_added (pc : Mutex.Pc) : Z :=
  match pc with
  | Mutex.Append i | Mutex.Leave i => Z.of_nat i + 1
  | _ => Z.of_nat (mutex_pass pc)
  end.

Definition mutex_logged (pc : Mutex.Pc) : Z :=
  match pc with
  | Mutex.Leave i => Z.of_nat i + 1
  | _ => Z.of_nat (mutex_pass pc)
  end.

Definition mutex_left (pc : Mutex.Pc) : Z :=
  6 * (3 - Z.of_nat (mutex_pass pc))
  - match pc with
    | Mutex.Enter _ => 0
    | Mutex.Read _ => 1
    | Mutex.Sleep _ _ => 2
    | Mutex.Update _ _ => 3
    | Mutex.Append _ => 4
    | Mutex.Leave _ => 5
    end.

(** The value a thread has read is the value of the shared resource. *)
Definition mutex_fresh (d : Mutex.Shared) (pc : Mutex.Pc) : Prop :=
  match pc with
  | Mutex.Sleep _ old_value | Mutex.Update _ old_value =>
      old_value = Mutex.shared_resource d
  | _ => True
  end.

Definition mutex_in_range (pc : Mutex.Pc) : Prop :=
  match pc with
  | Mutex.Enter i => (i <= 3)%nat
  | _ => (mutex_pass pc < 3)%nat
  end.

(** The lines report the values [from], [from + 1], ..., each for one of
    the threads 0, ..., [n - 1]. *)
Fixpoint reports (n : nat) (from : Z) (lines : list string) : Prop :=
  match lines with
  | [] => True
  | line :: rest =>
      (exists tid, (tid < n)%nat /\ line = Mutex.result_line tid from)
      /\ reports n (from + 1) rest
  end.

Record mutex_inv (n : nat) (s : System Mutex.Pc Mutex.Shared) : Prop := {
  mi_threads : length (threads s) = n;
  mi_lock : count_threads mutex_inside (threads s)
            = (if Mutex.lock (shared s) then 1 else 0);
  mi_added : sum_Z (map mutex_added (threads s)) = Mutex.shared_resource (shared s);
  mi_logged : sum_Z (map mutex_logged (threads s))
              = Z.of_nat (length (Mutex.results (shared s)));
  mi_fresh : Forall (mutex_fresh (shared s)) (threads s);
  mi_range : Forall mutex_in_range (threads s);
  mi_lines : reports n 1 (Mutex.results (shared s))
}.

(** *** The semaphore *)

(** The thread has logged its acquisition and not yet its release. *)
Definition sem_between (pc : Semaphore.Pc) : bool :=
  match pc with
  | Semaphore.Sleep | Semaphore.LogReleased => true
  | _ => false
  end.

(** The lines a thread has logged and the statements it has left. *)
Definition sem_logged (pc : Semaphore.Pc) : Z :=
  match pc with
  | Semaphore.Acquire | Semaphore.LogAcquired => 0
  | Semaphore.Sleep | Semaphore.LogReleased => 1
  | Semaphore.Release | Semaphore.Ended => 2
  end.

Definition sem_left (pc : Semaphore.Pc) : Z :=
  match pc with
  | Semaphore.Acquire => 5
  | Semaphore.LogAcquired => 4
  | Semaphore.Sleep => 3
  | Semaphore.LogReleased => 2
  | Semaphore.Release => 1
  | Semaphore.Ended => 0
  end.

(** At no point of the log have more than [k] threads logged their
    acquisition without their release. *)
Definition at_most (k : Z) (evs : list (bool * nat)) : Prop :=
  forall m, 0 <= Semaphore.balance (take m evs) <= k.

Record sem_log (n : nat) (l : list Semaphore.Pc) (evs : list (bool * nat)) : Prop := {
  sl_balance : Semaphore.balance evs = count_threads sem_between l;
  sl_length : Z.of_nat (length evs) = sum_Z (map sem_logged l);
  sl_at_most : at_most 2 evs;
  sl_threads : Forall (fun ev => (snd ev < n)%nat) evs
}.

Record sem_inv (n : nat) (s : System Semaphore.Pc Semaphore.Shared) : Prop := {
  si_threads : length (threads s) = n;
  si_count : count_threads Semaphore.inside (threads s) + Semaphore.semaphore (shared s) = 2;
  si_free : 0 <= Semaphore.semaphore (shared s);
  si_log : exists evs,
             Semaphore.results (shared s) = map Semaphore.event_line evs
             /\ sem_log n (threads s) evs
}.

(** *** The two locks *)

Definition ord_holds1 (pc : Ordered.Pc) : bool :=
  match pc with
  | Ordered.Lock1 | Ordered.Ended => false
  | _ => true
  end.

Definition ord_holds2 (pc : Ordered.Pc) : bool :=
  match pc with
  | Ordered.Log2 | Ordered.Sleep2 | Ordered.Log3 | Ordered.Unlock2 => true
  | _ => false
  end.

(** The lines a process has logged and the statements it has left. *)
Definition ord_logged (tid : nat) (pc : Ordered.Pc) : list string :=
  match pc with
  | Ordered.Lock1 | Ordered.Log1 => []
  | Ordered.Sleep1 | Ordered.Lock2 | Ordered.Log2 => [Ordered.acquired1 tid]
  | Ordered.Sleep2 | Ordered.Log3 => [Ordered.acquired1 tid; Ordered.acquired2 tid]
  | Ordered.Unlock2 | Ordered.Unlock1 | Ordered.Ended => Ordered.lines tid
  end.

Definition ord_left (pc : Ordered.Pc) : Z :=
  match pc with
  | Ordered.Lock1 => 9
  | Ordered.Log1 => 8
  | Ordered.Sleep1 => 7
  | Ordered.Lock2 => 6
  | Ordered.Log2 => 5
  | Ordered.Sleep2 => 4
  | Ordered.Log3 => 3
  | Ordered.Unlock2 => 2
  | Ordered.Unlock1 => 1
  | Ordered.Ended => 0
  end.

(** A lock is taken exactly when a process holds it, the two processes
    never hold the first lock together, and one of them has logged nothing
    before the other has ended. *)
Definition ord_inv (s : System Ordered.Pc Ordered.Shared) : Prop :=
  exists a b,
    threads s = [a; b]
    /\ Ordered.resource1 (shared s) = ord_holds1 a || ord_holds1 b
    /\ Ordered.resource2 (shared s) = ord_holds2 a || ord_holds2 b
    /\ ord_holds1 a && ord_holds1 b = false
    /\ ((Ordered.results (shared s) = ord_logged 0 a ++ ord_logged 1 b
         /\ (b = Ordered.Lock1 \/ a = Ordered.Ended))
        \/ (Ordered.results (shared s) = ord_logged 1 b ++ ord_logged 0 a
            /\ (a = Ordered.Lock1 \/ b = Ordered.Ended))).

(** ** [ProcessThread.run] *)

(** A dict with int keys and int values, in the order of insertion. *)
Definition dict_get (k : Z) (d : list (Z * Z)) : option Z :=
  match List.find (fun kv => fst kv =? k) d with
  | Some kv => Some (snd kv)
  | None => None
  end.

Fixpoint dict_set (k v : Z) (d : list (Z * Z)) : list (Z * Z) :=
  match d with
  | [] => [(k, v)]
  | kv :: d' => if fst kv =? k then (k, v) :: d' else kv :: dict_set k v d'
  end.

Module ProcessThread.

Inductive Pc : Type :=
| Begin          (* execution_units = self.process.burst_time *)
| Enter          (* for i in range(execution_units): with self.lock: *)
| CheckState     (* if self.process.state == ProcessState.RUNNING: *)
| Sleep          (* time.sleep(0.1) *)
| Decrement      (* self.process.remaining_time -= 1 *)
| Lookup         (* if self.process.pid not in self.shared_data['progress']: *)
| Init           (* self.shared_data['progress'][self.process.pid] = 0 *)
| Increment      (* self.shared_data['progress'][self.process.pid] += 1 *)
| TestRemaining  (* if self.process.remaining_time == 0: *)
| Terminate      (* self.process.state = ProcessState.TERMINATED *)
| Complete       (* self.shared_data['completed'].append(self.process.pid) *)
| Leave          (* the end of the with block *)
| Ended
| KeyError.      (* the thread has died of a missing key *)

(** The thread: where it is, its local variables and its process. *)
Record Local : Type := mkLocal {
  pc : Pc;
  execution_units : Z;
  i : Z;
  process : Process
}.

(** [self.lock] and [self.shared_data] of the simulator. *)
Record Shared : Type := mkShared {
  lock : bool;
  progress : list (Z * Z);
  completed : list Z;
  current_time : Z
}.

Definition goto (pc' : Pc) (l : Local) : Local :=
  mkLocal pc' (execution_units l) (i l) (process l).

Definition set_lock (b : bool) (d : Shared) : Shared :=
  mkShared b (progress d) (completed d) (current_time d).

Definition set_progress (k v : Z) (d : Shared) : Shared :=
  mkShared (lock d) (dict_set k v (progress d)) (completed d) (current_time d).

(** One statement of the thread; the thread waits while the lock is
    taken. *)
Definition run (tid : nat) (l : Local) (d : Shared) : option (Local * Shared) :=
  let p := process l in
  match pc l with
  | Begin => Some (mkLocal Enter (burst_time p) 0 p, d)
  | Enter =>
      if i l <? execution_units l
      then if lock d then None else Some (goto CheckState l, set_lock true d)
      else Some (goto Ended l, d)
  | CheckState =>
      if ProcessState_eqb (state p) RUNNING
      then Some (goto Sleep l, d)
      else Some (goto Leave l, d)
  | Sleep => Some (goto Decrement l, d)
  | Decrement =>
      Some (mkLocal Lookup (execution_units l) (i l)
              (set_remaining_time (remaining_time p - 1) p), d)
  | Lookup =>
      match dict_get (pid p) (progress d) with
      | None => Some (goto Init l, d)
      | Some _ => Some (goto Increment l, d)
      end
  | Init => Some (goto Increment l, set_progress (pid p) 0 d)
  | Increment =>
      match dict_get (pid p) (progress d) with
      | Some v => Some (goto TestRemaining l, set_progress (pid p) (v + 1) d)
      | None => Some (goto KeyError l, set_lock false d)
      end
  | TestRemaining =>
      if remaining_time p =? 0
      then Some (goto Terminate l, d)
      else Some (goto Leave l, d)
  | Terminate =>
      Some (mkLocal Complete (execution_units l) (i l) (set_state TERMINATED p), d)
  | Complete =>
      Some (goto Leave l,
            mkShared (lock d) (progress d) (completed d ++ [pid p]) (current_time d))
  | Leave => Some (mkLocal Enter (execution_units l) (i l + 1) p, set_lock false d)
  | Ended | KeyError => None
  end.

Definition ended (l : Local) : bool :=
  match pc l with
  | Ended => true
  | _ => false
  end.

(** One thread for each process, in the state RUNNING that
    [MultiThreadedSimulator.simulate] gives it before it starts the
    thread, on the shared data of [MultiThreadedSimulator.__init__]. *)
Definition start (processes : list Process) : System Local Shared :=
  mkSystem (map (fun p => mkLocal Begin 0 0 (set_state RUNNING p)) processes)
    (mkShared false [] [] 0).

Definition step := sys_step run.
Definition interleave := sys_run run.

End ProcessThread.

(** *** The worker threads *)

(** The thread is between the acquisition and the release of the lock. *)
Definition worker_inside (l : ProcessThread.Local) : bool :=
  match ProcessThread.pc l with
  | ProcessThread.Begin | ProcessThread.Enter | ProcessThread.Ended
  | ProcessThread.KeyError => false
  | _ => true
  end.

(** The decrements of the remaining time and the increments of the
    progress that the thread has made. *)
Definition worker_decrements (l : ProcessThread.Local) : Z :=
  match ProcessThread.pc l with
  | ProcessThread.Lookup | ProcessThread.Init | ProcessThread.Increment
  | ProcessThread.TestRemaining | ProcessThread.Terminate | ProcessThread.Complete
  | ProcessThread.Leave => ProcessThread.i l + 1
  | _ => ProcessThread.i l
  end.

Definition worker_increments (l : ProcessThread.Local) : Z :=
  match ProcessThread.pc l with
  | ProcessThread.TestRemaining | ProcessThread.Terminate | ProcessThread.Complete
  | ProcessThread.Leave => ProcessThread.i l + 1
  | _ => ProcessThread.i l
  end.

Definition worker_done (l : ProcessThread.Local) : bool :=
  (0 <? burst_time (ProcessThread.process l))
  && (remaining_time (ProcessThread.process l) =? 0).

(** The process of the thread is TERMINATED; its pid is among the
    completed ones. *)
Definition worker_terminated (l : ProcessThread.Local) : bool :=
  worker_done l
  && match ProcessThread.pc l with
     | ProcessThread.Complete | ProcessThread.Leave | ProcessThread.Enter
     | ProcessThread.Ended => true
     | _ => false
     end.

Definition worker_reported (l : ProcessThread.Local) : bool :=
  worker_done l
  && match ProcessThread.pc l with
     | ProcessThread.Leave | ProcessThread.Enter | ProcessThread.Ended => true
     | _ => false
     end.

(** The entry of the process in the progress. *)
Definition worker_progress (l : ProcessThread.Local) : option Z :=
  if worker_increments l =? 0
  then match ProcessThread.pc l with
       | ProcessThread.Increment => Some 0
       | _ => None
       end
  else Some (worker_increments l).

(** Where the loop variable is. *)
Definition worker_in_range (l : ProcessThread.Local) : Prop :=
  let b := burst_time (ProcessThread.process l) in
  match ProcessThread.pc l with
  | ProcessThread.Begin => ProcessThread.i l = 0
  | ProcessThread.Enter => 0 <= ProcessThread.i l <= Z.max 0 b
  | ProcessThread.Ended => 0 <= ProcessThread.i l <= Z.max 0 b /\ b <= ProcessThread.i l
  | ProcessThread.KeyError => False
  | ProcessThread.Init => ProcessThread.i l = 0 /\ 0 < b
  | ProcessThread.Terminate | ProcessThread.Complete =>
      0 <= ProcessThread.i l < b /\ remaining_time (ProcessThread.process l) = 0
  | _ => 0 <= ProcessThread.i l < b
  end.

Record worker_ok (d : ProcessThread.Shared) (l : ProcessThread.Local) : Prop := {
  wo_units : ProcessThread.pc l <> ProcessThread.Begin ->
             ProcessThread.execution_units l = burst_time (ProcessThread.process l);
  wo_range : worker_in_range l;
  wo_remaining : remaining_time (ProcessThread.process l)
                 = burst_time (ProcessThread.process l) - worker_decrements l;
  wo_state : state (ProcessThread.process l)
             = (if worker_terminated l then TERMINATED else RUNNING);
  wo_progress : dict_get (pid (ProcessThread.process l)) (ProcessThread.progress d)
                = worker_progress l
}.

Definition worker_pid (l : ProcessThread.Local) : Z := pid (ProcessThread.process l).

(** The statements a thread has left, at most. *)
Definition worker_left (l : ProcessThread.Local) : Z :=
  11 * (Z.max 0 (burst_time (ProcessThread.process l)) - ProcessThread.i l)
  + match ProcessThread.pc l with
    | ProcessThread.Begin => 2
    | ProcessThread.Enter => 1
    | ProcessThread.CheckState => 0
    | ProcessThread.Sleep => -1
    | ProcessThread.Decrement => -2
    | ProcessThread.Lookup => -3
    | ProcessThread.Init => -4
    | ProcessThread.Increment => -5
    | ProcessThread.TestRemaining => -6
    | ProcessThread.Terminate => -7
    | ProcessThread.Complete => -8
    | ProcessThread.Leave => -9
    | ProcessThread.Ended | ProcessThread.KeyError => 0
    end.

Record worker_inv (processes : list Process)
    (s : System ProcessThread.Local ProcessThread.Shared) : Prop := {
  wi_static : map (fun l => (worker_pid l, burst_time (ProcessThread.process l))) (threads s)
              = map (fun p => (pid p, burst_time p)) processes;
  wi_ok : Forall (worker_ok (shared s)) (threads s);
  wi_completed : Permutation (ProcessThread.completed (shared s))
                   (map worker_pid (List.filter worker_reported (threads s)));
  wi_lock : count_threads worker_inside (threads s)
            = (if ProcessThread.lock (shared s) then 1 else 0)
}.

(** *** Schedules of the demonstrations *)

(** The five threads of [demonstrate_synchronization] take turns, each
    for one pass through the critical section. *)
Definition mutex_schedule : list nat :=
  flat_map (replicate 6) (concat (replicate 3 [0; 1; 2; 3; 4]%nat)).

(** The threads 0 and 1 hold the semaphore together, then 2 and 3, then
    the thread 4 alone. *)
Definition semaphore_schedule : list nat :=
  concat (replicate 5 [0; 1]%nat) ++ concat (replicate 5 [2; 3]%nat) ++ replicate 5 4%nat.

(** [process2] takes the first lock before [process1]. *)
Definition ordered_schedule : list nat := replicate 9 1%nat ++ replicate 9 0%nat.

(** The threads of the sample of simulator.py read their burst times,
    then each runs its loop to the end. *)
Definition worker_schedule : list nat :=
  [0; 1; 2; 3; 4]%nat
  ++ flat_map (fun tb : nat * nat => replicate (8 * snd tb + 4) (fst tb))
       [(0, 5); (1, 3); (2, 8); (3, 6); (4, 4)]%nat.

(** * Properties *)

(** ** Built-ins *)

Section SortingFacts.
Context {A K : Type} (key : A -> K) (lt : K -> K -> bool).

Lemma insert_by_perm (x : A) (l : list A) :
  Permutation (insert_by key lt x l) (x :: l).
Proof.
  induction l as [|y l IH]; simpl; [reflexivity|].
  destruct (lt (key y) (key x)); [|reflexivity].
  rewrite IH. apply perm_swap.
Qed.

Lemma sort_by_perm (l : list A) : Permutation (sort_by key lt l) l.
Proof.
  induction l as [|x l IH]; simpl; [reflexivity|].
  rewrite insert_by_perm. now constructor.
Qed.

Lemma sort_by_nil_inv (l : list A) : sort_by key lt l = [] -> l = [].
Proof.
  intros E. apply Permutation_nil. rewrite <- E. apply sort_by_perm.
Qed.

Lemma min_by_in (x : A) (l : list A) : In (min_by key lt x l) (x :: l).
Proof.
  unfold min_by. revert x. induction l as [|y l IH]; intros x; simpl; [now left|].
  destruct (lt (key y) (key x)).
  - right. apply IH.
  - destruct (IH x) as [E|HI]; [left; exact E | right; right; exact HI].
Qed.
End SortingFacts.

(** Sorting references by a key read through the store is sorting the
    records. *)
Lemma insert_by_map {A B K : Type} (g : A -> B) (key : B -> K) lt x (l : list A) :
  map g (insert_by (fun a => key (g a)) lt x l) = insert_by key lt (g x) (map g l).
Proof.
  induction l as [|y l IH]; simpl; [reflexivity|].
  destruct (lt (key (g y)) (key (g x))); simpl; [now rewrite IH | reflexivity].
Qed.

Lemma sort_by_map {A B K : Type} (g : A -> B) (key : B -> K) lt (l : list A) :
  map g (sort_by (fun a => key (g a)) lt l) = sort_by key lt (map g l).
Proof.
  induction l as [|x l IH]; simpl; [reflexivity|].
  now rewrite insert_by_map, IH.
Qed.

Lemma min_by_map {A B K : Type} (g : A -> B) (key : B -> K) lt x (l : list A) :
  g (min_by (fun a => key (g a)) lt x l) = min_by key lt (g x) (map g l).
Proof.
  unfold min_by. revert x. induction l as [|y l IH]; intros x; simpl; [reflexivity|].
  rewrite IH. now destruct (lt (key (g y)) (key (g x))).
Qed.

Lemma sum_Z_from (l : list Z) (a : Z) : fold_left Z.add l a = a + sum_Z l.
Proof.
  unfold sum_Z. revert a. induction l as [|x l IH]; intros a; simpl; [lia|].
  rewrite (IH (a + x)), (IH (0 + x)). lia.
Qed.

Lemma sum_Z_cons (x : Z) (l : list Z) : sum_Z (x :: l) = x + sum_Z l.
Proof. unfold sum_Z at 1. simpl. apply sum_Z_from. Qed.

Lemma sum_Z_nil : sum_Z [] = 0.
Proof. reflexivity. Qed.

Lemma sum_Z_app (l k : list Z) : sum_Z (l ++ k) = sum_Z l + sum_Z k.
Proof.
  induction l as [|x l IH]; simpl; [now rewrite sum_Z_nil|].
  rewrite !sum_Z_cons, IH. lia.
Qed.

Lemma sum_Z_perm (l k : list Z) : Permutation l k -> sum_Z l = sum_Z k.
Proof.
  induction 1; rewrite ?sum_Z_cons in *; try lia.
Qed.

Lemma max_Z_ge_init (l : list Z) (x : Z) : x <= max_Z x l.
Proof.
  unfold max_Z. revert x. induction l as [|y l IH]; intros x; simpl; [lia|].
  specialize (IH (Z.max x y)). lia.
Qed.

Lemma max_Z_ge (l : list Z) (x y : Z) : In y l -> y <= max_Z x l.
Proof.
  unfold max_Z. revert x. induction l as [|z l IH]; intros x; simpl; [tauto|].
  intros [->|HI].
  - pose proof (max_Z_ge_init l (Z.max x y)). unfold max_Z in *. lia.
  - now apply IH.
Qed.

(** Decimal rendering of integers is injective, so two process labels
    are equal exactly when the pids are. *)
Lemma py_str_inj (a b : Z) : py_str a = py_str b -> a = b.
Proof.
  unfold py_str. intros E.
  assert (Hn : forall z, Z.to_int z <> Decimal.Pos Decimal.Nil
                         /\ Z.to_int z <> Decimal.Neg Decimal.Nil).
  { intros [|p|p]; simpl; split; try discriminate;
      intros [= Hp]; now apply DecimalPos.Unsigned.to_uint_nonnil in Hp. }
  assert (Some (Z.to_int a) = Some (Z.to_int b)) as [= E'].
  { destruct (Hn a), (Hn b).
    rewrite <- (NilZero.isi (Z.to_int a)), <- (NilZero.isi (Z.to_int b)) by assumption.
    now rewrite E. }
  rewrite <- (DecimalZ.of_to a), <- (DecimalZ.of_to b). now rewrite E'.
Qed.

Lemma proc_label_inj (p q : Process) : proc_label p = proc_label q -> pid p = pid q.
Proof.
  unfold proc_label. simpl. intros [= E]. now apply py_str_inj.
Qed.

Lemma proc_label_pid (p q : Process) : pid p = pid q -> proc_label p = proc_label q.
Proof. unfold proc_label. now intros ->. Qed.

Lemma proc_label_not_idle (p : Process) : proc_label p <> IDLE.
Proof. unfold proc_label, IDLE. simpl. discriminate. Qed.

(** ** Loops *)

(** A [while] loop whose body keeps an invariant and decreases a measure
    returns within [fuel] iterations once [fuel] covers the measure. *)
Lemma while_loop_total {S : Type} (cond : S -> bool) (body : S -> S)
    (Inv : S -> Prop) (mu : S -> nat) :
  (forall s, Inv s -> cond s = true -> Inv (body s) /\ (mu (body s) < mu s)%nat) ->
  forall fuel s, Inv s -> (mu s <= fuel)%nat ->
  exists s', while_loop cond body fuel s = Done s' /\ Inv s' /\ cond s' = false.
Proof.
  intros Hstep fuel. induction fuel as [|fuel IH]; intros s HI Hmu; simpl.
  - destruct (cond s) eqn:Hc.
    + destruct (Hstep s HI Hc) as [_ Hlt]. lia.
    + eauto.
  - destruct (cond s) eqn:Hc.
    + destruct (Hstep s HI Hc) as [HI' Hlt]. apply IH; [exact HI' | lia].
    + eauto.
Qed.

(** ** Gantt charts *)

Lemma tiles_app (a c : Z) (g g' : list Interval) :
  tiles a (g ++ g') c <-> exists b, tiles a g b /\ tiles b g' c.
Proof.
  revert a. induction g as [|i g IH]; intros a; simpl.
  - split; [intros H; exists a; auto | intros (b & -> & H); exact H].
  - rewrite IH. split.
    + intros (H1 & H2 & b & H3 & H4). exists b. tauto.
    + intros (b & (H1 & H2 & H3) & H4). eauto.
Qed.

Lemma tiles_snoc (a b c : Z) (g : list Interval) (l : string) :
  tiles a g b -> b < c -> tiles a (g ++ [(b, c, l)]) c.
Proof.
  intros H1 H2. apply tiles_app. exists b. split; [exact H1|].
  simpl. unfold iv_start, iv_end. simpl. auto.
Qed.


Lemma tiles_functional (a b b' : Z) (g : list Interval) :
  tiles a g b -> tiles a g b' -> b = b'.
Proof.
  revert a. induction g as [|i g IH]; simpl; intros a.
  - congruence.
  - intros (_ & _ & H) (_ & _ & H'). eapply IH; eauto.
Qed.

Lemma distinct_adjacent_snoc {A : Type} (l : list A) (x : A) :
  distinct_adjacent l -> last l <> Some x -> distinct_adjacent (l ++ [x]).
Proof.
  induction l as [|a l IH]; simpl; [auto|].
  destruct l as [|b l]; simpl in *.
  - intros _ H. split; [congruence | exact I].
  - intros [H1 H2] H3. split; [exact H1|]. apply IH; assumption.
Qed.

Lemma distinct_adjacent_app_inv {A : Type} (l k : list A) :
  distinct_adjacent (l ++ k) -> distinct_adjacent l.
Proof.
  induction l as [|a l IH]; simpl; [auto|].
  destruct l as [|b l]; simpl in *; [auto|].
  intros [H1 H2]. split; [exact H1 | apply IH; exact H2].
Qed.

Lemma last_map {A B : Type} (f : A -> B) (l : list A) :
  last (map f l) = option_map f (last l).
Proof.
  induction l as [|a l IH]; [reflexivity|].
  destruct l as [|b l]; [reflexivity|]. exact IH.
Qed.

(** The unit-step chart of SRTF stays a tiling and never repeats a label. *)
Lemma extend_gantt_tiles (g : list Interval) (t : Z) (lbl : string) :
  tiles 0 g t -> tiles 0 (extend_gantt g t lbl) (t + 1).
Proof.
  intros H. unfold extend_gantt.
  destruct (last g) as [[[s e] l]|] eqn:E.
  - destruct (negb (String.eqb l lbl)).
    + apply tiles_snoc; [exact H | lia].
    + apply last_Some in E as [g0 ->]. rewrite removelast_last.
      apply tiles_app in H as (b & H1 & H2). simpl in H2.
      unfold iv_start, iv_end in H2. simpl in H2. destruct H2 as (-> & H3 & ->).
      apply tiles_app. exists b. split; [exact H1|]. simpl.
      unfold iv_start, iv_end. simpl. repeat split; lia.
  - apply tiles_snoc; [exact H | lia].
Qed.

Lemma extend_gantt_labels (g : list Interval) (t : Z) (lbl : string) :
  distinct_adjacent (map iv_label g) ->
  distinct_adjacent (map iv_label (extend_gantt g t lbl)).
Proof.
  intros H. unfold extend_gantt.
  destruct (last g) as [[[s e] l]|] eqn:E.
  - destruct (String.eqb_spec l lbl) as [->|Hne]; simpl.
    + apply last_Some in E as [g0 ->]. rewrite removelast_last.
      rewrite map_app in *. exact H.
    + rewrite map_app. simpl. apply distinct_adjacent_snoc; [exact H|].
      rewrite last_map, E. simpl. unfold iv_label. simpl. congruence.
  - rewrite map_app. simpl. apply distinct_adjacent_snoc; [exact H|].
    rewrite last_map, E. discriminate.
Qed.

Lemma extend_gantt_last (g : list Interval) (t : Z) (lbl : string) :
  option_map iv_label (last (extend_gantt g t lbl)) = Some lbl.
Proof.
  unfold extend_gantt.
  destruct (last g) as [[[s e] l]|] eqn:E.
  - destruct (String.eqb_spec l lbl) as [->|Hne]; simpl; now rewrite last_snoc.
  - now rewrite last_snoc.
Qed.

(** ** Arrivals *)

Section ArrivalsFacts.
Context {A : Type} (arr : A -> Z) (t : Z).

Lemma prefix_suffix (l : list A) :
  arrived_prefix arr t l ++ pending_suffix arr t l = l.
Proof.
  induction l as [|a l IH]; simpl; [reflexivity|].
  destruct (arr a <=? t); simpl; [now rewrite IH | reflexivity].
Qed.

Lemma arrived_prefix_le (l : list A) :
  Forall (fun a => arr a <= t) (arrived_prefix arr t l).
Proof.
  induction l as [|a l IH]; simpl; [constructor|].
  destruct (Z.leb_spec (arr a) t); constructor; assumption.
Qed.

Lemma pending_suffix_head (l l' : list A) (a : A) :
  pending_suffix arr t l = a :: l' -> t < arr a.
Proof.
  induction l as [|b l IH]; simpl; [discriminate|].
  destruct (Z.leb_spec (arr b) t); [exact IH|].
  intros [= -> _]. assumption.
Qed.

Lemma arrived_prefix_nonempty (l : list A) (a : A) :
  arr a <= t -> arrived_prefix arr t (a :: l) <> [].
Proof.
  simpl. destruct (Z.leb_spec (arr a) t); [discriminate | lia].
Qed.
End ArrivalsFacts.

Lemma Fn_pull_arrived_eq (t : Z) (remaining ready : list Process) :
  Fn.pull_arrived t remaining ready
  = (pending_suffix arrival_time t remaining,
     ready ++ map (set_state READY) (arrived_prefix arrival_time t remaining)).
Proof.
  revert ready. induction remaining as [|p rem IH]; intros ready; simpl.
  - now rewrite app_nil_r.
  - destruct (arrival_time p <=? t); [|now rewrite app_nil_r].
    rewrite IH. simpl. now rewrite <- app_assoc.
Qed.

(** ** Inputs and per-process invariants *)

Lemma waiting_mono (t t' : Z) (p : Process) : t <= t' -> waiting t p -> waiting t' p.
Proof. unfold waiting. intros. intuition lia. Qed.

Lemma finished_mono (t t' : Z) (p : Process) : t <= t' -> finished t p -> finished t' p.
Proof. unfold finished. intros. intuition lia. Qed.

Lemma Forall_waiting_mono (t t' : Z) (l : list Process) :
  t <= t' -> Forall (waiting t) l -> Forall (waiting t') l.
Proof.
  intros Hle H. rewrite Forall_forall in *. intros p Hp.
  apply (waiting_mono t); auto.
Qed.

Lemma Forall_finished_mono (t t' : Z) (l : list Process) :
  t <= t' -> Forall (finished t) l -> Forall (finished t') l.
Proof.
  intros Hle H. rewrite Forall_forall in *. intros p Hp.
  apply (finished_mono t); auto.
Qed.

Lemma valid_arrived_waiting (t : Z) (p : Process) :
  valid_proc p -> arrival_time p <= t -> waiting t (set_state READY p).
Proof.
  intros (Hf & Ha & Hb) Ht. unfold waiting. rewrite Hf. simpl. lia.
Qed.

Lemma pulled_waiting (t : Z) (remaining : list Process) :
  Forall valid_proc remaining ->
  Forall (waiting t) (map (set_state READY) (arrived_prefix arrival_time t remaining)).
Proof.
  intros Hv. apply Forall_map.
  pose proof (arrived_prefix_le arrival_time t remaining) as Hle.
  assert (Hv' : Forall valid_proc (arrived_prefix arrival_time t remaining)).
  { rewrite <- (prefix_suffix arrival_time t remaining) in Hv.
    now apply Forall_app in Hv. }
  rewrite Forall_forall in *. intros p Hp.
  apply valid_arrived_waiting; auto.
Qed.

Lemma pending_valid (t : Z) (remaining : list Process) :
  Forall valid_proc remaining ->
  Forall valid_proc (pending_suffix arrival_time t remaining).
Proof.
  intros Hv. rewrite <- (prefix_suffix arrival_time t remaining) in Hv.
  now apply Forall_app in Hv.
Qed.

Lemma map_pid_ready (l : list Process) : map pid (map (set_state READY) l) = map pid l.
Proof. rewrite map_map. reflexivity. Qed.

(** Pulling arrivals moves pids from the pool to the queue. *)
Lemma pulled_pids (t : Z) (remaining ready : list Process) :
  Permutation
    (map pid (pending_suffix arrival_time t remaining)
     ++ map pid (ready ++ map (set_state READY) (arrived_prefix arrival_time t remaining)))
    (map pid remaining ++ map pid ready).
Proof.
  rewrite <- (prefix_suffix arrival_time t remaining) at 3.
  rewrite !map_app, map_pid_ready.
  set (a := map pid (arrived_prefix _ _ _)). set (b := map pid (pending_suffix _ _ _)).
  set (c := map pid ready).
  rewrite (Permutation_app_comm c a), app_assoc.
  apply Permutation_app_tail, Permutation_app_comm.
Qed.

(** ** Invariants of the [while] loops (SJF, Priority, Round-Robin) *)

Lemma would_idle_bounds (s : Fn.State) : 0 <= would_idle s <= 1.
Proof.
  unfold would_idle. destruct (ready_queue s), (remaining_processes s); try lia.
  destruct (_ <? _); lia.
Qed.

Lemma begin_complete_finished (t : Z) (p : Process) :
  waiting t p ->
  finished (t + burst_time p) (complete_run (t + burst_time p) (begin_run t p))
  /\ completion_time (complete_run (t + burst_time p) (begin_run t p)) = t + burst_time p.
Proof.
  unfold waiting, finished. simpl. intros. intuition lia.
Qed.

Lemma sorted_head_split {K : Type} (key : Process -> K) lt (l : list Process)
    (p : Process) (rest : list Process) :
  sort_by key lt l = p :: rest -> Permutation l (p :: rest).
Proof. intros E. rewrite <- E. symmetry. apply sort_by_perm. Qed.

Lemma perm_dispatch {A : Type} (a r r2 d : list A) (x : A) :
  Permutation r (x :: r2) ->
  Permutation (a ++ r2 ++ d ++ [x]) ((a ++ r) ++ d).
Proof.
  intros E. rewrite <- app_assoc. apply Permutation_app_head.
  rewrite E. simpl. rewrite (Permutation_app_comm d [x]). simpl.
  symmetry. apply Permutation_middle.
Qed.

Lemma np_body_inv (procs : list Process) (key : Process -> Z * Z * Z) (s : Fn.State) :
  loop_inv procs s -> work_left s = true ->
  loop_inv procs (Fn.np_body key s) /\ (np_measure (Fn.np_body key s) < np_measure s)%nat.
Proof.
  intros [Ht Hg Hrem Hready Hdone Hpids _] Hw.
  destruct s as [t g done rem ready cur]. simpl in *.
  unfold Fn.np_body. simpl. rewrite Fn_pull_arrived_eq.
  pose proof (prefix_suffix arrival_time t rem) as Hsplit.
  pose proof (pulled_waiting t rem Hrem) as Hpw.
  pose proof (pending_valid t rem Hrem) as Hpv.
  pose proof (pulled_pids t rem ready) as Hpp.
  assert (Hlen : (length (pending_suffix arrival_time t rem)
                  + length (ready ++ map (set_state READY) (arrived_prefix arrival_time t rem))
                  = length rem + length ready)%nat).
  { rewrite <- Hsplit at 3. rewrite !length_app, length_map. lia. }
  assert (Hready1 : Forall (waiting t)
            (ready ++ map (set_state READY) (arrived_prefix arrival_time t rem))).
  { apply Forall_app. split; assumption. }
  destruct (ready ++ map (set_state READY) (arrived_prefix arrival_time t rem))
    as [|r rs] eqn:E1.
  - (* nothing ready *)
    apply app_eq_nil in E1 as [-> E1]. apply map_eq_nil in E1.
    rewrite E1 in Hsplit. simpl in Hsplit. rewrite Hsplit in *.
    destruct rem as [|next rem']; [discriminate|].
    assert (Hnext : t < arrival_time next).
    { apply (pending_suffix_head arrival_time t (next :: rem') rem').
      now rewrite Hsplit. }
    split.
    + constructor; simpl.
      * lia.
      * apply tiles_snoc; assumption.
      * assumption.
      * constructor.
      * apply (Forall_finished_mono t); [lia | exact Hdone].
      * assumption.
      * discriminate.
    + unfold np_measure, would_idle. simpl.
      destruct (Z.ltb_spec t (arrival_time next)); [|lia].
      destruct (Z.ltb_spec (arrival_time next) (arrival_time next)); lia.
  - (* dispatch *)
    destruct (sort_by key lt_triple (r :: rs)) as [|process ready2] eqn:E3.
    { apply sort_by_nil_inv in E3. discriminate. }
    apply sorted_head_split in E3.
    assert (Hp : waiting t process /\ Forall (waiting t) ready2).
    { rewrite E3 in Hready1. now inversion Hready1. }
    destruct Hp as [Hp Hr2].
    destruct (begin_complete_finished t process Hp) as [Hfin Hcomp].
    assert (Hb : 0 < burst_time process) by (unfold waiting in Hp; lia).
    split.
    + constructor; simpl.
      * lia.
      * apply tiles_snoc; [assumption | lia].
      * assumption.
      * apply (Forall_waiting_mono t); [lia | exact Hr2].
      * apply Forall_app. split.
        -- apply (Forall_finished_mono t); [lia | exact Hdone].
        -- constructor; [exact Hfin | constructor].
      * rewrite <- Hpids, (app_assoc (map pid rem)), <- Hpp, map_app. simpl.
        apply perm_dispatch. apply (Permutation_map pid) in E3. exact E3.
      * intros _. apply Exists_app. right. constructor. exact Hcomp.
    + unfold np_measure. simpl.
      apply Permutation_length in E3. simpl in E3.
      pose proof (would_idle_bounds
        (mkState (t + burst_time process)
           (g ++ [(t, t + burst_time process, proc_label (begin_run t process))])
           (done ++ [complete_run (t + burst_time process) (begin_run t process)])
           (pending_suffix arrival_time t rem) ready2 cur)) as Hb1.
      pose proof (would_idle_bounds (mkState t g done rem ready cur)) as Hb2.
      simpl in *. lia.
Qed.

Lemma total_remaining_app (l k : list Process) :
  total_remaining (l ++ k) = total_remaining l + total_remaining k.
Proof. unfold total_remaining. now rewrite map_app, sum_Z_app. Qed.

Lemma total_remaining_cons (p : Process) (l : list Process) :
  total_remaining (p :: l) = remaining_time p + total_remaining l.
Proof. unfold total_remaining. simpl. now rewrite sum_Z_cons. Qed.

Lemma total_remaining_perm (l k : list Process) :
  Permutation l k -> total_remaining l = total_remaining k.
Proof. intros H. apply sum_Z_perm. now apply Permutation_map. Qed.

Lemma total_remaining_ready (l : list Process) :
  total_remaining (map (set_state READY) l) = total_remaining l.
Proof. unfold total_remaining. now rewrite map_map. Qed.

Lemma total_remaining_split (t : Z) (l : list Process) :
  total_remaining (arrived_prefix arrival_time t l)
  + total_remaining (pending_suffix arrival_time t l) = total_remaining l.
Proof. now rewrite <- total_remaining_app, prefix_suffix. Qed.

(** One Round-Robin slice of a waiting process. *)
Lemma slice_facts (q t : Z) (p : Process) :
  0 < q -> waiting t p ->
  let p1 := dispatch t p in
  let e := Z.min q (remaining_time p1) in
  let p2 := fst (execute e p1) in
  1 <= e /\ remaining_time p2 = remaining_time p - e
  /\ pid p2 = pid p /\ proc_label p1 = proc_label p
  /\ (remaining_time p2 = 0 ->
      finished (t + e) (finalize (t + e) p2)
      /\ completion_time (finalize (t + e) p2) = t + e)
  /\ (remaining_time p2 <> 0 -> waiting (t + e) (set_state READY p2)).
Proof.
  intros Hq (Ha & Hr & Hx & Hs).
  unfold dispatch, execute, finished, waiting, proc_label. simpl.
  destruct (Z.eqb_spec (start_time p) (-1)); simpl;
    rewrite (Z.min_l (Z.min q (remaining_time p)) (remaining_time p)) by lia;
    destruct (Z.eqb_spec (remaining_time p - Z.min q (remaining_time p)) 0); simpl;
    repeat split; try lia.
Qed.

Lemma rr_body_inv (procs : list Process) (q : Z) (s : Fn.State) :
  0 < q -> loop_inv procs s -> work_left s = true ->
  loop_inv procs (Fn.rr_body q s) /\ (rr_measure (Fn.rr_body q s) < rr_measure s)%nat.
Proof.
  intros Hq [Ht Hg Hrem Hready Hdone Hpids _] Hw.
  destruct s as [t g done rem ready cur]. simpl in *.
  unfold Fn.rr_body. simpl. rewrite Fn_pull_arrived_eq.
  pose proof (prefix_suffix arrival_time t rem) as Hsplit.
  pose proof (pulled_waiting t rem Hrem) as Hpw.
  pose proof (pending_valid t rem Hrem) as Hpv.
  pose proof (pulled_pids t rem ready) as Hpp.
  pose proof (total_remaining_split t rem) as Htr.
  assert (Hready1 : Forall (waiting t)
            (ready ++ map (set_state READY) (arrived_prefix arrival_time t rem))).
  { apply Forall_app. split; assumption. }
  assert (Htr1 : total_remaining
                   (ready ++ map (set_state READY) (arrived_prefix arrival_time t rem))
                 = total_remaining ready
                   + total_remaining (arrived_prefix arrival_time t rem)).
  { now rewrite total_remaining_app, total_remaining_ready. }
  destruct (ready ++ map (set_state READY) (arrived_prefix arrival_time t rem))
    as [|process ready2] eqn:E1.
  - (* nothing ready *)
    apply app_eq_nil in E1 as [-> E1]. apply map_eq_nil in E1.
    rewrite E1 in Hsplit. simpl in Hsplit. rewrite Hsplit in *.
    destruct rem as [|next rem']; [discriminate|].
    assert (Hnext : t < arrival_time next).
    { apply (pending_suffix_head arrival_time t (next :: rem') rem').
      now rewrite Hsplit. }
    split.
    + constructor; simpl.
      * lia.
      * apply tiles_snoc; assumption.
      * assumption.
      * constructor.
      * apply (Forall_finished_mono t); [lia | exact Hdone].
      * assumption.
      * discriminate.
    + unfold rr_measure, would_idle. simpl.
      assert (0 < burst_time next) by (inversion Hrem as [|? ? (_ & _ & Hb) _]; exact Hb).
      assert (remaining_time next = burst_time next).
      { inversion Hrem as [|? ? (Hf & _) _]. rewrite Hf. reflexivity. }
      assert (0 <= total_remaining rem').
      { inversion Hrem as [|? ? _ Hrest]. clear - Hrest.
        induction Hrest as [|p l (Hf & _ & Hb) _ IH]; [reflexivity|].
        rewrite total_remaining_cons. rewrite Hf. simpl. lia. }
      rewrite !total_remaining_cons. change (total_remaining []) with 0.
      rewrite Z.ltb_irrefl.
      destruct (Z.ltb_spec t (arrival_time next)); lia.
  - (* dispatch the head of the queue *)
    assert (Hp : waiting t process /\ Forall (waiting t) ready2)
      by (now inversion Hready1).
    destruct Hp as [Hp Hr2].
    destruct (slice_facts q t process Hq Hp) as (He & Hrt & Hpid & _ & Hfin & Hwait).
    set (p1 := dispatch t process) in *.
    set (e := Z.min q (remaining_time p1)) in *.
    set (p2 := fst (execute e p1)) in *.
    rewrite Fn_pull_arrived_eq.
    set (rem1 := pending_suffix arrival_time t rem) in *.
    pose proof (pulled_waiting (t + e) rem1 Hpv) as Hpw2.
    pose proof (pending_valid (t + e) rem1 Hpv) as Hpv2.
    pose proof (pulled_pids (t + e) rem1 ready2) as Hpp2.
    pose proof (total_remaining_split (t + e) rem1) as Htr2.
    set (rem2 := pending_suffix arrival_time (t + e) rem1) in *.
    set (pre2 := arrived_prefix arrival_time (t + e) rem1) in *.
    assert (Hready3 : Forall (waiting (t + e)) (ready2 ++ map (set_state READY) pre2)).
    { apply Forall_app. split; [|assumption].
      apply (Forall_waiting_mono t); [lia | exact Hr2]. }
    assert (Hpidperm : Permutation
              (map pid rem2 ++ (map pid (ready2 ++ map (set_state READY) pre2) ++ [pid process])
               ++ map pid done)
              (map pid procs)).
    { transitivity ((map pid rem2 ++ map pid (ready2 ++ map (set_state READY) pre2))
                    ++ [pid process] ++ map pid done).
      { rewrite <- !app_assoc. reflexivity. }
      rewrite Hpp2, <- Hpids, (app_assoc (map pid rem)), <- Hpp. simpl.
      rewrite <- !app_assoc. apply Permutation_app_head.
      symmetry. apply Permutation_middle. }
    assert (Hmeasure :
      total_remaining rem2 + total_remaining (ready2 ++ map (set_state READY) pre2)
      + remaining_time p2
      = total_remaining rem + total_remaining ready - e).
    { rewrite total_remaining_app, total_remaining_ready.
      rewrite total_remaining_cons in Htr1. fold rem1 in Htr. lia. }
    assert (Hnn : forall l u, Forall (waiting u) l -> 0 <= total_remaining l).
    { clear. intros l u H. induction H as [|p l (_ & Hr & _) _ IH]; [reflexivity|].
      rewrite total_remaining_cons. lia. }
    assert (Hnn' : forall l, Forall valid_proc l -> 0 <= total_remaining l).
    { clear. intros l H. induction H as [|p l (Hf & _ & Hb) _ IH]; [reflexivity|].
      rewrite total_remaining_cons, Hf. simpl. lia. }
    pose proof (Hnn _ _ Hready3) as N1. pose proof (Hnn' _ Hpv2) as N2.
    unfold is_complete. destruct (Z.eqb_spec (remaining_time p2) 0) as [Hz|Hnz].
    + destruct (Hfin Hz) as [Hf Hc]. split.
      * constructor; simpl.
        -- lia.
        -- apply tiles_snoc; [assumption | lia].
        -- assumption.
        -- assumption.
        -- apply Forall_app. split.
           ++ apply (Forall_finished_mono t); [lia | exact Hdone].
           ++ constructor; [exact Hf | constructor].
        -- rewrite <- Hpidperm, (map_app pid done). simpl.
           change (pid (finalize (t + e) p2)) with (pid p2). rewrite Hpid.
           apply Permutation_app_head. rewrite <- app_assoc.
           apply Permutation_app_head, Permutation_app_comm.
        -- intros _. apply Exists_app. right. constructor. exact Hc.
      * unfold rr_measure. simpl.
        pose proof (would_idle_bounds
          (mkState (t + e) (g ++ [(t, t + e, proc_label p1)])
             (done ++ [finalize (t + e) p2]) rem2
             (ready2 ++ map (set_state READY) pre2) cur)) as Hb1.
        pose proof (would_idle_bounds (mkState t g done rem ready cur)) as Hb2.
        simpl in *. lia.
    + specialize (Hwait Hnz). split.
      * constructor; simpl.
        -- lia.
        -- apply tiles_snoc; [assumption | lia].
        -- assumption.
        -- apply Forall_app. split; [assumption|]. constructor; [exact Hwait | constructor].
        -- apply (Forall_finished_mono t); [lia | exact Hdone].
        -- rewrite <- Hpidperm. rewrite (map_app pid (ready2 ++ _)). simpl.
           rewrite Hpid. reflexivity.
        -- unfold work_left. simpl.
           destruct rem2; destruct (ready2 ++ map (set_state READY) pre2); discriminate.
      * unfold rr_measure.
        pose proof (would_idle_bounds
          (mkState (t + e) (g ++ [(t, t + e, proc_label p1)]) done rem2
             ((ready2 ++ map (set_state READY) pre2) ++ [set_state READY p2]) cur)) as Hb1.
        pose proof (would_idle_bounds (mkState t g done rem ready cur)) as Hb2.
        cbn [remaining_processes ready_queue].
        rewrite (total_remaining_app (ready2 ++ _)), total_remaining_cons.
        change (total_remaining []) with 0.
        change (remaining_time (set_state READY p2)) with (remaining_time p2).
        destruct Hwait as (_ & Hrp2 & _). simpl in Hrp2. lia.
Qed.

Lemma nodup_app_disjoint {A : Type} (l k : list A) (x : A) :
  NoDup (l ++ k) -> In x l -> In x k -> False.
Proof.
  intros H Hl Hk. apply NoDup_app in H as (_ & H & _).
  apply (H x); now apply list_elem_of_In.
Qed.

Lemma np_body_labels (procs : list Process) (key : Process -> Z * Z * Z) (s : Fn.State) :
  NoDup (map pid procs) ->
  loop_inv procs s -> label_inv s -> work_left s = true ->
  label_inv (Fn.np_body key s).
Proof.
  intros Hnd [Ht Hg Hrem Hready Hdone Hpids _] [Hd Hl] Hw.
  destruct s as [t g done rem ready cur]. simpl in *.
  unfold Fn.np_body. simpl. rewrite Fn_pull_arrived_eq.
  pose proof (prefix_suffix arrival_time t rem) as Hsplit.
  pose proof (pulled_pids t rem ready) as Hpp.
  destruct (ready ++ map (set_state READY) (arrived_prefix arrival_time t rem))
    as [|r rs] eqn:E1.
  - apply app_eq_nil in E1 as [-> E1]. apply map_eq_nil in E1.
    rewrite E1 in Hsplit. simpl in Hsplit. rewrite Hsplit in *.
    destruct rem as [|next rem']; [discriminate|].
    constructor; simpl.
    + rewrite map_app. simpl. apply distinct_adjacent_snoc; [exact Hd|].
      rewrite last_map. destruct (last g) as [i|] eqn:El; [|discriminate].
      simpl. destruct (Hl i eq_refl) as [(_ & p & rem'' & [= <- _] & Hle)|(q & _ & Hq)].
      * exfalso. revert E1. now apply arrived_prefix_nonempty.
      * rewrite Hq. intros Hx. apply (proc_label_not_idle q). congruence.
    + intros i. rewrite last_snoc. intros [= <-]. left. split; [reflexivity|].
      exists next, rem'. split; [reflexivity | lia].
  - destruct (sort_by key lt_triple (r :: rs)) as [|process ready2] eqn:E3.
    { apply sort_by_nil_inv in E3. discriminate. }
    apply sorted_head_split in E3.
    constructor; simpl.
    + rewrite map_app. simpl. apply distinct_adjacent_snoc; [exact Hd|].
      rewrite last_map. destruct (last g) as [i|] eqn:El; [|discriminate].
      simpl. destruct (Hl i eq_refl) as [(Hi & _)|(q & Hin & Hq)].
      * rewrite Hi. intros Hx. apply (proc_label_not_idle (begin_run t process)). congruence.
      * rewrite Hq. intros Hx. assert (Hy : proc_label q = proc_label process).
        { change (proc_label (begin_run t process)) with (proc_label process) in Hx.
          congruence. }
        clear Hx. apply proc_label_inj in Hy. rename Hy into Hx.
        rewrite <- Hpids, app_assoc in Hnd.
        apply (nodup_app_disjoint _ _ (pid q) Hnd); [|now apply in_map].
        rewrite <- Hpp. apply in_or_app. right.
        rewrite Hx. apply in_map. rewrite E3. now left.
    + intros i. rewrite last_snoc. intros [= <-]. right.
      eexists. split; [apply in_or_app; right; now left|]. reflexivity.
Qed.

(** ** The [while] loops return *)

Lemma valid_sorted (policy : Policy) (procs : list Process) :
  valid_input policy procs ->
  Forall valid_proc (sort_by arrival_key lt_pair procs).
Proof.
  intros (_ & _ & Hv & _). rewrite List.Forall_forall in *. intros p Hp.
  apply Hv. exact (Permutation_in p (sort_by_perm arrival_key lt_pair procs) Hp).
Qed.

Lemma init_loop_inv (policy : Policy) (procs : list Process) :
  valid_input policy procs ->
  loop_inv procs (Fn.init (sort_by arrival_key lt_pair procs)).
Proof.
  intros Hv. constructor; simpl.
  - lia.
  - reflexivity.
  - eapply valid_sorted; eauto.
  - constructor.
  - constructor.
  - rewrite app_nil_r. apply Permutation_map, sort_by_perm.
  - unfold work_left. simpl.
    destruct (sort_by arrival_key lt_pair procs) eqn:E; [|discriminate].
    apply sort_by_nil_inv in E. destruct Hv as (Hne & _). contradiction.
Qed.

Lemma init_label_inv (l : list Process) : label_inv (Fn.init l).
Proof. constructor; simpl; [exact I | discriminate]. Qed.

Lemma loop_inv_post (procs : list Process) (s : Fn.State) :
  loop_inv procs s -> work_left s = false -> post procs s (current_time s).
Proof.
  intros [Ht Hg Hrem Hready Hdone Hpids Hlast] Hw.
  specialize (Hlast Hw). unfold work_left in Hw.
  destruct (remaining_processes s), (ready_queue s); try discriminate.
  constructor; auto.
Qed.

Lemma total_remaining_valid (l : list Process) :
  Forall valid_proc l -> total_remaining l = sum_Z (map burst_time l).
Proof.
  induction 1 as [|p l (Hf & _) _ IH]; [reflexivity|].
  rewrite total_remaining_cons. simpl. rewrite sum_Z_cons, IH, Hf. reflexivity.
Qed.

Lemma np_run_post (policy : Policy) (key : Process -> Z * Z * Z)
    (procs : list Process) (fuel : nat) :
  valid_input policy procs -> (2 * length procs + 1 <= fuel)%nat ->
  exists s, Fn.np_run key fuel procs = Done s
            /\ post procs s (current_time s)
            /\ distinct_adjacent (map iv_label (gantt_chart s)).
Proof.
  intros Hv Hfuel. unfold Fn.np_run.
  destruct (while_loop_total work_left (Fn.np_body key)
              (fun s => loop_inv procs s /\ label_inv s) np_measure) with
    (fuel := fuel) (s := Fn.init (sort_by arrival_key lt_pair procs))
    as (s' & Hrun & (Hinv & Hlab) & Hc).
  - intros s [Hi Hl] Hc. destruct (np_body_inv procs key s Hi Hc) as [Hi' Hm].
    split; [split|]; auto.
    apply np_body_labels with (procs := procs); auto. now destruct Hv as (_ & ? & _).
  - split; [eapply init_loop_inv; eauto | apply init_label_inv].
  - unfold np_measure. simpl.
    pose proof (would_idle_bounds (Fn.init (sort_by arrival_key lt_pair procs))).
    rewrite (Permutation_length (sort_by_perm arrival_key lt_pair procs)). lia.
  - exists s'. split; [exact Hrun|]. split; [now apply loop_inv_post | now destruct Hlab].
Qed.

Lemma rr_run_post (q : Z) (procs : list Process) (fuel : nat) :
  valid_input (RoundRobin q) procs ->
  (Z.to_nat (2 * sum_Z (map burst_time procs) + 1) <= fuel)%nat ->
  exists s, Fn.rr_run q fuel procs = Done s /\ post procs s (current_time s).
Proof.
  intros Hv Hfuel. unfold Fn.rr_run.
  destruct (while_loop_total work_left (Fn.rr_body q) (loop_inv procs) rr_measure) with
    (fuel := fuel) (s := Fn.init (sort_by arrival_key lt_pair procs))
    as (s' & Hrun & Hinv & Hc).
  - intros s Hi Hc. apply rr_body_inv; auto. now destruct Hv as (_ & _ & _ & ?).
  - eapply init_loop_inv; eauto.
  - unfold rr_measure. simpl.
    pose proof (would_idle_bounds (Fn.init (sort_by arrival_key lt_pair procs))).
    change (total_remaining []) with 0.
    rewrite (total_remaining_valid _ (valid_sorted _ _ Hv)).
    rewrite (sum_Z_perm _ _ (Permutation_map burst_time (sort_by_perm arrival_key lt_pair procs))).
    lia.
  - exists s'. split; [exact Hrun|]. now apply loop_inv_post.
Qed.

(** ** FCFS *)

Lemma valid_waiting (t : Z) (p : Process) :
  valid_proc p -> arrival_time p <= t -> waiting t p.
Proof.
  intros (Hf & Ha & Hb) Ht. unfold waiting. rewrite Hf. simpl. lia.
Qed.

Lemma fcfs_step_inv (procs todo : list Process) (p : Process) (s : Fn.State) :
  NoDup (map pid procs) ->
  fcfs_inv procs (p :: todo) s -> fcfs_inv procs todo (Fn.fcfs_step s p).
Proof.
  intros Hnd [Ht Hg Htodo Hdone Hpids Hlast Hd Hl].
  destruct s as [t g done rem ready cur]. simpl in *.
  inversion Htodo as [|? ? Hp Htodo']; subst.
  unfold Fn.fcfs_step. simpl.
  assert (Hfresh : forall q, In q done -> pid q <> pid p).
  { intros q Hq E. rewrite <- Hpids in Hnd. simpl in Hnd.
    apply NoDup_cons in Hnd as [Hnotin _]. apply Hnotin.
    apply list_elem_of_In, in_or_app. right. rewrite <- E. now apply in_map. }
  assert (Hlastp : last (map iv_label g) <> Some (proc_label p)).
  { rewrite last_map. destruct (last g) as [i|] eqn:El; [|discriminate].
    simpl. destruct (Hl i eq_refl) as (q & Hq & ->).
    intros [= E]. apply (Hfresh q Hq). now apply py_str_inj. }
  assert (Hpermx : Permutation (map pid todo ++ map pid done ++ [pid p]) (map pid procs)).
  { rewrite <- Hpids. simpl. rewrite app_assoc. rewrite Permutation_app_comm. reflexivity. }
  destruct (Z.ltb_spec t (arrival_time p)) as [Hlt|Hge].
  - (* the CPU idles until the arrival *)
    assert (Hw : waiting (arrival_time p) p) by (apply valid_waiting; [exact Hp | lia]).
    destruct (begin_complete_finished _ _ Hw) as [Hfin Hcomp].
    assert (Hb : 0 < burst_time p) by (destruct Hp as (_ & _ & ?); assumption).
    assert (Ha : 0 <= arrival_time p) by (destruct Hp as (_ & ? & _); assumption).
    constructor; simpl.
    + lia.
    + apply tiles_snoc; [|lia]. apply tiles_snoc; assumption.
    + assumption.
    + apply Forall_app. split.
      * apply (Forall_finished_mono t); [lia | exact Hdone].
      * constructor; [exact Hfin | constructor].
    + rewrite map_app. exact Hpermx.
    + intros _. apply Exists_app. right. constructor. exact Hcomp.
    + rewrite !map_app. simpl. apply distinct_adjacent_snoc.
      * apply distinct_adjacent_snoc; [exact Hd|].
        rewrite last_map. destruct (last g) as [i|] eqn:El; [|discriminate].
        simpl. destruct (Hl i eq_refl) as (q & _ & ->).
        intros Hx. apply (proc_label_not_idle q). congruence.
      * rewrite last_snoc. intros Hx.
        apply (proc_label_not_idle (begin_run (arrival_time p) p)).
        unfold iv_label in Hx. simpl in Hx. congruence.
    + intros i. rewrite last_snoc. intros [= <-].
      eexists. split; [apply in_or_app; right; now left | reflexivity].
  - assert (Hw : waiting t p) by (apply valid_waiting; [exact Hp | lia]).
    destruct (begin_complete_finished _ _ Hw) as [Hfin Hcomp].
    assert (Hb : 0 < burst_time p) by (destruct Hp as (_ & _ & ?); assumption).
    constructor; simpl.
    + lia.
    + apply tiles_snoc; [assumption | lia].
    + assumption.
    + apply Forall_app. split.
      * apply (Forall_finished_mono t); [lia | exact Hdone].
      * constructor; [exact Hfin | constructor].
    + rewrite map_app. exact Hpermx.
    + intros _. apply Exists_app. right. constructor. exact Hcomp.
    + rewrite map_app. simpl. apply distinct_adjacent_snoc; [exact Hd | exact Hlastp].
    + intros i. rewrite last_snoc. intros [= <-].
      eexists. split; [apply in_or_app; right; now left | reflexivity].
Qed.

Lemma fcfs_fold_inv (procs todo : list Process) (s : Fn.State) :
  NoDup (map pid procs) ->
  fcfs_inv procs todo s -> fcfs_inv procs [] (fold_left Fn.fcfs_step todo s).
Proof.
  intros Hnd. revert s. induction todo as [|p todo IH]; intros s H; simpl; [exact H|].
  apply IH. now apply fcfs_step_inv.
Qed.

Lemma fcfs_run_post (procs : list Process) :
  valid_input FCFS procs ->
  post procs (Fn.fcfs_run procs) (current_time (Fn.fcfs_run procs))
  /\ distinct_adjacent (map iv_label (gantt_chart (Fn.fcfs_run procs))).
Proof.
  intros Hv. pose proof Hv as (Hne & Hnd & Hval & _).
  assert (H0 : fcfs_inv procs (sort_by arrival_key lt_pair procs) (Fn.init [])).
  { constructor; simpl.
    - lia.
    - reflexivity.
    - eapply valid_sorted; eauto.
    - constructor.
    - rewrite app_nil_r. apply Permutation_map, sort_by_perm.
    - intros H. now contradiction H.
    - exact I.
    - discriminate. }
  apply (fcfs_fold_inv _ _ _ Hnd) in H0. fold (Fn.fcfs_run procs) in H0.
  destruct H0 as [Ht Hg _ Hdone Hpids Hlast Hd _]. simpl in Hpids.
  split; [|exact Hd]. constructor; auto.
  apply Hlast. intros E. rewrite E in Hpids. simpl in Hpids.
  apply Permutation_nil in Hpids. apply map_eq_nil in Hpids. contradiction.
Qed.

(** ** SRTF *)

Lemma min_by_waiting (t : Z) (r : Process) (rs : list Process) :
  Forall (waiting t) (r :: rs) -> waiting t (min_by srtf_key lt_triple r rs).
Proof.
  intros H. rewrite List.Forall_forall in H. apply H. apply min_by_in.
Qed.

Lemma srtf_settle_spec (t : Z) (cur cur2 : option Process)
    (ready ready2 done done2 : list Process) :
  Fn.srtf_settle t cur ready done = (cur2, ready2, done2) ->
  (forall c, cur = Some c -> running t c) ->
  Forall (waiting t) ready -> Forall (finished t) done ->
  on_cpu t cur2
  /\ Forall (waiting t) ready2 /\ Forall (finished t) done2
  /\ Permutation (map pid ready2 ++ map pid (option_list cur2) ++ map pid done2)
       (map pid ready ++ map pid (option_list cur) ++ map pid done)
  /\ total_remaining ready2 + total_remaining (option_list cur2)
     = total_remaining ready + total_remaining (option_list cur)
  /\ (ready <> [] -> ready2 <> [])
  /\ ((exists c, cur = Some c /\ 1 <= remaining_time c) -> ready2 <> [] \/ cur2 <> None).
Proof.
  unfold Fn.srtf_settle, on_cpu. intros E Hcur Hready Hdone.
  destruct cur as [c|].
  - specialize (Hcur c eq_refl). pose proof Hcur as (Ha & Hr & Hb & Hx & Hresp & Hst).
    unfold is_complete in E. destruct (Z.eqb_spec (remaining_time c) 0) as [Hz|Hnz].
    + injection E as <- <- <-. split_and!.
      * discriminate.
      * assumption.
      * apply Forall_app. split; [assumption|]. constructor; [|constructor].
        unfold finished. simpl. lia.
      * simpl. rewrite map_app. simpl. apply Permutation_app_head.
        apply Permutation_app_comm.
      * unfold total_remaining. simpl. rewrite sum_Z_cons, sum_Z_nil. lia.
      * auto.
      * intros (c' & [= <-] & Hc'). lia.
    + assert (Hkeep : on_cpu t (Some c)).
      { intros c' [= <-]. split; [exact Hcur | lia]. }
      assert (Hsame : forall x y z, (x, y, z) = (cur2, ready2, done2) ->
                 x = Some c -> y = ready -> z = done ->
                 (forall c0, cur2 = Some c0 -> running t c0 /\ 1 <= remaining_time c0)
                 /\ Forall (waiting t) ready2 /\ Forall (finished t) done2
                 /\ Permutation (map pid ready2 ++ map pid (option_list cur2) ++ map pid done2)
                      (map pid ready ++ map pid (option_list (Some c)) ++ map pid done)
                 /\ total_remaining ready2 + total_remaining (option_list cur2)
                    = total_remaining ready + total_remaining (option_list (Some c))
                 /\ (ready <> [] -> ready2 <> [])
                 /\ ((exists c0, Some c = Some c0 /\ 1 <= remaining_time c0) ->
                     ready2 <> [] \/ cur2 <> None)).
      { intros x y z [= <- <- <-] -> -> ->.
        split_and!; auto; try (intros _; right; discriminate). }
      destruct ready as [|r rs]; [eapply Hsame; eauto|].
      destruct (_ <? _); [|eapply Hsame; eauto].
      injection E as <- <- <-. rewrite !app_comm_cons. split_and!.
      * discriminate.
      * apply Forall_app. split; [assumption|]. constructor; [|constructor].
        unfold waiting. simpl. lia.
      * assumption.
      * simpl. rewrite map_app. simpl. rewrite <- app_assoc. reflexivity.
      * rewrite total_remaining_app. unfold total_remaining. simpl.
        rewrite !sum_Z_cons, !sum_Z_nil. lia.
      * intros _. destruct rs; discriminate.
      * intros _. left. destruct rs; discriminate.
  - injection E as <- <- <-. split_and!; auto; try discriminate.
    intros (c & [=] & _).
Qed.

Lemma dispatch_on_cpu (t : Z) (p : Process) :
  waiting t p ->
  running t (dispatch t p) /\ 1 <= remaining_time (dispatch t p)
  /\ pid (dispatch t p) = pid p
  /\ remaining_time (dispatch t p) = remaining_time p.
Proof.
  unfold waiting, running, dispatch. simpl. intros (Ha & Hr & Hx & Hs).
  destruct (Z.eqb_spec (start_time p) (-1)); simpl; repeat split; try lia.
Qed.

Lemma srtf_select_spec (t : Z) (cur2 cur3 : option Process)
    (ready2 ready3 : list Process) :
  Fn.srtf_select t cur2 ready2 = (cur3, ready3) ->
  on_cpu t cur2 -> Forall (waiting t) ready2 ->
  on_cpu t cur3 /\ Forall (waiting t) ready3
  /\ Permutation (map pid ready3 ++ map pid (option_list cur3))
       (map pid ready2 ++ map pid (option_list cur2))
  /\ total_remaining ready3 + total_remaining (option_list cur3)
     = total_remaining ready2 + total_remaining (option_list cur2)
  /\ (cur3 = None -> ready3 = [] /\ ready2 = [] /\ cur2 = None).
Proof.
  unfold Fn.srtf_select. intros E Hcur Hready.
  destruct cur2 as [c|].
  { injection E as <- <-. split_and!; auto; discriminate. }
  destruct ready2 as [|r rs].
  { injection E as <- <-. split_and!; auto. }
  destruct (sort_by srtf_key lt_triple (r :: rs)) as [|p rest] eqn:Es.
  { apply sort_by_nil_inv in Es. discriminate. }
  apply sorted_head_split in Es. injection E as <- <-.
  rewrite Es in Hready. inversion Hready as [|? ? Hp Hrest]; subst.
  destruct (dispatch_on_cpu t p Hp) as (Hrun & Hrem & Hpid & Hsame).
  split_and!.
  - intros c [= <-]. tauto.
  - assumption.
  - simpl. rewrite Hpid, app_nil_r. apply (Permutation_map pid) in Es. simpl in Es.
    rewrite Es. symmetry. apply Permutation_cons_append.
  - rewrite (total_remaining_perm _ _ Es). simpl.
    rewrite !total_remaining_cons, Hsame. lia.
  - discriminate.
Qed.

Lemma execute_unit (t : Z) (c : Process) :
  running t c -> 1 <= remaining_time c ->
  running (t + 1) (fst (execute 1 c))
  /\ remaining_time (fst (execute 1 c)) = remaining_time c - 1
  /\ pid (fst (execute 1 c)) = pid c.
Proof.
  unfold running, execute. intros (Ha & Hr & Hb & Hx & Hresp & Hst) H1.
  rewrite (Hst H1). simpl. rewrite Z.min_l by lia.
  destruct (Z.eqb_spec (remaining_time c - 1) 0); simpl; repeat split; try lia.
  intros _. now apply Hst.
Qed.

Lemma srtf_tick_spec (t : Z) (cur3 cur4 : option Process) (g g4 : list Interval) :
  Fn.srtf_tick t cur3 g = (cur4, g4) ->
  tiles 0 g t -> distinct_adjacent (map iv_label g) -> on_cpu t cur3 ->
  tiles 0 g4 (t + 1) /\ distinct_adjacent (map iv_label g4)
  /\ (forall c, cur4 = Some c -> running (t + 1) c)
  /\ map pid (option_list cur4) = map pid (option_list cur3)
  /\ (cur3 = None <-> cur4 = None)
  /\ total_remaining (option_list cur4)
     = total_remaining (option_list cur3)
       - match cur3 with Some _ => 1 | None => 0 end.
Proof.
  unfold Fn.srtf_tick. intros E Hg Hd Hcur.
  destruct cur3 as [c|]; injection E as <- <-.
  - destruct (Hcur c eq_refl) as [Hrun H1].
    destruct (execute_unit t c Hrun H1) as (Hrun' & Hrem & Hpid).
    split_and!; try (split; discriminate).
    + now apply extend_gantt_tiles.
    + now apply extend_gantt_labels.
    + intros c' [= <-]. exact Hrun'.
    + simpl. now rewrite Hpid.
    + unfold total_remaining. simpl. rewrite !sum_Z_cons, sum_Z_nil. lia.
  - split_and!; try discriminate; auto.
    + now apply extend_gantt_tiles.
    + now apply extend_gantt_labels.
Qed.

Lemma total_remaining_waiting (t : Z) (l : list Process) :
  Forall (waiting t) l -> Z.of_nat (length l) <= total_remaining l.
Proof.
  induction 1 as [|p l (_ & Hr & _) _ IH]; [reflexivity|].
  rewrite total_remaining_cons. simpl length. lia.
Qed.

Lemma total_remaining_pool (l : list Process) :
  Forall valid_proc l -> Z.of_nat (length l) <= total_remaining l.
Proof.
  induction 1 as [|p l (Hf & _ & Hb) _ IH]; [reflexivity|].
  rewrite total_remaining_cons, Hf. simpl. lia.
Qed.

Lemma srtf_body_inv (procs : list Process) (M maxarr t : Z) (s s' : Fn.State)
    (stop : bool) :
  srtf_inv procs M maxarr t s ->
  Fn.srtf_body t s = (s', stop) ->
  if stop
  then post procs s' (t + 1) /\ distinct_adjacent (map iv_label (gantt_chart s'))
  else srtf_inv procs M maxarr (t + 1) s'.
Proof.
  intros [Ht Hg Hlab Hrem Harr Hready Hcur Hdone Hpids Hwork Hpot].
  destruct s as [t0 g done rem ready cur]. simpl in *.
  unfold Fn.srtf_body. simpl. rewrite Fn_pull_arrived_eq.
  pose proof (prefix_suffix arrival_time t rem) as Hsplit.
  pose proof (pulled_waiting t rem Hrem) as Hpw.
  pose proof (pending_valid t rem Hrem) as Hpv.
  pose proof (pulled_pids t rem ready) as Hpp.
  pose proof (total_remaining_split t rem) as Htr.
  pose proof (pending_suffix_head arrival_time t rem) as Hhead.
  remember (pending_suffix arrival_time t rem) as rem1 eqn:Erem1.
  remember (arrived_prefix arrival_time t rem) as pre eqn:Epre.
  remember (ready ++ map (set_state READY) pre) as ready1 eqn:Eready1.
  clear Erem1 Epre.
  assert (Hready1 : Forall (waiting t) ready1)
    by (rewrite Eready1; apply Forall_app; split; assumption).
  assert (Htr1 : total_remaining rem1 + total_remaining ready1
                 = total_remaining rem + total_remaining ready).
  { rewrite Eready1, total_remaining_app, total_remaining_ready. lia. }
  assert (Harr1 : Forall (fun p => arrival_time p <= maxarr) rem1).
  { rewrite <- Hsplit in Harr. now apply Forall_app in Harr. }
  destruct (Fn.srtf_settle t cur ready1 done) as [[cur2 ready2] done2] eqn:E2.
  destruct (srtf_settle_spec _ _ _ _ _ _ _ E2 Hcur Hready1 Hdone)
    as (Hcur2 & Hready2 & Hdone2 & Hp2 & Htr2 & Hne2 & Hkeep2).
  destruct (Fn.srtf_select t cur2 ready2) as [cur3 ready3] eqn:E3.
  destruct (srtf_select_spec _ _ _ _ _ E3 Hcur2 Hready2)
    as (Hcur3 & Hready3 & Hp3 & Htr3 & Hnone3).
  destruct (Fn.srtf_tick t cur3 g) as [cur4 g4] eqn:E4.
  destruct (srtf_tick_spec _ _ _ _ _ E4 Hg Hlab Hcur3)
    as (Hg4 & Hlab4 & Hcur4 & Hp4 & Hiff4 & Htr4).
  (* the pids never change *)
  assert (Hperm : Permutation
            (map pid rem1 ++ map pid ready3 ++ map pid (option_list cur4) ++ map pid done2)
            (map pid procs)).
  { rewrite <- Hpids, Hp4.
    rewrite (app_assoc (map pid ready3)), Hp3, <- app_assoc, Hp2.
    rewrite !app_assoc. do 2 apply Permutation_app_tail. exact Hpp. }
  (* a unit of work is done, or the CPU waits for a later arrival *)
  assert (Hbusy : cur3 = None -> rem1 <> []).
  { intros E. destruct (Hnone3 E) as (_ & -> & ->). intros Er.
    assert (Hr1 : ready1 = []) by (destruct ready1; [reflexivity | now contradiction Hne2]).
    rewrite Hr1 in Eready1. symmetry in Eready1.
    apply app_eq_nil in Eready1 as [Hrd Hpre]. apply map_eq_nil in Hpre.
    rewrite Hpre, Er in Hsplit. simpl in Hsplit.
    destruct Hwork as [H|[H|H]].
    - now apply H.
    - now apply H.
    - destruct (Hkeep2 H) as [H'|H']; now apply H'. }
  assert (Hpot' : total_remaining rem1 + total_remaining ready3
                  + total_remaining (option_list cur4)
                  + Z.max (maxarr - (t + 1)) 0 + (t + 1) <= M).
  { destruct cur3 as [c3|].
    - lia.
    - specialize (Hbusy eq_refl). destruct rem1 as [|a rem1']; [now contradiction Hbusy|].
      assert (t < arrival_time a) by (now apply (Hhead rem1')).
      inversion Harr1 as [|? ? Ha1 _]. simpl in Ha1. lia. }
  assert (Hinv : forall w,
            (rem1 <> [] \/ ready3 <> []
             \/ exists c, cur4 = Some c /\ 1 <= remaining_time c) ->
            w = mkState t g4 done2 rem1 ready3 cur4 ->
            srtf_inv procs M maxarr (t + 1) w).
  { intros w Hw ->. constructor; simpl; auto.
    - lia.
    - apply (Forall_waiting_mono t); [lia | assumption].
    - apply (Forall_finished_mono t); [lia | assumption]. }
  unfold Fn.srtf_finish.
  destruct rem1 as [|a rem1'].
  2:{ intros [= <- <-]. apply Hinv; [left; discriminate | reflexivity]. }
  destruct ready3 as [|b ready3'].
  2:{ intros [= <- <-]. apply Hinv; [right; left; discriminate | reflexivity]. }
  destruct cur4 as [c|].
  2:{ exfalso. apply Hbusy; [now apply Hiff4 | reflexivity]. }
  specialize (Hcur4 c eq_refl). pose proof Hcur4 as (Ha & Hr & Hb & Hx & Hresp & Hst).
  unfold is_complete. destruct (Z.eqb_spec (remaining_time c) 0) as [Hz|Hnz].
  - intros [= <- <-]. simpl. split; [|exact Hlab4]. constructor; simpl.
    + exact Hg4.
    + apply Forall_app. split.
      * apply (Forall_finished_mono t); [lia | assumption].
      * constructor; [|constructor]. unfold finished. simpl. lia.
    + apply Exists_app. right. constructor. reflexivity.
    + simpl in Hperm. rewrite <- Hperm, map_app. simpl. apply Permutation_app_comm.
  - intros [= <- <-]. apply Hinv; [|reflexivity].
    right. right. exists c. split; [reflexivity | lia].
Qed.

(** While work is left, the clock is below the bound of the loop. *)
Lemma srtf_inv_time (procs : list Process) (M maxarr t : Z) (s : Fn.State) :
  srtf_inv procs M maxarr t s -> t + 1 <= M.
Proof.
  intros [_ _ _ Hrem _ Hready Hcur _ _ Hwork Hpot].
  pose proof (total_remaining_pool _ Hrem) as N1.
  pose proof (total_remaining_waiting _ _ Hready) as N2.
  assert (N3 : 0 <= total_remaining (option_list (current_process s))).
  { destruct (current_process s) as [c|]; simpl; [|reflexivity].
    rewrite total_remaining_cons. change (total_remaining []) with 0.
    destruct (Hcur c eq_refl) as (_ & ? & _). lia. }
  destruct Hwork as [H|[H|(c & Hc & H1)]].
  - destruct (remaining_processes s); [now contradiction H | simpl length in N1; lia].
  - destruct (ready_queue s); [now contradiction H | simpl length in N2; lia].
  - rewrite Hc in Hpot. simpl in Hpot. rewrite total_remaining_cons in Hpot.
    change (total_remaining []) with 0 in Hpot. lia.
Qed.

Lemma srtf_loop_post (procs : list Process) (M maxarr : Z) (n a : nat) (s : Fn.State) :
  Z.of_nat a + Z.of_nat n = M + 1 ->
  srtf_inv procs M maxarr (Z.of_nat a) s ->
  exists T, post procs (for_loop Fn.srtf_body (map Z.of_nat (seq a n)) s) T
            /\ distinct_adjacent
                 (map iv_label (gantt_chart (for_loop Fn.srtf_body (map Z.of_nat (seq a n)) s)))
            /\ T <= M.
Proof.
  revert a s. induction n as [|n IH]; intros a s Hlen Hinv.
  - (* the range cannot run out while work is left *)
    exfalso. apply srtf_inv_time in Hinv. lia.
  - simpl. destruct (Fn.srtf_body (Z.of_nat a) s) as [s' stop] eqn:E.
    pose proof (srtf_body_inv _ _ _ _ _ _ _ Hinv E) as Hstep.
    destruct stop.
    + exists (Z.of_nat a + 1). apply srtf_inv_time in Hinv. tauto.
    + apply IH; [lia|]. replace (Z.of_nat (S a)) with (Z.of_nat a + 1) by lia. exact Hstep.
Qed.

Lemma sum_burst_nonneg (l : list Process) :
  Forall valid_proc l -> 0 <= sum_Z (map burst_time l).
Proof.
  induction 1 as [|p l (_ & _ & Hb) _ IH]; [reflexivity|].
  simpl. rewrite sum_Z_cons. lia.
Qed.

Lemma srtf_run_post (procs : list Process) :
  valid_input SRTF procs ->
  exists s T M, Fn.srtf_max_time procs = Done M /\ Fn.srtf_run procs = Done s
                /\ post procs s T
                /\ distinct_adjacent (map iv_label (gantt_chart s))
                /\ T <= M.
Proof.
  intros Hv. pose proof Hv as (Hne & Hnd & Hval & _).
  unfold Fn.srtf_run, Fn.srtf_max_time.
  destruct procs as [|p ps] eqn:Ep; [now contradiction Hne|]. rewrite <- Ep in *.
  simpl bind.
  set (maxarr := max_Z (arrival_time p) (map arrival_time ps)).
  set (M := sum_Z (map burst_time procs) + maxarr).
  assert (Hmax : Forall (fun q => arrival_time q <= maxarr) procs).
  { rewrite Ep. constructor.
    - apply max_Z_ge_init.
    - rewrite List.Forall_forall. intros q Hq. apply max_Z_ge. now apply in_map. }
  assert (Hmax0 : 0 <= maxarr).
  { pose proof (max_Z_ge_init (map arrival_time ps) (arrival_time p)).
    rewrite Ep in Hval. inversion Hval as [|? ? (_ & ? & _) _]. unfold maxarr. lia. }
  pose proof (sum_burst_nonneg _ Hval) as Hsb.
  pose proof (sort_by_perm arrival_key lt_pair procs) as Hsort.
  destruct (srtf_loop_post procs M maxarr (Z.to_nat (M + 1)) 0
              (Fn.init (sort_by arrival_key lt_pair procs))) as (T & Hpost & Hlab & HT).
  - unfold M. lia.
  - constructor; simpl.
    + lia.
    + reflexivity.
    + exact I.
    + eapply valid_sorted; eauto.
    + rewrite List.Forall_forall in *. intros q Hq. apply Hmax.
      exact (Permutation_in q Hsort Hq).
    + constructor.
    + discriminate.
    + constructor.
    + rewrite app_nil_r. now apply Permutation_map.
    + left. intros E. apply sort_by_nil_inv in E. contradiction.
    + change (total_remaining []) with 0.
      rewrite (total_remaining_perm _ _ Hsort), (total_remaining_valid _ Hval).
      unfold M. lia.
  - unfold py_range. exists (for_loop Fn.srtf_body
                      (map Z.of_nat (seq 0 (Z.to_nat (M + 1))))
                      (Fn.init (sort_by arrival_key lt_pair procs))), T, M.
    split_and!; auto.
Qed.

(** Every policy returns on a valid input, with a chart that tiles
    [0, T), all processes completed by [T], one of them at [T]. *)
Lemma Fn_run_post (policy : Policy) (procs : list Process) (fuel : nat) :
  valid_input policy procs -> (fuel_bound policy procs <= fuel)%nat ->
  exists s T, Fn.run fuel policy procs = Done s /\ post procs s T
              /\ match policy with
                 | RoundRobin _ => True
                 | _ => distinct_adjacent (map iv_label (gantt_chart s))
                 end.
Proof.
  intros Hv Hfuel. destruct policy as [| | |q|]; simpl in *.
  - destruct (fcfs_run_post procs Hv) as [Hp Hl]. eauto.
  - destruct (np_run_post SJF sjf_key procs fuel Hv Hfuel) as (s & E & Hp & Hl). eauto.
  - destruct (srtf_run_post procs Hv) as (s & T & M & _ & E & Hp & Hl & _). eauto.
  - destruct (rr_run_post q procs fuel Hv Hfuel) as (s & E & Hp). eauto.
  - destruct (np_run_post Priority priority_key procs fuel Hv Hfuel) as (s & E & Hp & Hl).
    eauto.
Qed.

(** * The schedulers on the store and the functional model agree *)

(** ** Reading and writing through references *)

Lemma length_mutate (f : Process -> Process) (l : loc) (h : Store) :
  length (mutate f l h) = length h.
Proof. apply length_alter. Qed.

Lemma deref_mutate_eq (f : Process -> Process) (l : loc) (h : Store) :
  (l < length h)%nat -> deref (mutate f l h) l = f (deref h l).
Proof. apply list_lookup_total_alter_eq. Qed.

Lemma deref_mutate_ne (f : Process -> Process) (l l' : loc) (h : Store) :
  l <> l' -> deref (mutate f l h) l' = deref h l'.
Proof. apply list_lookup_total_alter_ne. Qed.

Lemma vals_mutate_notin (f : Process -> Process) (l : loc) (ls : list loc) (h : Store) :
  l ∉ ls -> vals (mutate f l h) ls = vals h ls.
Proof.
  intros Hn. unfold vals. apply map_ext_in. intros l' Hl'.
  apply deref_mutate_ne. intros ->. apply Hn. now apply list_elem_of_In.
Qed.

Lemma vals_app (h : Store) (l k : list loc) : vals h (l ++ k) = vals h l ++ vals h k.
Proof. apply map_app. Qed.

Lemma vals_snoc_mutate (f : Process -> Process) (l : loc) (ls : list loc) (h : Store) :
  l ∉ ls -> (l < length h)%nat ->
  vals (mutate f l h) (ls ++ [l]) = vals h ls ++ [f (deref h l)].
Proof.
  intros Hn Hl. rewrite vals_app, vals_mutate_notin by assumption.
  simpl. now rewrite deref_mutate_eq.
Qed.

Lemma take_mutate (base : nat) (f : Process -> Process) (l : loc) (h : Store) :
  (base <= l)%nat -> take base (mutate f l h) = take base h.
Proof. apply take_alter_ge. Qed.

(** Arrival times are never assigned. *)
Lemma arrival_mutate_ready (p l : loc) (h : Store) :
  arrival_time (deref (mutate (set_state READY) p h) l) = arrival_time (deref h l).
Proof.
  unfold deref, mutate. rewrite list_lookup_total_alter.
  case_decide as H; [destruct H as [-> _]|]; reflexivity.
Qed.

(** ** What the functional model sees of a store state *)

Lemma framed_refl (base : nat) (h : Store) : framed base h h.
Proof. split; reflexivity. Qed.

Lemma framed_trans (base : nat) (h1 h2 h3 : Store) :
  framed base h1 h2 -> framed base h2 h3 -> framed base h1 h3.
Proof. intros [? ?] [? ?]. split; congruence. Qed.

Lemma framed_mutate (base : nat) (f : Process -> Process) (l : loc) (h : Store) :
  (base <= l)%nat -> framed base h (mutate f l h).
Proof. intros. split; [apply length_mutate | now apply take_mutate]. Qed.

(** Pulling arrivals, on the store and in the model. *)
Lemma pull_arrived_refines (t : Z) (base : nat) (remaining ready : list loc) (h : Store) :
  NoDup (remaining ++ ready) ->
  Forall (fun l => (base <= l < length h)%nat) remaining ->
  exists h1 rem1 ready1,
    pull_arrived t remaining ready h = (h1, (rem1, ready1))
    /\ Fn.pull_arrived t (vals h remaining) (vals h ready) = (vals h1 rem1, vals h1 ready1)
    /\ Permutation (rem1 ++ ready1) (remaining ++ ready)
    /\ framed base h h1
    /\ (forall l, l ∉ remaining -> deref h1 l = deref h l).
Proof.
  revert ready h. induction remaining as [|p rem IH]; intros ready h Hnd Hin; simpl.
  - exists h, [], ready. split_and!; auto. apply framed_refl.
  - inversion Hin as [|? ? Hp Hin']; subst.
    destruct (arrival_time (deref h p) <=? t) eqn:E.
    + destruct (IH (ready ++ [p]) (mutate (set_state READY) p h))
        as (h1 & rem1 & ready1 & E1 & E2 & Hperm & Hfr & Hout).
      * rewrite app_assoc. apply NoDup_app in Hnd as (H1 & H2 & H3).
        apply NoDup_cons in H1 as [H1 H1']. apply NoDup_app. split_and!.
        -- apply NoDup_app. split_and!; [assumption| |assumption].
           intros x Hx. apply H2. now right.
        -- intros x Hx. apply elem_of_app in Hx as [Hx|Hx].
           ++ intros Hy. apply list_elem_of_singleton in Hy as ->. contradiction.
           ++ intros Hy. apply list_elem_of_singleton in Hy as ->.
              apply (H2 p); [now left | assumption].
        -- apply NoDup_singleton.
      * rewrite length_mutate. assumption.
      * exists h1, rem1, ready1.
        assert (Hp1 : p ∉ rem).
        { apply NoDup_app in Hnd as (H1 & _). now apply NoDup_cons in H1 as [H1 _]. }
        assert (Hp2 : p ∉ ready).
        { apply NoDup_app in Hnd as (_ & H2 & _). apply H2. now left. }
        split_and!.
        -- exact E1.
        -- rewrite <- E2, vals_mutate_notin by assumption.
           rewrite vals_snoc_mutate by (assumption || lia). reflexivity.
        -- rewrite Hperm, app_assoc. simpl.
           symmetry. apply Permutation_cons_append.
        -- eapply framed_trans; [|exact Hfr]. apply framed_mutate. lia.
        -- intros l Hl. rewrite Hout.
           ++ apply deref_mutate_ne. intros ->. apply Hl. now left.
           ++ intros Hx. apply Hl. now right.
    + exists h, (p :: rem), ready. split_and!; auto. apply framed_refl.
Qed.

(** ** One iteration on the store is one iteration of the model *)

Ltac nodup_solver :=
  repeat (rewrite ?NoDup_app, ?NoDup_cons, ?NoDup_nil in * );
  set_unfold; naive_solver.

Ltac forall_solver :=
  repeat (rewrite ?Forall_app, ?Forall_cons in * );
  intuition (try constructor; auto).

Lemma vals_outside (h h1 : Store) (xs ys : list loc) :
  (forall l, l ∉ xs -> deref h1 l = deref h l) ->
  (forall x, x ∈ ys -> x ∉ xs) ->
  vals h1 ys = vals h ys.
Proof.
  intros Hout Hdis. unfold vals. apply map_ext_in. intros l Hl.
  apply Hout, Hdis. now apply list_elem_of_In.
Qed.

Lemma owned_step (base : nat) (h h' : Store) (s s' : SchedState loc) :
  owned base (h, s) -> length h' = length h -> Permutation (refs s') (refs s) ->
  owned base (h', s').
Proof.
  unfold owned. simpl. intros [Hnd Hin] Hlen Hperm. split.
  - now rewrite Hperm.
  - rewrite Hperm, Hlen. exact Hin.
Qed.

(** The state after the arrivals of the current time were pulled. *)
Lemma pull_stage (base : nat) (t : Z) (h : Store) (g : list Interval)
    (done rem ready : list loc) (cur : option loc) (ct : Z) :
  owned base (h, mkState ct g done rem ready cur) ->
  exists h1 rem1 ready1,
    pull_arrived t rem ready h = (h1, (rem1, ready1))
    /\ Fn.pull_arrived t (vals h rem) (vals h ready) = (vals h1 rem1, vals h1 ready1)
    /\ vals h1 done = vals h done
    /\ option_map (deref h1) cur = option_map (deref h) cur
    /\ owned base (h1, mkState ct g done rem1 ready1 cur)
    /\ framed base h h1.
Proof.
  intros [Hnd Hin]. unfold refs in *. simpl in *.
  destruct (pull_arrived_refines t base rem ready h)
    as (h1 & rem1 & ready1 & E1 & E2 & Hperm & Hfr & Hout).
  { rewrite app_assoc in Hnd. now apply NoDup_app in Hnd. }
  { now apply Forall_app in Hin. }
  exists h1, rem1, ready1. split_and!; auto.
  - apply (vals_outside _ _ rem); [exact Hout|]. clear - Hnd. nodup_solver.
  - destruct cur as [c|]; simpl; [|reflexivity]. f_equal. apply Hout.
    clear - Hnd. simpl in Hnd. nodup_solver.
  - apply (owned_step base h h1 (mkState ct g done rem ready cur));
      [split; assumption | apply Hfr |].
    unfold refs. simpl. rewrite !app_assoc. now do 2 apply Permutation_app_tail.
Qed.

Lemma np_body_refines (base : nat) (key : Process -> Z * Z * Z) (hs : HState) :
  owned base hs ->
  view (np_body key hs) = Fn.np_body key (view hs)
  /\ owned base (np_body key hs)
  /\ framed base (fst hs) (fst (np_body key hs)).
Proof.
  destruct hs as [h [t g done rem ready cur]]. intros Hown.
  destruct (pull_stage base t h g done rem ready cur t Hown)
    as (h1 & rem1 & ready1 & E1 & E2 & Hdone & Hcur & Hown1 & Hfr).
  unfold np_body, Fn.np_body. simpl. rewrite E1, E2.
  destruct ready1 as [|r rs].
  - destruct rem1 as [|next rem1']; simpl; rewrite Hdone, Hcur; auto.
  - pose proof (sort_by_map (deref h1) key lt_triple (r :: rs)) as Hs.
    pose proof (sort_by_perm (fun l => key (deref h1 l)) lt_triple (r :: rs)) as Hp.
    destruct (sort_by (fun l => key (deref h1 l)) lt_triple (r :: rs))
      as [|process ready2] eqn:Es.
    { apply Permutation_nil in Hp. discriminate. }
    change (vals h1 (r :: rs)) with (map (deref h1) (r :: rs)).
    simpl map at 1. cbv iota. rewrite <- Hs. simpl map.
    destruct Hown1 as [Hnd Hin]. unfold refs in Hnd, Hin.
    cbn [fst snd remaining_processes ready_queue current_process completed_processes]
      in Hnd, Hin.
    rewrite <- Hp in Hnd, Hin.
    assert (Hlt : (base <= process < length h1)%nat).
    { rewrite List.Forall_forall in Hin. apply Hin. apply in_or_app. right. now left. }
    assert (N1 : process ∉ rem1) by (clear - Hnd; nodup_solver).
    assert (N2 : process ∉ ready2) by (clear - Hnd; nodup_solver).
    assert (N3 : process ∉ done) by (clear - Hnd; destruct cur; simpl in Hnd; nodup_solver).
    assert (N4 : forall c, cur = Some c -> process <> c).
    { intros c ->. clear - Hnd. simpl in Hnd. nodup_solver. }
    set (h2 := mutate (begin_run t) process h1).
    assert (D2 : deref h2 process = begin_run t (deref h1 process)).
    { apply deref_mutate_eq. lia. }
    rewrite D2.
    set (t' := t + burst_time (begin_run t (deref h1 process))).
    set (h3 := mutate (complete_run t') process h2).
    assert (L2 : length h2 = length h1) by apply length_mutate.
    assert (L3 : length h3 = length h1) by (unfold h3; now rewrite length_mutate).
    split_and!.
    + simpl. f_equal.
      * unfold h3. rewrite vals_snoc_mutate by (assumption || lia).
        unfold h2. rewrite vals_mutate_notin by assumption. fold h2. rewrite D2.
        now rewrite Hdone.
      * unfold h3, h2. now rewrite !vals_mutate_notin by assumption.
      * unfold h3, h2. now rewrite !vals_mutate_notin by assumption.
      * rewrite <- Hcur. destruct cur as [c|]; simpl; [|reflexivity]. f_equal.
        unfold h3, h2. rewrite !deref_mutate_ne; auto.
    + split; unfold refs; simpl.
      * clear - Hnd. destruct cur; simpl in *; nodup_solver.
      * rewrite L3. clear - Hin. forall_solver.
    + simpl. eapply framed_trans; [exact Hfr|].
      eapply framed_trans; apply framed_mutate; lia.
Qed.

Lemma rr_body_refines (base : nat) (q : Z) (hs : HState) :
  owned base hs ->
  view (rr_body q hs) = Fn.rr_body q (view hs)
  /\ owned base (rr_body q hs)
  /\ framed base (fst hs) (fst (rr_body q hs)).
Proof.
  destruct hs as [h [t g done rem ready cur]]. intros Hown.
  destruct (pull_stage base t h g done rem ready cur t Hown)
    as (h1 & rem1 & ready1 & E1 & E2 & Hdone & Hcur & Hown1 & Hfr).
  unfold rr_body, Fn.rr_body. simpl. rewrite E1, E2.
  destruct ready1 as [|process ready2].
  - destruct rem1 as [|next rem1']; simpl; rewrite Hdone, Hcur; auto.
  - change (vals h1 (process :: ready2)) with (deref h1 process :: vals h1 ready2).
    cbv iota.
    destruct Hown1 as [Hnd Hin]. unfold refs in Hnd, Hin.
    cbn [fst snd remaining_processes ready_queue current_process completed_processes]
      in Hnd, Hin.
    assert (Hlt : (base <= process < length h1)%nat).
    { rewrite List.Forall_forall in Hin. apply Hin. apply in_or_app. right. now left. }
    assert (N1 : process ∉ rem1) by (clear - Hnd; nodup_solver).
    assert (N2 : process ∉ ready2) by (clear - Hnd; nodup_solver).
    assert (N3 : process ∉ done) by (clear - Hnd; destruct cur; simpl in Hnd; nodup_solver).
    assert (N4 : forall c, cur = Some c -> process <> c).
    { intros c ->. clear - Hnd. simpl in Hnd. nodup_solver. }
    set (h2 := mutate (dispatch t) process h1).
    assert (L2 : length h2 = length h1) by apply length_mutate.
    assert (D2 : deref h2 process = dispatch t (deref h1 process)).
    { apply deref_mutate_eq. lia. }
    rewrite D2.
    set (p1 := dispatch t (deref h1 process)) in *.
    set (e := Z.min q (remaining_time p1)).
    set (h3 := mutate (fun p => fst (execute e p)) process h2).
    assert (L3 : length h3 = length h1) by (unfold h3; now rewrite length_mutate).
    assert (D3 : deref h3 process = fst (execute e p1)).
    { unfold h3. rewrite deref_mutate_eq by lia. now rewrite D2. }
    assert (V3 : forall xs, process ∉ xs -> vals h3 xs = vals h1 xs).
    { intros xs Hx. unfold h3, h2. now rewrite !vals_mutate_notin. }
    destruct (pull_arrived_refines (t + e) base rem1 ready2 h3)
      as (h4 & rem2 & ready3 & E3 & E4 & Hperm & Hfr4 & Hout).
    { clear - Hnd. nodup_solver. }
    { rewrite L3. clear - Hin. forall_solver. }
    rewrite E3. rewrite <- (V3 rem1 N1), <- (V3 ready2 N2), E4.
    assert (L4 : length h4 = length h1) by (destruct Hfr4; congruence).
    assert (D4 : deref h4 process = fst (execute e p1)).
    { rewrite Hout by assumption. exact D3. }
    rewrite D4.
    assert (Hnd' : NoDup (rem2 ++ ready3 ++ [process] ++ option_list cur ++ done)).
    { rewrite app_assoc, Hperm. clear - Hnd.
      destruct cur; simpl in *; nodup_solver. }
    assert (Hin' : Forall (fun l => (base <= l < length h1)%nat)
                     (rem2 ++ ready3 ++ [process] ++ option_list cur ++ done)).
    { rewrite app_assoc, Hperm. clear - Hin. forall_solver. }
    assert (M1 : process ∉ rem2) by (clear - Hnd'; nodup_solver).
    assert (M2 : process ∉ ready3) by (clear - Hnd'; nodup_solver).
    assert (V4 : vals h4 done = vals h done).
    { rewrite <- Hdone, <- (V3 done N3). apply (vals_outside _ _ rem1); [exact Hout|].
      clear - Hnd. destruct cur; simpl in Hnd; nodup_solver. }
    assert (C4 : option_map (deref h4) cur = option_map (deref h) cur).
    { rewrite <- Hcur. destruct cur as [c|]; simpl; [|reflexivity]. f_equal.
      rewrite Hout by (clear - Hnd; simpl in Hnd; nodup_solver).
      unfold h3, h2. rewrite !deref_mutate_ne; auto. }
    assert (Hfr0 : framed base h h4).
    { eapply framed_trans; [exact Hfr|]. eapply framed_trans; [|exact Hfr4].
      eapply framed_trans; apply framed_mutate; lia. }
    destruct (is_complete (fst (execute e p1))).
    + split_and!.
      * simpl. f_equal.
        -- rewrite vals_snoc_mutate by (assumption || lia). now rewrite V4, D4.
        -- now rewrite vals_mutate_notin.
        -- now rewrite vals_mutate_notin.
        -- rewrite <- C4. destruct cur as [c|]; simpl; [|reflexivity]. f_equal.
           apply deref_mutate_ne; auto.
      * split; unfold refs; simpl.
        -- clear - Hnd'. destruct cur; simpl in *; nodup_solver.
        -- rewrite length_mutate, L4. clear - Hin'. forall_solver.
      * simpl. eapply framed_trans; [exact Hfr0|]. apply framed_mutate. lia.
    + split_and!.
      * simpl. f_equal.
        -- rewrite vals_mutate_notin by assumption. exact V4.
        -- now rewrite vals_mutate_notin.
        -- rewrite vals_snoc_mutate by (assumption || lia). now rewrite D4.
        -- rewrite <- C4. destruct cur as [c|]; simpl; [|reflexivity]. f_equal.
           apply deref_mutate_ne; auto.
      * split; unfold refs; simpl.
        -- clear - Hnd'. destruct cur; simpl in *; nodup_solver.
        -- rewrite length_mutate, L4. clear - Hin'. forall_solver.
      * simpl. eapply framed_trans; [exact Hfr0|]. apply framed_mutate. lia.
Qed.

(** ** The blocks of an SRTF iteration *)

Lemma srtf_settle_refines (base : nat) (t ct : Z) (h : Store) (g : list Interval)
    (done rem ready : list loc) (cur : option loc) :
  owned base (h, mkState ct g done rem ready cur) ->
  exists h2 cur2 ready2 done2,
    srtf_settle t cur ready done h = (h2, (cur2, ready2, done2))
    /\ Fn.srtf_settle t (option_map (deref h) cur) (vals h ready) (vals h done)
       = (option_map (deref h2) cur2, vals h2 ready2, vals h2 done2)
    /\ vals h2 rem = vals h rem
    /\ owned base (h2, mkState ct g done2 rem ready2 cur2)
    /\ framed base h h2.
Proof.
  intros Hown. pose proof Hown as [Hnd Hin]. unfold refs in Hnd, Hin.
  cbn [fst snd remaining_processes ready_queue current_process completed_processes]
    in Hnd, Hin.
  unfold srtf_settle, Fn.srtf_settle.
  destruct cur as [c|]; simpl option_map; cbv iota.
  2:{ exists h, None, ready, done. split_and!; auto. apply framed_refl. }
  simpl in Hnd, Hin.
  assert (Hlt : (base <= c < length h)%nat) by (clear - Hin; forall_solver).
  assert (N1 : c ∉ rem) by (clear - Hnd; nodup_solver).
  assert (N2 : c ∉ ready) by (clear - Hnd; nodup_solver).
  assert (N3 : c ∉ done) by (clear - Hnd; nodup_solver).
  destruct (is_complete (deref h c)).
  - exists (mutate (finalize t) c h), None, ready, (done ++ [c]). split_and!.
    + reflexivity.
    + simpl. rewrite vals_snoc_mutate by (assumption || lia).
      now rewrite vals_mutate_notin.
    + now apply vals_mutate_notin.
    + split; unfold refs; simpl.
      * clear - Hnd. nodup_solver.
      * rewrite length_mutate. clear - Hin. forall_solver.
    + apply framed_mutate. lia.
  - assert (Hkeep : exists h2 cur2 ready2 done2,
               (h, (Some c, ready, done)) = (h2, (cur2, ready2, done2))
               /\ (Some (deref h c), vals h ready, vals h done)
                  = (option_map (deref h2) cur2, vals h2 ready2, vals h2 done2)
               /\ vals h2 rem = vals h rem
               /\ owned base (h2, mkState ct g done2 rem ready2 cur2)
               /\ framed base h h2).
    { exists h, (Some c), ready, done. split_and!; auto. apply framed_refl. }
    destruct ready as [|r rs]; [exact Hkeep|].
    change (vals h (r :: rs)) with (deref h r :: map (deref h) rs) at 1.
    cbv iota. rewrite <- (min_by_map (deref h) srtf_key lt_triple r rs).
    destruct (_ <? _); [|exact Hkeep].
    exists (mutate (set_state READY) c h), None, ((r :: rs) ++ [c]), done. split_and!.
    + reflexivity.
    + simpl option_map. rewrite vals_snoc_mutate by (assumption || lia).
      now rewrite vals_mutate_notin.
    + now apply vals_mutate_notin.
    + split; unfold refs; simpl.
      * clear - Hnd. nodup_solver.
      * rewrite length_mutate. clear - Hin. forall_solver.
    + apply framed_mutate. lia.
Qed.

Lemma srtf_select_refines (base : nat) (t ct : Z) (h : Store) (g : list Interval)
    (done rem ready : list loc) (cur : option loc) :
  owned base (h, mkState ct g done rem ready cur) ->
  exists h3 cur3 ready3,
    srtf_select t cur ready h = (h3, (cur3, ready3))
    /\ Fn.srtf_select t (option_map (deref h) cur) (vals h ready)
       = (option_map (deref h3) cur3, vals h3 ready3)
    /\ vals h3 rem = vals h rem /\ vals h3 done = vals h done
    /\ owned base (h3, mkState ct g done rem ready3 cur3)
    /\ framed base h h3.
Proof.
  intros Hown. pose proof Hown as [Hnd Hin]. unfold refs in Hnd, Hin.
  cbn [fst snd remaining_processes ready_queue current_process completed_processes]
    in Hnd, Hin.
  unfold srtf_select, Fn.srtf_select.
  assert (Hkeep : exists h3 cur3 ready3,
             (h, (cur, ready)) = (h3, (cur3, ready3))
             /\ (option_map (deref h) cur, vals h ready)
                = (option_map (deref h3) cur3, vals h3 ready3)
             /\ vals h3 rem = vals h rem /\ vals h3 done = vals h done
             /\ owned base (h3, mkState ct g done rem ready3 cur3)
             /\ framed base h h3).
  { exists h, cur, ready. split_and!; auto. apply framed_refl. }
  destruct cur as [c|]; simpl option_map; cbv iota.
  { destruct ready; exact Hkeep. }
  destruct ready as [|r rs]; [exact Hkeep|].
  pose proof (sort_by_map (deref h) srtf_key lt_triple (r :: rs)) as Hs.
  pose proof (sort_by_perm (fun l => srtf_key (deref h l)) lt_triple (r :: rs)) as Hp.
  change (vals h (r :: rs)) with (map (deref h) (r :: rs)).
  simpl map at 1. cbv iota. rewrite <- Hs.
  destruct (sort_by (fun l => srtf_key (deref h l)) lt_triple (r :: rs))
    as [|p rest] eqn:Es.
  { apply Permutation_nil in Hp. discriminate. }
  rewrite <- Hp in Hnd, Hin. simpl in Hnd, Hin.
  assert (Hlt : (base <= p < length h)%nat) by (clear - Hin; forall_solver).
  assert (N1 : p ∉ rem) by (clear - Hnd; nodup_solver).
  assert (N2 : p ∉ rest) by (clear - Hnd; nodup_solver).
  assert (N3 : p ∉ done) by (clear - Hnd; nodup_solver).
  exists (mutate (dispatch t) p h), (Some p), rest. split_and!.
  - reflexivity.
  - simpl. rewrite deref_mutate_eq by lia. now rewrite vals_mutate_notin.
  - now apply vals_mutate_notin.
  - now apply vals_mutate_notin.
  - split; unfold refs; simpl.
    + clear - Hnd. nodup_solver.
    + rewrite length_mutate. clear - Hin. forall_solver.
  - apply framed_mutate. lia.
Qed.

Lemma srtf_tick_refines (base : nat) (t ct : Z) (h : Store) (g : list Interval)
    (done rem ready : list loc) (cur : option loc) :
  owned base (h, mkState ct g done rem ready cur) ->
  exists h4 g4,
    srtf_tick t cur g h = (h4, g4)
    /\ Fn.srtf_tick t (option_map (deref h) cur) g = (option_map (deref h4) cur, g4)
    /\ vals h4 rem = vals h rem /\ vals h4 ready = vals h ready
    /\ vals h4 done = vals h done
    /\ owned base (h4, mkState ct g4 done rem ready cur)
    /\ framed base h h4.
Proof.
  intros Hown. pose proof Hown as [Hnd Hin]. unfold refs in Hnd, Hin.
  cbn [fst snd remaining_processes ready_queue current_process completed_processes]
    in Hnd, Hin.
  unfold srtf_tick, Fn.srtf_tick.
  destruct cur as [c|]; simpl option_map; cbv iota.
  2:{ eexists _, _. split_and!; eauto. apply framed_refl. }
  simpl in Hnd, Hin.
  assert (Hlt : (base <= c < length h)%nat) by (clear - Hin; forall_solver).
  assert (N1 : c ∉ rem) by (clear - Hnd; nodup_solver).
  assert (N2 : c ∉ ready) by (clear - Hnd; nodup_solver).
  assert (N3 : c ∉ done) by (clear - Hnd; nodup_solver).
  eexists _, _. split_and!.
  - reflexivity.
  - now rewrite deref_mutate_eq by lia.
  - now apply vals_mutate_notin.
  - now apply vals_mutate_notin.
  - now apply vals_mutate_notin.
  - split; unfold refs; simpl.
    + exact Hnd.
    + rewrite length_mutate. exact Hin.
  - apply framed_mutate. lia.
Qed.

Lemma srtf_finish_refines (base : nat) (t ct : Z) (h : Store) (g : list Interval)
    (done rem ready : list loc) (cur : option loc) :
  owned base (h, mkState ct g done rem ready cur) ->
  exists hs' stop,
    srtf_finish t g done rem ready cur h = (hs', stop)
    /\ Fn.srtf_finish t g (vals h done) (vals h rem) (vals h ready)
         (option_map (deref h) cur) = (view hs', stop)
    /\ (stop = false -> owned base hs') /\ framed base h (fst hs').
Proof.
  intros Hown. pose proof Hown as [Hnd Hin]. unfold refs in Hnd, Hin.
  cbn [fst snd remaining_processes ready_queue current_process completed_processes]
    in Hnd, Hin.
  unfold srtf_finish, Fn.srtf_finish.
  assert (Hkeep : forall b : bool, exists (hs' : HState) (stop : bool),
             ((h, mkState t g done rem ready cur), b) = (hs', stop)
             /\ (mkState t g (vals h done) (vals h rem) (vals h ready)
                   (option_map (deref h) cur), b) = (view hs', stop)
             /\ (stop = false -> owned base hs') /\ framed base h (fst hs')).
  { intros b. eexists _, _. split_and!; [reflexivity | reflexivity | intros _; exact Hown
                                        | apply framed_refl]. }
  destruct rem as [|a rem']; [|apply Hkeep].
  destruct ready as [|b ready']; [|apply Hkeep].
  destruct cur as [c|]; [|apply Hkeep].
  simpl. simpl in Hnd, Hin.
  assert (Hlt : (base <= c < length h)%nat) by (clear - Hin; forall_solver).
  assert (N3 : c ∉ done) by (clear - Hnd; nodup_solver).
  destruct (is_complete (deref h c)); [|apply Hkeep].
  eexists _, _. split_and!.
  - reflexivity.
  - simpl. rewrite vals_snoc_mutate by (assumption || lia).
    now rewrite deref_mutate_eq by lia.
  - discriminate.
  - simpl. apply framed_mutate. lia.
Qed.

Lemma srtf_body_refines (base : nat) (t : Z) (hs : HState) :
  owned base hs ->
  exists hs' stop,
    srtf_body t hs = (hs', stop)
    /\ Fn.srtf_body t (view hs) = (view hs', stop)
    /\ (stop = false -> owned base hs')
    /\ framed base (fst hs) (fst hs').
Proof.
  destruct hs as [h [ct g done rem ready cur]]. intros Hown.
  destruct (pull_stage base t h g done rem ready cur ct Hown)
    as (h1 & rem1 & ready1 & E1 & F1 & Hdone1 & Hcur1 & Hown1 & Hfr1).
  destruct (srtf_settle_refines base t ct h1 g done rem1 ready1 cur Hown1)
    as (h2 & cur2 & ready2 & done2 & E2 & F2 & Hrem2 & Hown2 & Hfr2).
  destruct (srtf_select_refines base t ct h2 g done2 rem1 ready2 cur2 Hown2)
    as (h3 & cur3 & ready3 & E3 & F3 & Hrem3 & Hdone3 & Hown3 & Hfr3).
  destruct (srtf_tick_refines base t ct h3 g done2 rem1 ready3 cur3 Hown3)
    as (h4 & g4 & E4 & F4 & Hrem4 & Hready4 & Hdone4 & Hown4 & Hfr4).
  destruct (srtf_finish_refines base t ct h4 g4 done2 rem1 ready3 cur3 Hown4)
    as (hs' & stop & E5 & F5 & Hown5 & Hfr5).
  exists hs', stop. unfold srtf_body, Fn.srtf_body. simpl.
  rewrite E1, E2, E3, E4, E5, F1. rewrite <- Hcur1, <- Hdone1, F2, F3, F4.
  rewrite <- F5, Hdone4, Hdone3, Hrem4, Hrem3, Hrem2, Hready4.
  split_and!; auto.
  simpl. eapply framed_trans; [exact Hfr1|]. eapply framed_trans; [exact Hfr2|].
  eapply framed_trans; [exact Hfr3|]. eapply framed_trans; [exact Hfr4|]. exact Hfr5.
Qed.

(** ** Loops *)

Lemma for_loop_refines (base : nat) (ts : list Z) (hs : HState) :
  owned base hs ->
  view (for_loop srtf_body ts hs) = for_loop Fn.srtf_body ts (view hs)
  /\ framed base (fst hs) (fst (for_loop srtf_body ts hs)).
Proof.
  revert hs. induction ts as [|t ts IH]; intros hs Hown; simpl.
  - split; [reflexivity | apply framed_refl].
  - destruct (srtf_body_refines base t hs Hown) as (hs' & stop & E & F & Hown' & Hfr).
    rewrite E, F. destruct stop.
    + split; [reflexivity | exact Hfr].
    + destruct (IH hs' (Hown' eq_refl)) as [Hv Hfr']. split; [exact Hv|].
      eapply framed_trans; eassumption.
Qed.

Lemma while_loop_refines (base : nat) (body : HState -> HState)
    (fbody : Fn.State -> Fn.State) (h0 : Store) :
  (forall hs, owned base hs ->
     view (body hs) = fbody (view hs) /\ owned base (body hs)
     /\ framed base (fst hs) (fst (body hs))) ->
  forall fuel hs, owned base hs -> framed base h0 (fst hs) ->
  refines_outcome base h0
    (while_loop (fun hs => work_left (snd hs)) body fuel hs)
    (while_loop work_left fbody fuel (view hs)).
Proof.
  intros Hbody fuel. induction fuel as [|fuel IH]; intros hs Hown Hfr; simpl.
  - assert (Hc : work_left (view hs) = work_left (snd hs)).
    { destruct hs as [h s]. unfold work_left. simpl.
      destruct (remaining_processes s), (ready_queue s); reflexivity. }
    rewrite Hc. destruct (work_left (snd hs)); simpl; auto.
  - assert (Hc : work_left (view hs) = work_left (snd hs)).
    { destruct hs as [h s]. unfold work_left. simpl.
      destruct (remaining_processes s), (ready_queue s); reflexivity. }
    rewrite Hc. destruct (work_left (snd hs)).
    + destruct (Hbody hs Hown) as (Hv & Hown' & Hfr'). rewrite <- Hv.
      apply IH; [exact Hown' | eapply framed_trans; eassumption].
    + simpl. auto.
Qed.

(** ** FCFS *)

Lemma fcfs_step_refines (base : nat) (hs : HState) (process : loc) :
  owned base hs -> process ∉ refs (snd hs) ->
  (base <= process < length (fst hs))%nat ->
  view (fcfs_step hs process) = Fn.fcfs_step (view hs) (deref (fst hs) process)
  /\ owned base (fcfs_step hs process)
  /\ framed base (fst hs) (fst (fcfs_step hs process))
  /\ Permutation (refs (snd (fcfs_step hs process))) (process :: refs (snd hs))
  /\ (forall l, l <> process -> deref (fst (fcfs_step hs process)) l = deref (fst hs) l).
Proof.
  destruct hs as [h [t g done rem ready cur]]. intros [Hnd Hin] Hnew Hlt.
  unfold refs in *. simpl in Hnd, Hin, Hnew, Hlt.
  unfold fcfs_step, Fn.fcfs_step.
  cbn [view fst snd current_time gantt_chart completed_processes remaining_processes
       ready_queue current_process].
  set (t1g1 := if t <? arrival_time (deref h process)
               then (arrival_time (deref h process),
                     g ++ [(t, arrival_time (deref h process), IDLE)])
               else (t, g)).
  destruct t1g1 as [t1 g1].
  set (h1 := mutate (begin_run t1) process h).
  assert (D1 : deref h1 process = begin_run t1 (deref h process)).
  { apply deref_mutate_eq. lia. }
  rewrite D1.
  set (t2 := t1 + burst_time (begin_run t1 (deref h process))).
  assert (N1 : process ∉ rem) by (clear - Hnew; set_solver).
  assert (N2 : process ∉ ready) by (clear - Hnew; set_solver).
  assert (N3 : process ∉ done) by (clear - Hnew; set_solver).
  assert (N4 : forall c, cur = Some c -> process <> c).
  { intros c ->. clear - Hnew. simpl in Hnew. set_solver. }
  assert (L1 : length h1 = length h) by apply length_mutate.
  split_and!.
  - simpl. f_equal.
    + rewrite vals_snoc_mutate by (assumption || lia). rewrite D1.
      unfold h1. now rewrite vals_mutate_notin.
    + unfold h1. now rewrite !vals_mutate_notin.
    + unfold h1. now rewrite !vals_mutate_notin.
    + destruct cur as [c|]; simpl; [|reflexivity]. f_equal.
      unfold h1. rewrite !deref_mutate_ne; auto.
  - split; unfold refs; simpl.
    + clear - Hnd Hnew. destruct cur; simpl in *; nodup_solver.
    + rewrite length_mutate, L1. clear - Hin Hlt. forall_solver.
  - simpl. eapply framed_trans; apply framed_mutate; lia.
  - simpl. rewrite !app_assoc. symmetry. apply Permutation_cons_append.
  - intros l Hl. simpl. unfold h1. rewrite !deref_mutate_ne; auto.
Qed.

Lemma fcfs_fold_refines (base : nat) (todo : list loc) (hs : HState) :
  owned base hs -> NoDup todo ->
  (forall l, l ∈ todo -> (l ∉ refs (snd hs)) /\ (base <= l < length (fst hs))%nat) ->
  view (fold_left fcfs_step todo hs)
  = fold_left Fn.fcfs_step (vals (fst hs) todo) (view hs)
  /\ framed base (fst hs) (fst (fold_left fcfs_step todo hs)).
Proof.
  revert hs. induction todo as [|p todo IH]; intros hs Hown Hnd Hnew; simpl.
  - split; [reflexivity | apply framed_refl].
  - apply NoDup_cons in Hnd as [Hp Hnd].
    destruct (Hnew p) as [Hp1 Hp2]; [now left|].
    destruct (fcfs_step_refines base hs p Hown Hp1 Hp2)
      as (Hv & Hown' & Hfr & Hperm & Hout).
    destruct (IH (fcfs_step hs p) Hown' Hnd) as [Hv' Hfr'].
    { intros l Hl. destruct (Hnew l) as [Hl1 Hl2]; [now right|]. split.
      - rewrite Hperm. intros Hx. apply elem_of_cons in Hx as [->|Hx]; contradiction.
      - destruct Hfr as [Hlen _]. rewrite Hlen. exact Hl2. }
    split.
    + rewrite Hv', Hv. f_equal. unfold vals. apply map_ext_in.
      intros l Hl. apply Hout. intros ->. apply Hp. now apply list_elem_of_In.
    + eapply framed_trans; eassumption.
Qed.

(** ** Constructing the scheduler *)

(** The constructor allocates one new object per input reference, in
    order, after the objects that exist. *)
Lemma CPUScheduler_init_spec (processes : list loc) (h : Store) :
  Forall (fun l => (l < length h)%nat) processes ->
  CPUScheduler_init processes h
  = (h ++ vals h processes, seq (length h) (length processes)).
Proof.
  revert h. induction processes as [|p ps IH]; intros h Hin; simpl.
  - now rewrite app_nil_r.
  - inversion Hin as [|? ? Hp Hps]; subst.
    rewrite IH.
    + rewrite length_app. simpl. rewrite <- app_assoc. simpl.
      replace (length h + 1)%nat with (S (length h)) by lia.
      do 3 f_equal. unfold vals. apply map_ext_in. intros l Hl.
      apply lookup_total_app_l. rewrite List.Forall_forall in Hps. now apply Hps.
    + rewrite length_app. simpl. eapply List.Forall_impl; [|exact Hps].
      simpl. intros. lia.
Qed.

Lemma vals_copies (h : Store) (ps : list Process) :
  vals (h ++ ps) (seq (length h) (length ps)) = ps.
Proof.
  revert h. induction ps as [|p ps IH]; intros h; simpl; [reflexivity|].
  f_equal.
  - unfold deref. rewrite lookup_total_app_r by lia.
    now replace (length h - length h)%nat with 0%nat by lia.
  - specialize (IH (h ++ [p])). rewrite <- app_assoc, length_app in IH. simpl in IH.
    now replace (length h + 1)%nat with (S (length h)) in IH by lia.
Qed.

Lemma copies_owned (n k : nat) :
  NoDup (seq n k) /\ Forall (fun l => (n <= l < n + k)%nat) (seq n k).
Proof.
  split; [apply NoDup_seq|]. rewrite List.Forall_forall. intros l Hl.
  apply in_seq in Hl. lia.
Qed.

(** ** The five schedulers refine the model *)

Lemma init_owned (base : nat) (h : Store) (copies sorted : list loc) :
  NoDup copies -> Forall (fun l => (base <= l < length h)%nat) copies ->
  Permutation sorted copies ->
  owned base (h, init sorted).
Proof.
  intros Hnd Hin Hperm. split; unfold refs; simpl; rewrite app_nil_r, Hperm; assumption.
Qed.

Lemma srtf_max_time_refines (copies : list loc) (h : Store) :
  srtf_max_time copies h = Fn.srtf_max_time (vals h copies).
Proof.
  destruct copies as [|c cs]; simpl; [reflexivity|].
  unfold vals. now rewrite !map_map.
Qed.

Lemma run_refines (base : nat) (fuel : nat) (policy : Policy)
    (copies : list loc) (h : Store) :
  NoDup copies -> Forall (fun l => (base <= l < length h)%nat) copies ->
  refines_outcome base h (run fuel policy copies h) (Fn.run fuel policy (vals h copies)).
Proof.
  intros Hnd Hin.
  pose proof (sort_by_perm (fun l => arrival_key (deref h l)) lt_pair copies) as Hperm.
  pose proof (sort_by_map (deref h) arrival_key lt_pair copies) as Hsort.
  pose proof (init_owned base h copies _ Hnd Hin Hperm) as Hown.
  assert (Hview : view (h, init (sort_by (fun l => arrival_key (deref h l)) lt_pair copies))
                  = Fn.init (sort_by arrival_key lt_pair (vals h copies))).
  { unfold view, init, Fn.init, vals. simpl. now rewrite Hsort. }
  destruct policy as [| | |q|]; simpl.
  - unfold fcfs_run, Fn.fcfs_run.
    destruct (fcfs_fold_refines base
                (sort_by (fun l => arrival_key (deref h l)) lt_pair copies) (h, init []))
      as [Hv Hfr].
    + split; unfold refs; simpl; constructor.
    + now rewrite Hperm.
    + intros l Hl. rewrite Hperm in Hl. split; [unfold refs; simpl; set_solver|].
      rewrite List.Forall_forall in Hin. apply Hin. now apply list_elem_of_In.
    + split; [|exact Hfr]. rewrite Hv. simpl fst. unfold vals at 1. now rewrite Hsort.
  - unfold np_run, Fn.np_run. rewrite <- Hview.
    apply while_loop_refines; [apply np_body_refines | exact Hown | apply framed_refl].
  - unfold srtf_run, Fn.srtf_run. rewrite srtf_max_time_refines.
    destruct (Fn.srtf_max_time (vals h copies)) as [max_time|e|]; simpl; auto.
    rewrite <- Hview. apply (for_loop_refines base _ _ Hown).
  - unfold rr_run, Fn.rr_run. rewrite <- Hview.
    apply while_loop_refines; [apply rr_body_refines | exact Hown | apply framed_refl].
  - unfold np_run, Fn.np_run. rewrite <- Hview.
    apply while_loop_refines; [apply np_body_refines | exact Hown | apply framed_refl].
Qed.

(** [schedule] on the caller's references computes what the model
    computes on the records behind them, and leaves every object that
    existed before the call as it was. *)
Theorem schedule_refines `{PyFloat} (fuel : nat) (policy : Policy)
    (processes : list loc) (h : Store) :
  Forall (fun l => (l < length h)%nat) processes ->
  match Fn.schedule fuel policy (vals h processes) with
  | Done r => exists h', schedule fuel policy processes h = Done (h', r)
                         /\ take (length h) h' = h
  | Raise e => schedule fuel policy processes h = Raise e
  | OutOfFuel => schedule fuel policy processes h = OutOfFuel
  end.
Proof.
  intros Hin. unfold schedule, Fn.schedule.
  rewrite (CPUScheduler_init_spec processes h Hin).
  set (h0 := h ++ vals h processes).
  set (copies := seq (length h) (length processes)).
  assert (Hvals : vals h0 copies = vals h processes).
  { unfold h0, copies. rewrite <- (length_map (deref h) processes). apply vals_copies. }
  destruct (copies_owned (length h) (length processes)) as [Hnd Hrange].
  assert (Hrange' : Forall (fun l => (length h <= l < length h0)%nat) copies).
  { unfold h0. rewrite length_app. unfold vals. rewrite length_map. exact Hrange. }
  pose proof (run_refines (length h) fuel policy copies h0 Hnd Hrange') as Href.
  rewrite Hvals in Href. unfold refines_outcome in Href.
  destruct (run fuel policy copies h0) as [[h' s']| |];
    destruct (Fn.run fuel policy (vals h processes)) as [s| |]; simpl; try contradiction.
  - destruct Href as [Hv [Hlen Htake]]. subst s. simpl.
    destruct (get_results (vals h' (completed_processes s')) (gantt_chart s')) as [r| |];
      simpl; auto.
    exists h'. split; [reflexivity|]. simpl in Htake. rewrite Htake.
    unfold h0. apply take_app_length.
  - now subst.
  - reflexivity.
Qed.

(** * The specification's claims *)

(** ** Metrics *)


Lemma calculate_metrics_returns `{PyFloat} (completed : list Process) :
  exists metrics, calculate_metrics completed = Done metrics.
Proof.
  destruct completed as [|p l]; [eexists; reflexivity|].
  unfold calculate_metrics, py_truediv. cbv zeta.
  assert (Hn : (Z.of_nat (length (p :: l)) =? 0) = false)
    by (apply Z.eqb_neq; simpl length; lia).
  rewrite !Hn. eexists. reflexivity.
Qed.

Lemma get_results_total `{PyFloat} (completed : list Process) (gantt : list Interval) :
  exists metrics,
    get_results completed gantt = Done (map get_statistics completed, metrics, gantt).
Proof.
  unfold get_results. destruct (calculate_metrics_returns completed) as (m & E).
  rewrite E. simpl. eauto.
Qed.

(** ** Valid calls return *)

Lemma schedule_total `{PyFloat} (fuel : nat) (policy : Policy)
    (processes : list loc) (h : Store) :
  valid_call policy processes h ->
  (fuel_bound policy (vals h processes) <= fuel)%nat ->
  exists h' s T metrics,
    schedule fuel policy processes h
    = Done (h', (map get_statistics (completed_processes s), metrics, gantt_chart s))
    /\ Fn.run fuel policy (vals h processes) = Done s
    /\ take (length h) h' = h
    /\ post (vals h processes) s T
    /\ match policy with
       | RoundRobin _ => True
       | _ => distinct_adjacent (map iv_label (gantt_chart s))
       end.
Proof.
  intros [Hin Hv] Hfuel.
  destruct (Fn_run_post policy (vals h processes) fuel Hv Hfuel) as (s & T & E & Hp & Hl).
  pose proof (schedule_refines fuel policy processes h Hin) as Href.
  unfold Fn.schedule in Href. rewrite E in Href. simpl in Href.
  destruct (get_results_total (completed_processes s) (gantt_chart s)) as (m & Em).
  rewrite Em in Href. destruct Href as (h' & E' & Hfr).
  exists h', s, T, m. split_and!; auto.
Qed.

(** ** Reading a result *)


(** ** Worked examples *)

(** C1, as the code has it: on P1(0,8), P2(1,4), P3(2,2), P4(3,1) under
    SRTF the CPU is held by P3 during time unit 3, because P4 arrives with
    a remaining time equal to P3's and ties do not preempt, and P1
    completes at 15, the sum of the bursts. *)
Theorem srtf_example_run `{PyFloat} (fuel : nat) :
  exists h' stats metrics gantt,
    schedule fuel SRTF [0; 1; 2; 3]%nat srtf_example = Done (h', (stats, metrics, gantt))
    /\ running_at 3 gantt = Some "P3"%string
    /\ option_map st_completion_time (stats_of 1 stats) = Some 15
    /\ gantt = [(0, 1, "P1"); (1, 2, "P2"); (2, 4, "P3"); (4, 5, "P4");
                (5, 8, "P2"); (8, 15, "P1")]%string.
Proof.
  remember (schedule fuel SRTF [0; 1; 2; 3]%nat srtf_example) as r eqn:E.
  vm_compute in E. subst r. eexists _, _, _, _. split; [reflexivity|].
  split_and!; reflexivity.
Qed.

(** C1 as stated fails: during time unit 3 the chart shows P3, not P4,
    and P1 completes at 15, not 16. *)
Lemma srtf_example_refutes_P4_and_16 :
  exists h' stats metrics gantt,
    schedule 0 SRTF [0; 1; 2; 3]%nat srtf_example = Done (h', (stats, metrics, gantt))
    /\ running_at 3 gantt <> Some "P4"%string
    /\ option_map st_completion_time (stats_of 1 stats) <> Some 16.
Proof.
  generalize ExactFloat. intros F.
  remember (schedule 0 SRTF [0; 1; 2; 3]%nat srtf_example) as r eqn:E.
  vm_compute in E. subst r. eexists _, _, _, _. split_and!.
  - reflexivity.
  - vm_compute. discriminate.
  - vm_compute. discriminate.
Qed.

(** C8. FCFS on P1(0,4), P2(1,3), P3(2,2): completion 4, 7, 9,
    turnaround 4, 6, 7 and waiting 0, 3, 5 for P1, P2, P3. *)
Theorem fcfs_example_run `{PyFloat} (fuel : nat) :
  exists h' stats metrics gantt,
    schedule fuel FCFS [0; 1; 2]%nat fcfs_example = Done (h', (stats, metrics, gantt))
    /\ map (fun st => (st_pid st, st_completion_time st, st_turnaround_time st,
                       st_waiting_time st)) stats
       = [(1, 4, 4, 0); (2, 7, 6, 3); (3, 9, 7, 5)].
Proof.
  remember (schedule fuel FCFS [0; 1; 2]%nat fcfs_example) as r eqn:E.
  vm_compute in E. subst r. eexists _, _, _, _. split; reflexivity.
Qed.

(** ** Claims about every valid call *)


(** Checks [valid_call] on a concrete store. *)
Ltac check_valid_call :=
  split; [repeat constructor |];
  split_and!;
  [ discriminate
  | apply (bool_decide_unpack _); vm_compute; exact I
  | repeat constructor; simpl; lia
  | simpl; try lia; try exact I ].







(** C6. A call leaves every object of the caller as it was: the store
    after the call extends the store before it.  The result depends only on
    the records behind the input references, so running the same policy
    again, on the store the first run left or on any store holding equal
    records, returns the same statistics, metrics and chart. *)
Theorem schedule_frame_deterministic `{PyFloat} (policy : Policy)
    (processes : list loc) (h h1 : Store) (fuel : nat) (r1 : Result) :
  Forall (fun l => (l < length h)%nat) processes ->
  schedule fuel policy processes h = Done (h1, r1) ->
  take (length h) h1 = h
  /\ vals h1 processes = vals h processes
  /\ (exists h2, schedule fuel policy processes h1 = Done (h2, r1))
  /\ (forall (h' : Store) (processes' : list loc),
        Forall (fun l => (l < length h')%nat) processes' ->
        vals h' processes' = vals h processes ->
        exists h2, schedule fuel policy processes' h' = Done (h2, r1)).
Proof.
  intros Hin E.
  pose proof (schedule_refines fuel policy processes h Hin) as Href.
  destruct (Fn.schedule fuel policy (vals h processes)) as [r| |] eqn:Efn;
    [|congruence|congruence].
  destruct Href as (h1' & E' & Hfr). rewrite E in E'. injection E' as <- <-.
  assert (Hsame : forall (h' : Store) (processes' : list loc),
             Forall (fun l => (l < length h')%nat) processes' ->
             vals h' processes' = vals h processes ->
             exists h2, schedule fuel policy processes' h' = Done (h2, r1)).
  { intros h' processes' Hin' Hvals.
    pose proof (schedule_refines fuel policy processes' h' Hin') as Href'.
    rewrite Hvals, Efn in Href'. destruct Href' as (h2 & E2 & _). eauto. }
  assert (Hvals : vals h1 processes = vals h processes).
  { unfold vals. apply map_ext_in. intros l Hl.
    rewrite List.Forall_forall in Hin. specialize (Hin l Hl).
    unfold deref. rewrite !list_lookup_total_alt. f_equal.
    rewrite <- (lookup_take_lt h1 (length h) l) by lia. now rewrite Hfr. }
  split_and!; auto.
  apply Hsame; [|exact Hvals].
  eapply List.Forall_impl; [|exact Hin]. simpl. intros l Hl.
  rewrite <- Hfr in Hl at 1. rewrite length_take in Hl. lia.
Qed.

(** ** Round-Robin: the order of the ready queue *)

Lemma insert_by_arrival (x : Process) (l : list Process) :
  by_arrival l -> by_arrival (insert_by arrival_key lt_pair x l).
Proof.
  unfold by_arrival. induction 1 as [|y l Hl IH Hy]; simpl.
  - repeat constructor.
  - unfold lt_pair at 1. simpl.
    destruct (Z.ltb_spec (arrival_time y) (arrival_time x)) as [Hlt|Hge]; simpl.
    + constructor; [exact IH|].
      rewrite List.Forall_forall in *. intros z Hz.
      apply (Permutation_in _ (insert_by_perm arrival_key lt_pair x l)) in Hz.
      destruct Hz as [<-|Hz]; [lia | now apply Hy].
    + destruct (Z.eqb_spec (arrival_time y) (arrival_time x)) as [He|Hne]; simpl.
      * destruct (pid y <? pid x).
        -- constructor; [exact IH|].
           rewrite List.Forall_forall in *. intros z Hz.
           apply (Permutation_in _ (insert_by_perm arrival_key lt_pair x l)) in Hz.
           destruct Hz as [<-|Hz]; [lia | now apply Hy].
        -- constructor; [now constructor|]. constructor; [lia|].
           rewrite List.Forall_forall in *. intros z Hz. specialize (Hy z Hz). lia.
      * constructor; [now constructor|]. constructor; [lia|].
        rewrite List.Forall_forall in *. intros z Hz. specialize (Hy z Hz). lia.
Qed.

Lemma sort_by_arrival (l : list Process) : by_arrival (sort_by arrival_key lt_pair l).
Proof.
  induction l as [|x l IH]; simpl; [constructor | now apply insert_by_arrival].
Qed.

Lemma sorted_prefix_filter (t : Z) (l : list Process) :
  by_arrival l ->
  arrived_prefix arrival_time t l = List.filter (fun p => arrival_time p <=? t) l.
Proof.
  induction 1 as [|a l Hl IH Ha]; simpl; [reflexivity|].
  destruct (Z.leb_spec (arrival_time a) t) as [Hle|Hgt]; [now rewrite IH|].
  clear IH Hl. induction l as [|b l IH]; simpl; [reflexivity|].
  inversion Ha as [|? ? Hb Ha']; subst.
  destruct (Z.leb_spec (arrival_time b) t); [lia | now apply IH].
Qed.

Lemma sorted_suffix_filter (t : Z) (l : list Process) :
  by_arrival l ->
  pending_suffix arrival_time t l
  = List.filter (fun p => negb (arrival_time p <=? t)) l.
Proof.
  induction 1 as [|a l Hl IH Ha]; simpl; [reflexivity|].
  destruct (Z.leb_spec (arrival_time a) t) as [Hle|Hgt]; simpl; [exact IH|].
  f_equal. clear IH Hl. induction l as [|b l IH]; simpl; [reflexivity|].
  inversion Ha as [|? ? Hb Ha']; subst.
  destruct (Z.leb_spec (arrival_time b) t); [lia|]. simpl. f_equal. now apply IH.
Qed.

Lemma filter_by_arrival (f : Process -> bool) (l : list Process) :
  by_arrival l -> by_arrival (List.filter f l).
Proof.
  unfold by_arrival. induction 1 as [|a l Hl IH Ha]; simpl; [constructor|].
  destruct (f a); [|exact IH]. constructor; [exact IH|].
  rewrite List.Forall_forall in *. intros z Hz. apply List.filter_In in Hz as [Hz _].
  now apply Ha.
Qed.

Lemma rr_reachable_sorted (q : Z) (procs : list Process) (s : Fn.State) :
  rr_reachable q procs s -> by_arrival (remaining_processes s).
Proof.
  induction 1 as [|s Hr IH Hw]; simpl; [apply sort_by_arrival|].
  unfold Fn.rr_body. rewrite Fn_pull_arrived_eq.
  rewrite (sorted_suffix_filter _ _ IH).
  set (rem1 := List.filter _ (remaining_processes s)).
  assert (H1 : by_arrival rem1) by (now apply filter_by_arrival).
  destruct (ready_queue s ++ _) as [|process ready2].
  - destruct rem1; simpl; assumption.
  - rewrite Fn_pull_arrived_eq. rewrite (sorted_suffix_filter _ _ H1).
    destruct (is_complete _); simpl; now apply filter_by_arrival.
Qed.

(** C4. In every state the Round-Robin loop reaches, when the process at
    the head of the queue runs its slice and is not finished, the queue
    becomes: the processes already queued behind it, then every pending
    process that has arrived by the new current time, in arrival order,
    then the process that just ran; no arrived process stays in the pool.
    On P1(0,5), P2(1,3), P3(2,1) with quantum 2 the chart therefore begins
    (0,2,P1), (2,4,P2). *)
Theorem rr_arrivals_before_incumbent `{PyFloat} (q : Z) (procs : list Process)
    (s : Fn.State) (process : Process) (ready2 : list Process) (fuel : nat) :
  rr_reachable q procs s ->
  let t := current_time s in
  let rem1 := List.filter (fun p => negb (arrival_time p <=? t)) (remaining_processes s) in
  ready_queue s
  ++ map (set_state READY)
       (List.filter (fun p => arrival_time p <=? t) (remaining_processes s))
  = process :: ready2 ->
  let p1 := dispatch t process in
  let e := Z.min q (remaining_time p1) in
  let p2 := fst (execute e p1) in
  is_complete p2 = false ->
  (current_time (Fn.rr_body q s) = t + e
   /\ ready_queue (Fn.rr_body q s)
      = ready2
        ++ map (set_state READY) (List.filter (fun p => arrival_time p <=? t + e) rem1)
        ++ [set_state READY p2]
   /\ remaining_processes (Fn.rr_body q s)
      = List.filter (fun p => negb (arrival_time p <=? t + e)) rem1)
  /\ exists h' stats metrics rest,
       schedule (11 + fuel) (RoundRobin 2) [0; 1; 2]%nat rr_example
       = Done (h', (stats, metrics,
                    (0, 2, "P1"%string) :: (2, 4, "P2"%string) :: rest)).
Proof.
  intros Hreach t rem1 Hhead p1 e p2 Hnc. split.
  - pose proof (rr_reachable_sorted _ _ _ Hreach) as Hsorted.
    unfold Fn.rr_body. rewrite Fn_pull_arrived_eq.
    rewrite (sorted_suffix_filter _ _ Hsorted), (sorted_prefix_filter _ _ Hsorted).
    fold t. fold rem1. rewrite Hhead. fold p1. fold e. fold p2.
    rewrite Fn_pull_arrived_eq.
    assert (H1 : by_arrival rem1) by (now apply filter_by_arrival).
    rewrite (sorted_suffix_filter _ _ H1), (sorted_prefix_filter _ _ H1).
    rewrite Hnc. simpl. rewrite <- app_assoc. auto.
  - remember (schedule (11 + fuel) (RoundRobin 2) [0; 1; 2]%nat rr_example) as r eqn:E.
    vm_compute in E. subst r. eexists _, _, _, _. reflexivity.
Qed.

(** ** SRTF: preemption is strict *)

Lemma lt_triple_true (a b : Z * Z * Z) :
  lt_triple a b = true -> fst (fst a) <= fst (fst b).
Proof.
  unfold lt_triple. destruct (Z.ltb_spec (fst (fst a)) (fst (fst b))); [lia|].
  destruct (Z.eqb_spec (fst (fst a)) (fst (fst b))); [lia | discriminate].
Qed.

Lemma lt_triple_false (a b : Z * Z * Z) :
  lt_triple a b = false -> fst (fst b) <= fst (fst a).
Proof.
  unfold lt_triple. destruct (Z.ltb_spec (fst (fst a)) (fst (fst b))); [discriminate | lia].
Qed.

(** [min] by a triple key returns an element whose first component is
    least. *)
Lemma min_by_least {A : Type} (key : A -> Z * Z * Z) (x : A) (l : list A) (y : A) :
  In y (x :: l) ->
  fst (fst (key (min_by key lt_triple x l))) <= fst (fst (key y)).
Proof.
  unfold min_by. revert x y. induction l as [|z l IH]; intros x y Hy; simpl.
  - destruct Hy as [<-|[]]. lia.
  - destruct (lt_triple (key z) (key x)) eqn:E.
    + apply lt_triple_true in E.
      destruct Hy as [<-|[<-|Hy]].
      * specialize (IH z z (or_introl eq_refl)). lia.
      * apply IH. now left.
      * apply IH. now right.
    + apply lt_triple_false in E.
      destruct Hy as [<-|[<-|Hy]].
      * apply IH. now left.
      * specialize (IH x x (or_introl eq_refl)). lia.
      * apply IH. now right.
Qed.

(** C5. At the preemption check of an SRTF iteration, with the arrivals
    of the time unit pulled, a running process that is not complete is
    preempted exactly when some ready process has a strictly smaller
    remaining time.  When no ready process is strictly shorter, a tie
    included, the same process object still holds the CPU after the
    iteration and the unit is charged to its label. *)
Theorem srtf_preemption_is_strict (t : Z) (h : Store) (s : SchedState loc) (c : loc) :
  let pulled := pull_arrived t (remaining_processes s) (ready_queue s) h in
  let h1 := fst pulled in
  let ready1 := snd (snd pulled) in
  let after := fst (srtf_body t (h, s)) in
  current_process s = Some c ->
  is_complete (deref h1 c) = false ->
  Forall (fun r => remaining_time (deref h1 c) <= remaining_time (deref h1 r)) ready1 ->
  (current_process (snd after) = Some c
   /\ option_map iv_label (last (gantt_chart (snd after))) = Some (proc_label (deref h1 c)))
  /\ forall ready,
       fst (fst (snd (srtf_settle t (Some c) ready (completed_processes s) h1))) = None
       <-> Exists (fun r => remaining_time (deref h1 r) < remaining_time (deref h1 c)) ready.
Proof.
  intros pulled h1 ready1 after Hcur Hnc Htie.
  assert (Hkeep : forall ready,
            Forall (fun r => remaining_time (deref h1 c) <= remaining_time (deref h1 r)) ready ->
            srtf_settle t (Some c) ready (completed_processes s) h1
            = (h1, (Some c, ready, completed_processes s))).
  { intros ready Hall. unfold srtf_settle. rewrite Hnc.
    destruct ready as [|r rs]; [reflexivity|].
    pose proof (min_by_in (fun l => srtf_key (deref h1 l)) lt_triple r rs) as Hin.
    rewrite List.Forall_forall in Hall. specialize (Hall _ Hin).
    destruct (Z.ltb_spec
                (remaining_time (deref h1 (min_by (fun l => srtf_key (deref h1 l)) lt_triple r rs)))
                (remaining_time (deref h1 c))); [lia | reflexivity]. }
  split.
  - unfold after, srtf_body. destruct s as [ct g done rem ready cur]. simpl in *.
    subst cur. fold pulled. destruct pulled as [h1' [rem1 ready1']]. simpl in *.
    subst h1 ready1. rewrite (Hkeep _ Htie). unfold srtf_select, srtf_tick.
    unfold srtf_finish.
    destruct rem1, ready1'; simpl;
      try (split; [reflexivity | apply extend_gantt_last]).
    destruct (is_complete (deref (mutate (fun p => fst (execute 1 p)) c h1') c)); simpl;
      (split; [reflexivity | apply extend_gantt_last]).
  - intros ready. split.
    + intros Hnone. unfold srtf_settle in Hnone. rewrite Hnc in Hnone.
      destruct ready as [|r rs]; [discriminate|].
      pose proof (min_by_in (fun l => srtf_key (deref h1 l)) lt_triple r rs) as Hin.
      destruct (Z.ltb_spec
                  (remaining_time (deref h1 (min_by (fun l => srtf_key (deref h1 l)) lt_triple r rs)))
                  (remaining_time (deref h1 c))) as [Hlt|]; [|discriminate].
      apply List.Exists_exists. eauto.
    + intros Hex. apply List.Exists_exists in Hex as (x & Hx & Hlt).
      unfold srtf_settle. rewrite Hnc.
      destruct ready as [|r rs]; [destruct Hx|].
      pose proof (min_by_least (fun l => srtf_key (deref h1 l)) r rs x Hx) as Hmin.
      simpl in Hmin.
      destruct (Z.ltb_spec
                  (remaining_time (deref h1 (min_by (fun l => srtf_key (deref h1 l)) lt_triple r rs)))
                  (remaining_time (deref h1 c))); [reflexivity | lia].
Qed.

(** ** The general claims at concrete inputs *)





Lemma schedule_frame_deterministic_witness :
  exists h1 r1,
    schedule 19 (RoundRobin 2) [0; 1; 2]%nat rr_example = Done (h1, r1)
    /\ take (length rr_example) h1 = rr_example
    /\ exists h2, schedule 19 (RoundRobin 2) [0; 1; 2]%nat h1 = Done (h2, r1).
Proof.
  assert (Hin : Forall (fun l => (l < length rr_example)%nat) [0; 1; 2]%nat)
    by (repeat constructor).
  assert (Hv : valid_call (RoundRobin 2) [0; 1; 2]%nat rr_example) by check_valid_call.
  assert (Hf : (fuel_bound (RoundRobin 2) (vals rr_example [0; 1; 2]%nat) <= 19)%nat)
    by (vm_compute; lia).
  destruct (schedule_total 19 (RoundRobin 2) [0; 1; 2]%nat rr_example Hv Hf)
    as (h1 & s & T & m & E & _).
  destruct (schedule_frame_deterministic (RoundRobin 2) [0; 1; 2]%nat rr_example h1 19 _
              Hin E) as (Hfr & _ & Hrerun & _).
  exists h1, (map get_statistics (completed_processes s), m, gantt_chart s).
  split_and!; [exact E | exact Hfr | exact Hrerun].
Defined.

(** The first Round-Robin iteration of the example: P1 runs [0, 2), P2
    and P3 arrive meanwhile and are queued in front of P1. *)
Lemma rr_arrivals_before_incumbent_witness :
  let s0 := Fn.init (sort_by arrival_key lt_pair rr_example) in
  rr_reachable 2 rr_example s0
  /\ current_time (Fn.rr_body 2 s0) = 2
  /\ map pid (ready_queue (Fn.rr_body 2 s0)) = [2; 3; 1]
  /\ remaining_processes (Fn.rr_body 2 s0) = [].
Proof.
  intros s0.
  assert (Hr : rr_reachable 2 rr_example s0) by apply rr_start.
  assert (Hhead : ready_queue s0
                  ++ map (set_state READY)
                       (List.filter (fun p => arrival_time p <=? current_time s0)
                          (remaining_processes s0))
                  = set_state READY (Process_init 1 0 5 0) :: []) by reflexivity.
  assert (Hnc : is_complete
                  (fst (execute
                          (Z.min 2 (remaining_time
                                      (dispatch (current_time s0)
                                         (set_state READY (Process_init 1 0 5 0)))))
                          (dispatch (current_time s0)
                             (set_state READY (Process_init 1 0 5 0))))) = false)
    by reflexivity.
  destruct (rr_arrivals_before_incumbent 2 rr_example s0 _ _ 0%nat Hr Hhead Hnc)
    as ((Ht & Hq & Hrem) & _).
  split; [exact Hr|]. rewrite Ht, Hq, Hrem. split_and!; reflexivity.
Defined.

Lemma srtf_preemption_is_strict_witness :
  current_process (snd srtf_state_at_3) = Some 2%nat
  /\ remaining_time (deref (fst srtf_state_at_3) 2%nat) = 1
  /\ current_process (snd (fst (srtf_body 3 srtf_state_at_3))) = Some 2%nat
  /\ option_map iv_label (last (gantt_chart (snd (fst (srtf_body 3 srtf_state_at_3)))))
     = Some "P3"%string.
Proof.
  assert (Hc : current_process (snd srtf_state_at_3) = Some 2%nat) by reflexivity.
  set (pulled := pull_arrived 3 (remaining_processes (snd srtf_state_at_3))
                   (ready_queue (snd srtf_state_at_3)) (fst srtf_state_at_3)).
  assert (Hnc : is_complete (deref (fst pulled) 2%nat) = false) by reflexivity.
  assert (Htie : Forall (fun r => remaining_time (deref (fst pulled) 2%nat)
                                  <= remaining_time (deref (fst pulled) r))
                   (snd (snd pulled))).
  { vm_compute. repeat (constructor; [discriminate|]). constructor. }
  destruct (srtf_preemption_is_strict 3 (fst srtf_state_at_3) (snd srtf_state_at_3) 2%nat
              Hc Hnc Htie) as ((Hcur & Hlab) & _).
  split_and!; [exact Hc | reflexivity | exact Hcur | exact Hlab].
Defined.

(** * Further properties of the code *)

(** ** [Process.execute] *)

(** X1. Two consecutive slices are one slice of their sum. *)
Theorem execute_slices_add (a b : Z) (p : Process) :
  0 <= a -> 0 <= b ->
  fst (execute b (fst (execute a p))) = fst (execute (a + b) p)
  /\ snd (execute a p) + snd (execute b (fst (execute a p))) = snd (execute (a + b) p).
Proof.
  intros Ha Hb. unfold execute.
  destruct p as [i ar bu pr st rem co tu wa re sta]. simpl.
  destruct st; simpl; try (split; reflexivity).
  destruct (Z.min_spec a rem) as [[H1 ->]|[H1 ->]].
  - assert (H2 : (rem - a =? 0) = false) by (apply Z.eqb_neq; lia).
    rewrite H2. simpl.
    destruct (Z.min_spec b (rem - a)) as [[H3 ->]|[H3 ->]];
      destruct (Z.min_spec (a + b) rem) as [[H4 ->]|[H4 ->]]; try lia.
    + replace (rem - a - b) with (rem - (a + b)) by lia.
      destruct (rem - (a + b) =? 0); simpl; split; (reflexivity || lia).
    + replace (rem - a - (rem - a)) with 0 by lia.
      replace (rem - rem) with 0 by lia. simpl. split; [reflexivity | lia].
  - replace (rem - rem) with 0 by lia. simpl.
    rewrite (Z.min_r (a + b) rem) by lia.
    replace (rem - rem) with 0 by lia. simpl. split; [reflexivity | lia].
Qed.

Lemma execute_slices_add_witness :
  fst (execute 3 (fst (execute 2 (dispatch 0 (Process_init 1 0 4 0)))))
  = fst (execute 5 (dispatch 0 (Process_init 1 0 4 0)))
  /\ snd (execute 2 (dispatch 0 (Process_init 1 0 4 0)))
     + snd (execute 3 (fst (execute 2 (dispatch 0 (Process_init 1 0 4 0)))))
     = snd (execute 5 (dispatch 0 (Process_init 1 0 4 0))).
Proof.
  apply (execute_slices_add 2 3 (dispatch 0 (Process_init 1 0 4 0))); lia.
Defined.

(** ** Labels *)

(** X2. The label [f"P{pid}"] determines the pid, and no process is labelled
    IDLE. *)
Theorem labels_identify_processes (p q : Process) :
  (proc_label p = proc_label q <-> pid p = pid q) /\ proc_label p <> IDLE.
Proof.
  split; [split|].
  - apply proc_label_inj.
  - apply proc_label_pid.
  - apply proc_label_not_idle.
Qed.

(** ** Calls outside the contract *)

(** X3. On an empty process list FCFS, SJF, Round-Robin and Priority return
    empty statistics, an empty metrics dict and an empty chart, and allocate
    nothing; SRTF raises [ValueError], from [max] over an empty sequence. *)
Theorem schedule_empty_input `{PyFloat} (fuel : nat) (policy : Policy) (h : Store) :
  schedule fuel policy [] h
  = match policy with
    | SRTF => Raise ValueError
    | _ => Done (h, ([], [], []))
    end.
Proof.
  destruct policy; try reflexivity; destruct fuel; reflexivity.
Qed.

(** A [while] loop whose condition is kept true by the body never
    returns. *)
Lemma while_loop_diverges {S : Type} (cond : S -> bool) (body : S -> S)
    (Inv : S -> Prop) :
  (forall s, Inv s -> cond s = true /\ Inv (body s)) ->
  forall fuel s, Inv s -> while_loop cond body fuel s = OutOfFuel.
Proof.
  intros Hstep fuel. induction fuel as [|fuel IH]; intros s HI; simpl;
    destruct (Hstep s HI) as [-> HI']; [reflexivity | now apply IH].
Qed.

Lemma Forall_positive_ready (l : list Process) :
  Forall (fun p => 0 < remaining_time p) l ->
  Forall (fun p => 0 < remaining_time p) (map (set_state READY) l).
Proof. intros H. apply Forall_map. exact H. Qed.

Lemma Forall_positive_split (t : Z) (l : list Process) :
  Forall (fun p => 0 < remaining_time p) l ->
  Forall (fun p => 0 < remaining_time p) (arrived_prefix arrival_time t l)
  /\ Forall (fun p => 0 < remaining_time p) (pending_suffix arrival_time t l).
Proof.
  intros H. rewrite <- (prefix_suffix arrival_time t l) in H.
  now apply Forall_app in H.
Qed.

Lemma work_left_snoc {R : Type} (t : Z) (g : list Interval) (done rem ready : list R)
    (x : R) (cur : option R) :
  work_left (mkState t g done rem (ready ++ [x]) cur) = true.
Proof. unfold work_left. simpl. destruct rem, ready; reflexivity. Qed.

(** With a quantum of zero or less a dispatched process never gets
    closer to completion and goes back to the queue. *)
Lemma rr_body_stuck (q : Z) (s : Fn.State) :
  q <= 0 -> rr_stuck s -> rr_stuck (Fn.rr_body q s).
Proof.
  intros Hq (Hw & Hready & Hrem).
  destruct s as [t g done rem ready cur]. simpl in *.
  unfold Fn.rr_body. simpl. rewrite Fn_pull_arrived_eq.
  destruct (Forall_positive_split t rem Hrem) as [Hpre Hsuf].
  pose proof (prefix_suffix arrival_time t rem) as Hsplit.
  assert (Hready1 : Forall (fun p => 0 < remaining_time p)
            (ready ++ map (set_state READY) (arrived_prefix arrival_time t rem))).
  { apply Forall_app. split; [exact Hready | now apply Forall_positive_ready]. }
  destruct (ready ++ map (set_state READY) (arrived_prefix arrival_time t rem))
    as [|process ready2] eqn:E1.
  - apply app_eq_nil in E1 as [-> E1]. apply map_eq_nil in E1.
    rewrite E1 in Hsplit. simpl in Hsplit. rewrite Hsplit in *.
    destruct rem as [|next rem']; [discriminate|].
    split_and!; simpl; auto.
  - inversion Hready1 as [|? ? Hp Hr2]; subst.
    rewrite Fn_pull_arrived_eq.
    destruct (Forall_positive_split
                (t + Z.min q (remaining_time (dispatch t process)))
                _ Hsuf) as [Hpre2 Hsuf2].
    assert (Hrun : state (dispatch t process) = RUNNING).
    { unfold dispatch. simpl. now destruct (start_time process =? -1). }
    assert (Hr : remaining_time (dispatch t process) = remaining_time process).
    { unfold dispatch. simpl. now destruct (start_time process =? -1). }
    assert (Hp2 : 0 < remaining_time
                        (fst (execute (Z.min q (remaining_time (dispatch t process)))
                                (dispatch t process)))).
    { unfold execute. rewrite Hrun. simpl. rewrite Hr.
      rewrite (Z.min_l q (remaining_time process)) by lia.
      rewrite (Z.min_l q (remaining_time process)) by lia.
      destruct (Z.eqb_spec (remaining_time process - q) 0); simpl; lia. }
    unfold is_complete.
    destruct (Z.eqb_spec
                (remaining_time
                   (fst (execute (Z.min q (remaining_time (dispatch t process)))
                           (dispatch t process)))) 0) as [Hz|Hnz]; [lia|].
    split_and!; simpl.
    + apply work_left_snoc.
    + apply Forall_app. split.
      * apply Forall_app. split; [exact Hr2 | now apply Forall_positive_ready].
      * constructor; [exact Hp2 | constructor].
    + exact Hsuf2.
Qed.

(** X4. Round-Robin with a quantum of zero or less does not return, whatever
    the number of iterations allowed: a process that still has work keeps
    the loop condition true for ever. *)
Theorem round_robin_needs_positive_quantum `{PyFloat} (q : Z) (processes : list loc)
    (h : Store) (fuel : nat) :
  q <= 0 -> processes <> [] ->
  Forall (fun l => (l < length h)%nat) processes ->
  Forall (fun p => 0 < remaining_time p) (vals h processes) ->
  schedule fuel (RoundRobin q) processes h = OutOfFuel.
Proof.
  intros Hq Hne Hin Hpos.
  pose proof (schedule_refines fuel (RoundRobin q) processes h Hin) as Href.
  assert (E : Fn.schedule fuel (RoundRobin q) (vals h processes) = OutOfFuel).
  { unfold Fn.schedule. simpl. unfold Fn.rr_run.
    rewrite (while_loop_diverges work_left (Fn.rr_body q) rr_stuck); [reflexivity | |].
    - intros s Hs. split; [now destruct Hs | now apply rr_body_stuck].
    - pose proof (sort_by_perm arrival_key lt_pair (vals h processes)) as Hperm.
      split_and!; simpl.
      + unfold work_left. simpl.
        destruct (sort_by arrival_key lt_pair (vals h processes)) eqn:Es; [|reflexivity].
        apply sort_by_nil_inv in Es. apply map_eq_nil in Es. contradiction.
      + constructor.
      + rewrite List.Forall_forall in *. intros p Hp. apply Hpos.
        exact (Permutation_in p Hperm Hp). }
  now rewrite E in Href.
Qed.

Lemma round_robin_needs_positive_quantum_witness :
  schedule 1000 (RoundRobin 0) [0; 1; 2; 3; 4]%nat sample_processes = OutOfFuel.
Proof.
  apply (round_robin_needs_positive_quantum 0 [0; 1; 2; 3; 4]%nat sample_processes 1000).
  - lia.
  - discriminate.
  - repeat constructor.
  - repeat constructor.
Defined.

(** ** Results of a valid call *)




(** ** Runs do not interfere *)

Lemma vals_frame (processes : list loc) (h h1 : Store) :
  Forall (fun l => (l < length h)%nat) processes ->
  take (length h) h1 = h ->
  vals h1 processes = vals h processes
  /\ Forall (fun l => (l < length h1)%nat) processes.
Proof.
  intros Hin Hfr. split.
  - unfold vals. apply map_ext_in. intros l Hl.
    rewrite List.Forall_forall in Hin. specialize (Hin l Hl).
    unfold deref. rewrite !list_lookup_total_alt. f_equal.
    rewrite <- (lookup_take_lt h1 (length h) l) by lia. now rewrite Hfr.
  - eapply List.Forall_impl; [|exact Hin]. simpl. intros l Hl.
    rewrite <- Hfr in Hl at 1. rewrite length_take in Hl. lia.
Qed.

(** X6. Schedulers built one after the other from the same process list, as
    [run_scheduling_algorithms] builds its five, do not see each other:
    after a first call has returned, a call of any policy behaves on the
    store the first call left as it does on the store before it. *)
Theorem schedule_runs_are_independent `{PyFloat} (policy1 policy2 : Policy)
    (fuel1 fuel2 : nat) (processes : list loc) (h h1 : Store) (r1 : Result) :
  Forall (fun l => (l < length h)%nat) processes ->
  schedule fuel1 policy1 processes h = Done (h1, r1) ->
  match schedule fuel2 policy2 processes h with
  | Done hr => exists h2, schedule fuel2 policy2 processes h1 = Done (h2, snd hr)
  | Raise e => schedule fuel2 policy2 processes h1 = Raise e
  | OutOfFuel => schedule fuel2 policy2 processes h1 = OutOfFuel
  end.
Proof.
  intros Hin E1.
  pose proof (schedule_refines fuel1 policy1 processes h Hin) as Href1.
  destruct (Fn.schedule fuel1 policy1 (vals h processes)) as [r| |];
    [|congruence|congruence].
  destruct Href1 as (h1' & E1' & Hfr). rewrite E1 in E1'. injection E1' as <- <-.
  destruct (vals_frame processes h h1 Hin Hfr) as [Hvals Hin1].
  pose proof (schedule_refines fuel2 policy2 processes h Hin) as Href.
  pose proof (schedule_refines fuel2 policy2 processes h1 Hin1) as Href'.
  rewrite Hvals in Href'.
  destruct (Fn.schedule fuel2 policy2 (vals h processes)) as [r2| |].
  - destruct Href as (h2 & -> & _). destruct Href' as (h2' & -> & _). simpl. eauto.
  - now rewrite Href.
  - now rewrite Href.
Qed.

(** ** Sorting *)

(** [list.sort] with a key whose [<] is a strict weak order returns a
    list in which no element is smaller than an earlier one. *)
Section SortedFacts.
Context {A K : Type} (key : A -> K) (lt : K -> K -> bool).
Hypothesis lt_asym : forall a b, lt a b = true -> lt b a = false.
Hypothesis lt_negtrans : forall a b c, lt b a = false -> lt c b = false -> lt c a = false.

Lemma insert_by_sorted (x : A) (l : list A) :
  StronglySorted (fun a b => lt (key b) (key a) = false) l ->
  StronglySorted (fun a b => lt (key b) (key a) = false) (insert_by key lt x l).
Proof.
  induction 1 as [|y l Hs IH Hy]; simpl.
  - constructor; constructor.
  - destruct (lt (key y) (key x)) eqn:E.
    + constructor; [exact IH|].
      rewrite List.Forall_forall in *. intros z Hz.
      apply (Permutation_in z (insert_by_perm key lt x l)) in Hz.
      destruct Hz as [<-|Hz]; [now apply lt_asym | now apply Hy].
    + constructor; [constructor; assumption|].
      constructor; [exact E|].
      rewrite List.Forall_forall in *. intros z Hz.
      apply (lt_negtrans _ (key y)); [exact E | now apply Hy].
Qed.

Lemma sort_by_sorted (l : list A) :
  StronglySorted (fun a b => lt (key b) (key a) = false) (sort_by key lt l).
Proof.
  induction l as [|x l IH]; simpl; [constructor | now apply insert_by_sorted].
Qed.

(** The head of the sorted list is a least element of the input. *)
Lemma sort_by_head_least (l : list A) (p : A) (rest : list A) :
  sort_by key lt l = p :: rest ->
  forall q, In q l -> q = p \/ (In q rest /\ lt (key q) (key p) = false).
Proof.
  intros E q Hq. pose proof (sort_by_sorted l) as Hs. rewrite E in Hs.
  apply (Permutation_in q (Permutation_sym (sort_by_perm key lt l))) in Hq.
  rewrite E in Hq. destruct Hq as [->|Hq]; [now left|]. right. split; [exact Hq|].
  inversion Hs as [|? ? _ Hall]; subst.
  rewrite List.Forall_forall in Hall. now apply Hall.
Qed.
End SortedFacts.

Lemma lt_pair_spec (a b : Z * Z) :
  lt_pair a b = true <-> fst a < fst b \/ (fst a = fst b /\ snd a < snd b).
Proof.
  unfold lt_pair. rewrite orb_true_iff, andb_true_iff, !Z.ltb_lt, Z.eqb_eq. reflexivity.
Qed.

Lemma lt_pair_false (a b : Z * Z) :
  lt_pair b a = false <-> fst a < fst b \/ (fst a = fst b /\ snd a <= snd b).
Proof.
  rewrite <- not_true_iff_false, lt_pair_spec. lia.
Qed.

Lemma lt_pair_asym (a b : Z * Z) : lt_pair a b = true -> lt_pair b a = false.
Proof. rewrite lt_pair_spec, lt_pair_false. lia. Qed.

Lemma lt_pair_negtrans (a b c : Z * Z) :
  lt_pair b a = false -> lt_pair c b = false -> lt_pair c a = false.
Proof. rewrite !lt_pair_false. lia. Qed.









(** ** FCFS serves in arrival order *)



(** Processes of a list with distinct pids are told apart by their pid. *)
Lemma nodup_pid_inj (l : list Process) (a b : Process) :
  NoDup (map pid l) -> In a l -> In b l -> pid a = pid b -> a = b.
Proof.
  induction l as [|x l IH]; simpl; intros Hnd Ha Hb E; [contradiction|].
  apply NoDup_cons in Hnd as [Hx Hnd].
  destruct Ha as [->|Ha], Hb as [->|Hb]; auto.
  - exfalso. apply Hx. rewrite E. apply list_elem_of_In. now apply in_map.
  - exfalso. apply Hx. rewrite <- E. apply list_elem_of_In. now apply in_map.
Qed.

(** ** The chart as a ledger of CPU time *)

Lemma Forall_in_impl {A : Type} (P Q : A -> Prop) (l : list A) :
  (forall x, In x l -> P x -> Q x) -> Forall P l -> Forall Q l.
Proof.
  intros H HP. rewrite List.Forall_forall in *. intros x Hx. apply H; auto.
Qed.






(** *** Pids and labels *)












(** *** Moving between the books *)










(** *** One dispatch *)








(** *** The run-to-completion loop (SJF, Priority) *)


(** *** FCFS *)



(** *** Round-Robin *)


(** *** SRTF *)



(** *** Whole runs *)











(** ** What the returned chart and statistics say together *)












(** ** The fields a scheduler only reads *)

















(** ** Time adds up *)




Lemma sum_Z_map_zero {A : Type} (f : A -> Z) (l : list A) :
  (forall x, In x l -> f x = 0) -> sum_Z (map f l) = 0.
Proof.
  induction l as [|x l IH]; simpl; intros H; [reflexivity|].
  rewrite sum_Z_cons, IH, H; auto.
Qed.




(** ** Round-Robin: the quantum *)




(** ** The choice of SJF and Priority *)







(** ** The order of the input list *)


(** Two sorted lists with the same elements are equal when the order
    tells the elements apart. *)
Lemma sorted_perm_eq {A : Type} (R : A -> A -> Prop) (l l' : list A) :
  (forall a b, In a l -> In b l -> R a b -> R b a -> a = b) ->
  StronglySorted R l -> StronglySorted R l' -> Permutation l l' -> l = l'.
Proof.
  revert l'. induction l as [|x l IH]; intros l' Hanti Hs Hs' HP.
  - apply Permutation_nil in HP. now subst.
  - destruct l' as [|y l']; [apply Permutation_sym, Permutation_nil in HP; discriminate|].
    inversion Hs as [|? ? Hs1 Hx]; subst. inversion Hs' as [|? ? Hs1' Hy]; subst.
    rewrite List.Forall_forall in Hx, Hy.
    assert (Exy : x = y).
    { assert (Hxin : In x (y :: l')) by (apply (Permutation_in x HP); now left).
      assert (Hyin : In y (x :: l))
        by (apply (Permutation_in y (Permutation_sym HP)); now left).
      destruct Hxin as [->|Hxin]; [reflexivity|].
      destruct Hyin as [->|Hyin]; [reflexivity|].
      apply Hanti; [now left | now right | now apply Hx | now apply Hy]. }
    subst y. f_equal. apply IH; auto.
    + intros a b Ha Hb. apply Hanti; now right.
    + now apply Permutation_cons_inv in HP.
Qed.

Lemma sort_by_arrival_perm (l l' : list Process) :
  NoDup (map pid l) -> Permutation l l' ->
  sort_by arrival_key lt_pair l = sort_by arrival_key lt_pair l'.
Proof.
  intros Hnd HP.
  apply (sorted_perm_eq (fun a b => lt_pair (arrival_key b) (arrival_key a) = false)).
  - intros a b Ha Hb H1 H2.
    apply (Permutation_in a (sort_by_perm arrival_key lt_pair l)) in Ha.
    apply (Permutation_in b (sort_by_perm arrival_key lt_pair l)) in Hb.
    apply (nodup_pid_inj l); auto.
    apply lt_pair_false in H1, H2. simpl in *. lia.
  - apply sort_by_sorted; [apply lt_pair_asym | apply lt_pair_negtrans].
  - apply sort_by_sorted; [apply lt_pair_asym | apply lt_pair_negtrans].
  - rewrite !sort_by_perm. exact HP.
Qed.

Lemma max_Z_in (x : Z) (l : list Z) : In (max_Z x l) (x :: l).
Proof.
  unfold max_Z. revert x. induction l as [|y l IH]; intros x; simpl; [now left|].
  destruct (IH (Z.max x y)) as [E|HI]; [|now right; right].
  rewrite <- E. destruct (Z.max_spec x y) as [[_ ->]|[_ ->]]; auto.
Qed.

Lemma max_Z_perm (x y : Z) (l k : list Z) :
  Permutation (x :: l) (y :: k) -> max_Z x l = max_Z y k.
Proof.
  intros HP.
  assert (Hub : forall a b m n, Permutation (a :: m) (b :: n) -> max_Z a m <= max_Z b n).
  { intros a b m n HP'. pose proof (max_Z_in a m) as Hin.
    apply (Permutation_in _ HP') in Hin as [<-|Hin];
      [apply max_Z_ge_init | now apply max_Z_ge]. }
  pose proof (Hub _ _ _ _ HP). pose proof (Hub _ _ _ _ (Permutation_sym HP)). lia.
Qed.

Lemma srtf_max_time_perm (l l' : list Process) :
  Permutation l l' -> Fn.srtf_max_time l = Fn.srtf_max_time l'.
Proof.
  intros HP. unfold Fn.srtf_max_time.
  destruct l as [|p ps], l' as [|p' ps']; auto.
  - apply Permutation_nil in HP. discriminate.
  - apply Permutation_sym, Permutation_nil in HP. discriminate.
  - f_equal. f_equal.
    + apply sum_Z_perm. now apply Permutation_map.
    + apply max_Z_perm.
      change (Permutation (map arrival_time (p :: ps)) (map arrival_time (p' :: ps'))).
      now apply Permutation_map.
Qed.

Lemma Fn_run_perm (fuel : nat) (policy : Policy) (l l' : list Process) :
  NoDup (map pid l) -> Permutation l l' ->
  Fn.run fuel policy l = Fn.run fuel policy l'.
Proof.
  intros Hnd HP. pose proof (sort_by_arrival_perm l l' Hnd HP) as Es.
  destruct policy; simpl;
    unfold Fn.fcfs_run, Fn.np_run, Fn.rr_run, Fn.srtf_run; rewrite ?Es; auto.
  now rewrite (srtf_max_time_perm l l' HP).
Qed.

(** X18. A call does not depend on the order in which the caller lists the
    processes, as long as the pids are distinct: every scheduler starts by
    sorting on [(arrival_time, pid)]. *)
Theorem schedule_ignores_input_order `{PyFloat} (policy : Policy)
    (processes processes' : list loc) (h : Store) (fuel : nat) :
  Forall (fun l => (l < length h)%nat) processes ->
  NoDup (map pid (vals h processes)) ->
  Permutation processes processes' ->
  match schedule fuel policy processes h with
  | Done hr => exists h2, schedule fuel policy processes' h = Done (h2, snd hr)
  | Raise e => schedule fuel policy processes' h = Raise e
  | OutOfFuel => schedule fuel policy processes' h = OutOfFuel
  end.
Proof.
  intros Hin Hnd HP.
  assert (Hin' : Forall (fun l => (l < length h)%nat) processes').
  { rewrite List.Forall_forall in *. intros l Hl. apply Hin.
    exact (Permutation_in l (Permutation_sym HP) Hl). }
  pose proof (schedule_refines fuel policy processes h Hin) as Href.
  pose proof (schedule_refines fuel policy processes' h Hin') as Href'.
  assert (E : Fn.schedule fuel policy (vals h processes')
              = Fn.schedule fuel policy (vals h processes)).
  { unfold Fn.schedule. rewrite (Fn_run_perm fuel policy (vals h processes)
                                   (vals h processes')); auto.
    unfold vals. now apply Permutation_map. }
  rewrite E in Href'.
  destruct (Fn.schedule fuel policy (vals h processes)) as [r| |].
  - destruct Href as (h1 & -> & _). destruct Href' as (h2 & -> & _). simpl. eauto.
  - now rewrite Href.
  - now rewrite Href.
Qed.

(** ** Run-to-completion policies *)







(** ** The general properties on the sample of simulator.py *)



Lemma schedule_runs_are_independent_witness :
  exists h1 r1,
    schedule 0 FCFS [0; 1; 2; 3; 4]%nat sample_processes = Done (h1, r1)
    /\ match schedule 11 SJF [0; 1; 2; 3; 4]%nat sample_processes with
       | Done hr => exists h2, schedule 11 SJF [0; 1; 2; 3; 4]%nat h1 = Done (h2, snd hr)
       | Raise e => schedule 11 SJF [0; 1; 2; 3; 4]%nat h1 = Raise e
       | OutOfFuel => schedule 11 SJF [0; 1; 2; 3; 4]%nat h1 = OutOfFuel
       end.
Proof.
  assert (Hv : valid_call FCFS [0; 1; 2; 3; 4]%nat sample_processes) by check_valid_call.
  assert (Hf : (fuel_bound FCFS (vals sample_processes [0; 1; 2; 3; 4]%nat) <= 0)%nat)
    by (vm_compute; lia).
  destruct (schedule_total 0 FCFS [0; 1; 2; 3; 4]%nat sample_processes Hv Hf)
    as (h1 & s & T & m & E & _).
  exists h1, (map get_statistics (completed_processes s), m, gantt_chart s).
  split; [exact E|].
  apply (schedule_runs_are_independent FCFS SJF 0 11 [0; 1; 2; 3; 4]%nat
           sample_processes h1 _ (proj1 Hv) E).
Defined.














Lemma schedule_ignores_input_order_witness :
  match schedule 11 SJF [0; 1; 2]%nat fcfs_example with
  | Done hr => exists h2, schedule 11 SJF [2; 0; 1]%nat fcfs_example = Done (h2, snd hr)
  | Raise e => schedule 11 SJF [2; 0; 1]%nat fcfs_example = Raise e
  | OutOfFuel => schedule 11 SJF [2; 0; 1]%nat fcfs_example = OutOfFuel
  end.
Proof.
  apply (schedule_ignores_input_order SJF [0; 1; 2]%nat [2; 0; 1]%nat fcfs_example 11).
  - repeat constructor.
  - apply (bool_decide_unpack _). vm_compute. exact I.
  - symmetry. apply (Permutation_cons_append [0; 1]%nat 2%nat).
Defined.


(** * Threads on shared data *)

(** ** Interleavings *)

Section InterleavingFacts.
Context {L G : Type}.
Variable thread_step : nat -> L -> G -> option (L * G).

(** A step replaces one thread of the list. *)
Lemma sys_step_split (tid : nat) (s s' : System L G) :
  sys_step thread_step tid s = Some s' ->
  exists l1 pc l2 pc' g',
    threads s = l1 ++ pc :: l2 /\ length l1 = tid
    /\ thread_step tid pc (shared s) = Some (pc', g')
    /\ s' = mkSystem (l1 ++ pc' :: l2) g'.
Proof.
  unfold sys_step. destruct (threads s !! tid) as [pc|] eqn:E; [|discriminate].
  destruct (thread_step tid pc (shared s)) as [[pc' g']|] eqn:E2; [|discriminate].
  intros [= <-]. apply list_elem_of_split_length in E as (l1 & l2 & E1 & E3).
  exists l1, pc, l2, pc', g'. split_and!; auto.
  f_equal. rewrite E1, E3. replace (length l1) with (length l1 + 0)%nat by lia.
  now rewrite insert_app_r.
Qed.

Lemma sys_step_enabled (l1 l2 : list L) (pc pc' : L) (g g' : G) :
  thread_step (length l1) pc g = Some (pc', g') ->
  can_run thread_step (mkSystem (l1 ++ pc :: l2) g).
Proof.
  intros E. exists (length l1), (mkSystem (<[length l1 := pc']> (l1 ++ pc :: l2)) g').
  unfold sys_step. simpl. rewrite list_lookup_middle by reflexivity. now rewrite E.
Qed.

(** What every step keeps holds after a run, and a measure that every
    step lowers bounds the length of the run. *)
Lemma sys_run_inv (Inv : System L G -> Prop) (m : System L G -> Z) :
  (forall tid s s', Inv s -> sys_step thread_step tid s = Some s' ->
                    Inv s' /\ m s' <= m s - 1) ->
  forall schedule s s',
    Inv s -> sys_run thread_step schedule s = Some s' ->
    Inv s' /\ m s' <= m s - Z.of_nat (length schedule).
Proof.
  intros Hstep schedule. induction schedule as [|tid rest IH]; simpl; intros s s' HI.
  - intros [= <-]. split; [exact HI | lia].
  - destruct (sys_step thread_step tid s) as [s1|] eqn:E; [|discriminate].
    destruct (Hstep _ _ _ HI E) as [HI1 Hm1]. intros Hrun.
    destruct (IH _ _ HI1 Hrun) as [HI' Hm']. split; [exact HI' | lia].
Qed.

End InterleavingFacts.

(** ** Counting threads *)

Lemma sum_Z_middle {A : Type} (f : A -> Z) (l1 l2 : list A) (x : A) :
  sum_Z (map f (l1 ++ x :: l2)) = sum_Z (map f (l1 ++ l2)) + f x.
Proof. rewrite !map_app. simpl. rewrite !sum_Z_app, sum_Z_cons. lia. Qed.

Lemma sum_Z_map_nonneg {A : Type} (f : A -> Z) (l : list A) :
  (forall x, 0 <= f x) -> 0 <= sum_Z (map f l).
Proof.
  intros H. induction l as [|x l IH]; simpl; [now rewrite sum_Z_nil|].
  rewrite sum_Z_cons. specialize (H x). lia.
Qed.

Lemma sum_Z_map_none {A : Type} (f : A -> Z) (l : list A) :
  (forall x, 0 <= f x) -> sum_Z (map f l) <= 0 -> Forall (fun x => f x = 0) l.
Proof.
  intros H. induction l as [|x l IH]; simpl; [constructor|].
  rewrite sum_Z_cons. intros Hs. pose proof (H x).
  pose proof (sum_Z_map_nonneg f l H). constructor; [lia | apply IH; lia].
Qed.

Lemma sum_Z_map_eq {A : Type} (f k : A -> Z) (l : list A) :
  Forall (fun x => f x = k x) l -> sum_Z (map f l) = sum_Z (map k l).
Proof.
  induction 1 as [|x l Hx _ IH]; simpl; [reflexivity|].
  rewrite !sum_Z_cons. lia.
Qed.

Lemma sum_Z_map_const {A : Type} (f : A -> Z) (c : Z) (l : list A) :
  Forall (fun x => f x = c) l -> sum_Z (map f l) = c * Z.of_nat (length l).
Proof.
  induction 1 as [|x l Hx _ IH]; simpl length; simpl map.
  - rewrite sum_Z_nil. lia.
  - rewrite sum_Z_cons. lia.
Qed.

Lemma count_threads_middle {L : Type} (inside : L -> bool) (l1 l2 : list L) (pc : L) :
  count_threads inside (l1 ++ pc :: l2)
  = count_threads inside (l1 ++ l2) + (if inside pc then 1 else 0).
Proof. apply sum_Z_middle. Qed.

Lemma count_threads_nonneg {L : Type} (inside : L -> bool) (l : list L) :
  0 <= count_threads inside l.
Proof. apply sum_Z_map_nonneg. intros x. destruct (inside x); lia. Qed.

Lemma count_threads_none {L : Type} (inside : L -> bool) (l : list L) :
  count_threads inside l <= 0 -> Forall (fun pc => inside pc = false) l.
Proof.
  intros H. apply sum_Z_map_none in H.
  - eapply Forall_in_impl; [|exact H]. simpl. intros x _. destruct (inside x); [lia|auto].
  - intros x. destruct (inside x); lia.
Qed.

(** A thread that satisfies [inside] is in a list that counts one. *)
Lemma count_threads_some {L : Type} (inside : L -> bool) (l : list L) :
  1 <= count_threads inside l ->
  exists l1 pc l2, l = l1 ++ pc :: l2 /\ inside pc = true.
Proof.
  induction l as [|x l IH]; unfold count_threads; simpl.
  - rewrite sum_Z_nil. lia.
  - rewrite sum_Z_cons. destruct (inside x) eqn:E.
    + intros _. now exists [], x, l.
    + intros H. destruct IH as (l1 & pc & l2 & -> & Hpc); [exact H|].
      now exists (x :: l1), pc, l2.
Qed.

Lemma not_all_ended {L : Type} (ended : L -> bool) (l : list L) :
  ~ all_ended ended l -> exists l1 pc l2, l = l1 ++ pc :: l2 /\ ended pc = false.
Proof.
  induction l as [|x l IH]; intros H.
  - exfalso. apply H. constructor.
  - destruct (ended x) eqn:E.
    + destruct IH as (l1 & pc & l2 & -> & Hpc).
      * intros Hall. apply H. now constructor.
      * now exists (x :: l1), pc, l2.
    + now exists [], x, l.
Qed.

Lemma all_ended_dec {L : Type} (ended : L -> bool) (l : list L) :
  all_ended ended l \/ ~ all_ended ended l.
Proof.
  induction l as [|x l [IH|IH]].
  - left. constructor.
  - destruct (ended x) eqn:E.
    + left. now constructor.
    + right. intros H. inversion H. congruence.
  - right. intros H. inversion H. contradiction.
Qed.

(** ** The mutex *)

Lemma reports_snoc (n : nat) (from : Z) (lines : list string) (tid : nat) :
  reports n from lines -> (tid < n)%nat ->
  reports n from (lines ++ [Mutex.result_line tid (from + Z.of_nat (length lines))]).
Proof.
  revert from. induction lines as [|line rest IH]; cbn [reports app length];
    intros from H Htid.
  - split; [|exact I]. exists tid. split; [exact Htid|]. f_equal. simpl. lia.
  - destruct H as [H1 H2]. split; [exact H1|].
    replace (from + Z.of_nat (S (length rest)))
      with (from + 1 + Z.of_nat (length rest)) by lia.
    now apply IH.
Qed.

(** The threads outside the critical section have logged each of their
    updates. *)
Lemma mutex_outside_logged (l : list Mutex.Pc) :
  Forall (fun pc => mutex_inside pc = false) l ->
  sum_Z (map mutex_added l) = sum_Z (map mutex_logged l)
  /\ forall d, Forall (mutex_fresh d) l.
Proof.
  intros H. split.
  - apply sum_Z_map_eq. eapply Forall_in_impl; [|exact H].
    intros [] _; simpl; auto; discriminate.
  - intros d. eapply Forall_in_impl; [|exact H].
    intros [] _; simpl; auto; discriminate.
Qed.

Lemma mutex_start_inv (n : nat) : mutex_inv n (Mutex.start n).
Proof.
  assert (H : Forall (fun pc => pc = Mutex.Enter 0) (replicate n (Mutex.Enter 0))).
  { apply Forall_replicate. reflexivity. }
  constructor; simpl.
  - apply length_replicate.
  - unfold count_threads. rewrite (sum_Z_map_const _ 0); [lia|].
    eapply Forall_in_impl; [|exact H]. now intros pc _ ->.
  - rewrite (sum_Z_map_const _ 0); [lia|].
    eapply Forall_in_impl; [|exact H]. now intros pc _ ->.
  - rewrite (sum_Z_map_const _ 0); [lia|].
    eapply Forall_in_impl; [|exact H]. now intros pc _ ->.
  - eapply Forall_in_impl; [|exact H]. now intros pc _ ->.
  - eapply Forall_in_impl; [|exact H]. intros pc _ ->. simpl. lia.
  - exact I.
Qed.

Lemma mutex_start_left (n : nat) :
  sum_Z (map mutex_left (threads (Mutex.start n))) = 18 * Z.of_nat n.
Proof.
  simpl. rewrite (sum_Z_map_const _ 18), length_replicate; [lia|].
  apply Forall_replicate. reflexivity.
Qed.

(** One statement of one thread keeps the invariant and is one of the
    statements the threads have left. *)
Lemma mutex_step_inv (n tid : nat) (s s' : System Mutex.Pc Mutex.Shared) :
  mutex_inv n s -> Mutex.step tid s = Some s' ->
  mutex_inv n s'
  /\ sum_Z (map mutex_left (threads s')) = sum_Z (map mutex_left (threads s)) - 1.
Proof.
  intros [Hn Hlock Hadd Hlog Hfresh Hrange Hlines] E.
  apply sys_step_split in E as (l1 & pc & l2 & pc' & d' & Et & Etid & Estep & ->).
  destruct s as [ts d]. simpl in *. subst ts.
  rewrite count_threads_middle in Hlock. rewrite sum_Z_middle in Hadd, Hlog.
  rewrite !sum_Z_middle.
  pose proof (count_threads_nonneg mutex_inside (l1 ++ l2)) as Hnn.
  assert (Hin : (tid < n)%nat).
  { rewrite <- Hn, <- Etid, length_app. simpl. lia. }
  assert (Hlen : length (l1 ++ pc' :: l2) = n).
  { rewrite <- Hn, !length_app. reflexivity. }
  assert (Hothers : mutex_inside pc = true ->
            Mutex.lock d = true
            /\ sum_Z (map mutex_added (l1 ++ l2)) = sum_Z (map mutex_logged (l1 ++ l2))
            /\ forall d0, Forall (mutex_fresh d0) (l1 ++ l2)).
  { intros Hpc. rewrite Hpc in Hlock. destruct (Mutex.lock d); [|lia].
    split; [reflexivity|]. apply mutex_outside_logged, count_threads_none. lia. }
  assert (Hfresh' : forall d0, mutex_fresh d0 pc' ->
            (forall q, In q (l1 ++ l2) -> mutex_fresh d0 q) ->
            Forall (mutex_fresh d0) (l1 ++ pc' :: l2)).
  { intros d0 H1 H2. apply List.Forall_forall. intros q Hq.
    apply in_app_or in Hq as [Hq|[<-|Hq]]; auto; apply H2, in_or_app; auto. }
  assert (Hkeep : forall d0, Mutex.shared_resource d0 = Mutex.shared_resource d ->
            forall q, In q (l1 ++ l2) -> mutex_fresh d0 q).
  { rewrite List.Forall_forall in Hfresh. intros d0 E0 q Hq.
    assert (Hd : mutex_fresh d q).
    { apply Hfresh. apply in_app_or in Hq as [Hq|Hq]; apply in_or_app;
        [now left | right; now right]. }
    destruct q; simpl in *; congruence. }
  assert (Hrange' : mutex_in_range pc' -> Forall mutex_in_range (l1 ++ pc' :: l2)).
  { intros H1. apply Forall_app in Hrange as [R1 R2]. inversion R2; subst.
    apply Forall_app. split; [exact R1 | now constructor]. }
  assert (Hpc : mutex_in_range pc /\ mutex_fresh d pc).
  { rewrite List.Forall_forall in Hrange, Hfresh.
    split; [apply Hrange | apply Hfresh]; apply in_or_app; right; now left. }
  destruct Hpc as [Hr Hf].
  destruct pc as [i|i|i old|i old|i|i]; simpl in Estep.
  - (* the lock is taken *)
    destruct (Nat.ltb_spec i 3) as [Hi|Hi]; [|discriminate].
    destruct (Mutex.lock d) eqn:El; [discriminate|]. injection Estep as <- <-.
    split; [|unfold mutex_left, mutex_pass; lia]. constructor; simpl.
    + exact Hlen.
    + rewrite count_threads_middle. simpl in *. lia.
    + rewrite sum_Z_middle. simpl in *. lia.
    + rewrite sum_Z_middle. simpl in *. lia.
    + apply Hfresh'; [exact I | now apply Hkeep].
    + apply Hrange'. simpl in *. lia.
    + exact Hlines.
  - (* the read *)
    injection Estep as <- <-.
    split; [|unfold mutex_left, mutex_pass; lia]. constructor; simpl.
    + exact Hlen.
    + rewrite count_threads_middle. simpl in *. lia.
    + rewrite sum_Z_middle. simpl in *. lia.
    + rewrite sum_Z_middle. simpl in *. lia.
    + apply Hfresh'; [reflexivity | now apply Hkeep].
    + apply Hrange'. simpl in *. lia.
    + exact Hlines.
  - injection Estep as <- <-.
    split; [|unfold mutex_left, mutex_pass; lia]. constructor; simpl.
    + exact Hlen.
    + rewrite count_threads_middle. simpl in *. lia.
    + rewrite sum_Z_middle. simpl in *. lia.
    + rewrite sum_Z_middle. simpl in *. lia.
    + apply Hfresh'; [exact Hf | now apply Hkeep].
    + apply Hrange'. simpl in *. lia.
    + exact Hlines.
  - (* the update *)
    injection Estep as <- <-. destruct (Hothers eq_refl) as (_ & _ & Hall).
    split; [|unfold mutex_left, mutex_pass; lia]. constructor; simpl.
    + exact Hlen.
    + rewrite count_threads_middle. simpl in *. lia.
    + rewrite sum_Z_middle. simpl in *. lia.
    + rewrite sum_Z_middle. simpl in *. lia.
    + apply Hfresh'; [exact I|]. intros q Hq.
      specialize (Hall (Mutex.mkShared (old + 1) (Mutex.lock d) (Mutex.results d))).
      rewrite List.Forall_forall in Hall. now apply Hall.
    + apply Hrange'. simpl in *. lia.
    + exact Hlines.
  - (* the line *)
    injection Estep as <- <-. destruct (Hothers eq_refl) as (_ & Heq & _).
    split; [|unfold mutex_left, mutex_pass; lia]. constructor; simpl.
    + exact Hlen.
    + rewrite count_threads_middle. simpl in *. lia.
    + rewrite sum_Z_middle. simpl in *. lia.
    + rewrite sum_Z_middle, length_app. simpl in *. lia.
    + apply Hfresh'; [exact I | now apply Hkeep].
    + apply Hrange'. simpl in *. lia.
    + replace (Mutex.shared_resource d)
        with (1 + Z.of_nat (length (Mutex.results d))) by (simpl in *; lia).
      now apply reports_snoc.
  - (* the lock is released *)
    injection Estep as <- <-. destruct (Hothers eq_refl) as (El & _ & _).
    rewrite El in Hlock.
    split; [|unfold mutex_left, mutex_pass; lia]. constructor; simpl.
    + exact Hlen.
    + rewrite count_threads_middle. simpl in *. lia.
    + rewrite sum_Z_middle. simpl in *. lia.
    + rewrite sum_Z_middle. simpl in *. lia.
    + apply Hfresh'; [exact I | now apply Hkeep].
    + apply Hrange'. simpl in *. lia.
    + exact Hlines.
Qed.

Lemma mutex_run_inv (n : nat) (schedule : list nat) (s : System Mutex.Pc Mutex.Shared) :
  Mutex.interleave schedule (Mutex.start n) = Some s ->
  mutex_inv n s
  /\ sum_Z (map mutex_left (threads s))
     <= 18 * Z.of_nat n - Z.of_nat (length schedule).
Proof.
  intros E. rewrite <- mutex_start_left.
  apply (sys_run_inv Mutex.critical_section_with_lock (mutex_inv n)
           (fun s => sum_Z (map mutex_left (threads s)))) with (s := Mutex.start n);
    [|apply mutex_start_inv|exact E].
  intros tid s0 s1 HI E0. destruct (mutex_step_inv _ _ _ _ HI E0) as [HI1 Hm].
  split; [exact HI1 | lia].
Qed.

Lemma mutex_ended_pass (pc : Mutex.Pc) :
  mutex_in_range pc -> Mutex.ended pc = true -> pc = Mutex.Enter 3.
Proof.
  destruct pc as [i| | | | |]; simpl; try discriminate.
  intros Hi. destruct (Nat.ltb_spec i 3); [discriminate|]. intros _. f_equal. lia.
Qed.

(** X22. No update is lost: when the threads have ended, the shared resource
    counts three updates for each thread, and the lines of the results
    report the values 1, 2, 3, ... in this order. *)
Theorem mutex_loses_no_update (n : nat) (schedule : list nat)
    (s : System Mutex.Pc Mutex.Shared) :
  Mutex.interleave schedule (Mutex.start n) = Some s ->
  all_ended Mutex.ended (threads s) ->
  Mutex.shared_resource (shared s) = 3 * Z.of_nat n
  /\ length (Mutex.results (shared s)) = (3 * n)%nat
  /\ reports n 1 (Mutex.results (shared s))
  /\ Mutex.lock (shared s) = false.
Proof.
  intros E Hend. destruct (mutex_run_inv n schedule s E) as [HI _].
  destruct HI as [Hn Hlock Hadd Hlog _ Hrange Hlines].
  assert (Hall : Forall (fun pc => pc = Mutex.Enter 3) (threads s)).
  { apply List.Forall_forall. intros pc Hpc. unfold all_ended in Hend.
    rewrite List.Forall_forall in Hend, Hrange.
    apply mutex_ended_pass; auto. }
  rewrite (sum_Z_map_const mutex_added 3) in Hadd
    by (eapply Forall_in_impl; [|exact Hall]; now intros pc _ ->).
  rewrite (sum_Z_map_const mutex_logged 3) in Hlog
    by (eapply Forall_in_impl; [|exact Hall]; now intros pc _ ->).
  unfold count_threads in Hlock. rewrite (sum_Z_map_const _ 0) in Hlock
    by (eapply Forall_in_impl; [|exact Hall]; now intros pc _ ->).
  split_and!; auto; try lia.
  destruct (Mutex.lock (shared s)); [lia | reflexivity].
Qed.

(** X23. At most one thread is between the acquisition and the release of the
    lock, and the lock is taken exactly when there is one. *)
Theorem mutex_one_thread_inside (n : nat) (schedule : list nat)
    (s : System Mutex.Pc Mutex.Shared) :
  Mutex.interleave schedule (Mutex.start n) = Some s ->
  count_threads mutex_inside (threads s) = (if Mutex.lock (shared s) then 1 else 0).
Proof.
  intros E. destruct (mutex_run_inv n schedule s E) as [HI _]. apply HI.
Qed.

(** X24. The threads never block one another for ever: after any run, all
    threads have ended or one of them can run, and no run has more than
    eighteen statements for each thread. *)
Theorem mutex_threads_finish (n : nat) (schedule : list nat)
    (s : System Mutex.Pc Mutex.Shared) :
  Mutex.interleave schedule (Mutex.start n) = Some s ->
  (length schedule <= 18 * n)%nat
  /\ (all_ended Mutex.ended (threads s) \/ can_run Mutex.critical_section_with_lock s).
Proof.
  intros E. destruct (mutex_run_inv n schedule s E) as [HI Hleft].
  destruct HI as [Hn Hlock Hadd Hlog _ Hrange Hlines]. split.
  - assert (H0 : 0 <= sum_Z (map mutex_left (threads s))); [|lia].
    rewrite <- (sum_Z_map_eq (fun pc => Z.max 0 (mutex_left pc))).
    + apply sum_Z_map_nonneg. intros pc. lia.
    + eapply Forall_in_impl; [|exact Hrange].
      intros [] _; unfold mutex_left; simpl; lia.
  - destruct (all_ended_dec Mutex.ended (threads s)) as [Hall|Hnot]; [now left | right].
    destruct s as [ts d]. simpl in *.
    destruct (Mutex.lock d) eqn:El.
    + (* the thread that has the lock can run *)
      destruct (count_threads_some mutex_inside ts) as (l1 & pc & l2 & -> & Hpc); [lia|].
      destruct pc as [i|i|i old|i old|i|i]; try discriminate;
        eapply sys_step_enabled; simpl; reflexivity.
    + (* the lock is free for a thread that has not ended *)
      apply not_all_ended in Hnot as (l1 & pc & l2 & -> & Hpc).
      rewrite count_threads_middle in Hlock.
      pose proof (count_threads_nonneg mutex_inside (l1 ++ l2)).
      destruct pc as [i|i|i old|i old|i|i]; simpl in Hlock; try lia.
      simpl in Hpc. apply negb_false_iff in Hpc.
      eapply sys_step_enabled. simpl. rewrite Hpc, El. reflexivity.
Qed.

(** ** The semaphore *)

Lemma balance_snoc (evs : list (bool * nat)) (ev : bool * nat) :
  Semaphore.balance (evs ++ [ev])
  = Semaphore.balance evs + (if fst ev then 1 else -1).
Proof.
  induction evs as [|[[] t] evs IH]; simpl.
  - destruct ev as [[] t]; simpl; lia.
  - rewrite IH. lia.
  - rewrite IH. lia.
Qed.

Lemma at_most_snoc (k : Z) (evs : list (bool * nat)) (ev : bool * nat) :
  at_most k evs -> 0 <= Semaphore.balance (evs ++ [ev]) <= k ->
  at_most k (evs ++ [ev]).
Proof.
  intros H Hnew m. destruct (Nat.le_gt_cases m (length evs)) as [Hm|Hm].
  - rewrite take_app_le by exact Hm. apply H.
  - rewrite take_ge by (rewrite length_app; simpl; lia). exact Hnew.
Qed.

Lemma count_threads_le {L : Type} (a b : L -> bool) (l : list L) :
  (forall pc, a pc = true -> b pc = true) -> count_threads a l <= count_threads b l.
Proof.
  intros H. unfold count_threads. induction l as [|x l IH]; simpl.
  - rewrite sum_Z_nil. lia.
  - rewrite !sum_Z_cons. specialize (H x). destruct (a x), (b x); lia.
Qed.

Lemma sem_start_inv (n : nat) : sem_inv n (Semaphore.start n).
Proof.
  assert (H : Forall (fun pc => pc = Semaphore.Acquire) (replicate n Semaphore.Acquire)).
  { apply Forall_replicate. reflexivity. }
  assert (H0 : forall f, f Semaphore.Acquire = 0 ->
            sum_Z (map f (replicate n Semaphore.Acquire)) = 0).
  { intros f Hf. rewrite (sum_Z_map_const f 0); [lia|].
    eapply Forall_in_impl; [|exact H]. now intros pc _ ->. }
  constructor; simpl.
  - apply length_replicate.
  - unfold count_threads. rewrite H0; [lia | reflexivity].
  - lia.
  - exists []. split; [reflexivity|]. constructor; simpl.
    + unfold count_threads. now rewrite H0.
    + now rewrite H0.
    + intros m. rewrite take_nil. simpl. lia.
    + constructor.
Qed.

Lemma sem_start_left (n : nat) :
  sum_Z (map sem_left (threads (Semaphore.start n))) = 5 * Z.of_nat n.
Proof.
  simpl. rewrite (sum_Z_map_const _ 5), length_replicate; [lia|].
  apply Forall_replicate. reflexivity.
Qed.

Lemma sem_step_inv (n tid : nat) (s s' : System Semaphore.Pc Semaphore.Shared) :
  sem_inv n s -> Semaphore.step tid s = Some s' ->
  sem_inv n s'
  /\ sum_Z (map sem_left (threads s')) = sum_Z (map sem_left (threads s)) - 1.
Proof.
  intros [Hn Hcount Hfree (evs & Eres & [Hbal Hlen Hmost Hids])] E.
  apply sys_step_split in E as (l1 & pc & l2 & pc' & d' & Et & Etid & Estep & ->).
  destruct s as [ts d]. simpl in *. subst ts.
  rewrite count_threads_middle in Hcount, Hbal. rewrite sum_Z_middle in Hlen.
  rewrite !sum_Z_middle.
  pose proof (count_threads_nonneg Semaphore.inside (l1 ++ l2)) as Hnn.
  pose proof (count_threads_nonneg sem_between (l1 ++ l2)) as Hnb.
  pose proof (count_threads_le sem_between Semaphore.inside (l1 ++ l2)) as Hle.
  assert (Hin : (tid < n)%nat).
  { rewrite <- Hn, <- Etid, length_app. simpl. lia. }
  assert (Hlen' : length (l1 ++ pc' :: l2) = n).
  { rewrite <- Hn, !length_app. reflexivity. }
  assert (Hle' : count_threads sem_between (l1 ++ l2)
                 <= count_threads Semaphore.inside (l1 ++ l2)).
  { apply Hle. now intros []. }
  clear Hle.
  destruct pc; simpl in Estep; try discriminate.
  - (* the semaphore is acquired *)
    destruct (Z.ltb_spec 0 (Semaphore.semaphore d)) as [Hs|Hs]; [|discriminate].
    injection Estep as <- <-. split; [|simpl; lia]. constructor; simpl.
    + exact Hlen'.
    + rewrite count_threads_middle. simpl in *. lia.
    + lia.
    + exists evs. split; [exact Eres|]. constructor; auto.
      * rewrite count_threads_middle. simpl in *. lia.
      * rewrite sum_Z_middle. simpl in *. lia.
  - (* the acquisition is logged *)
    injection Estep as <- <-. split; [|simpl; lia]. constructor; simpl.
    + exact Hlen'.
    + rewrite count_threads_middle. simpl in *. lia.
    + lia.
    + exists (evs ++ [(true, tid)]). split; [now rewrite map_app, Eres|].
      assert (Hb : Semaphore.balance (evs ++ [(true, tid)])
                   = count_threads sem_between (l1 ++ Semaphore.Sleep :: l2)).
      { rewrite balance_snoc, count_threads_middle. simpl in *. lia. }
      constructor.
      * exact Hb.
      * rewrite sum_Z_middle, length_app. simpl in *. lia.
      * apply at_most_snoc; [exact Hmost|]. rewrite Hb, count_threads_middle.
        simpl in *. lia.
      * apply Forall_app. split; [exact Hids|]. constructor; [exact Hin | constructor].
  - injection Estep as <- <-. split; [|simpl; lia]. constructor; simpl.
    + exact Hlen'.
    + rewrite count_threads_middle. simpl in *. lia.
    + lia.
    + exists evs. split; [exact Eres|]. constructor; auto.
      * rewrite count_threads_middle. simpl in *. lia.
      * rewrite sum_Z_middle. simpl in *. lia.
  - (* the release is logged *)
    injection Estep as <- <-. split; [|simpl; lia]. constructor; simpl.
    + exact Hlen'.
    + rewrite count_threads_middle. simpl in *. lia.
    + lia.
    + exists (evs ++ [(false, tid)]). split; [now rewrite map_app, Eres|].
      assert (Hb : Semaphore.balance (evs ++ [(false, tid)])
                   = count_threads sem_between (l1 ++ Semaphore.Release :: l2)).
      { rewrite balance_snoc, count_threads_middle. simpl in *. lia. }
      constructor.
      * exact Hb.
      * rewrite sum_Z_middle, length_app. simpl in *. lia.
      * apply at_most_snoc; [exact Hmost|]. rewrite Hb, count_threads_middle.
        simpl in *. lia.
      * apply Forall_app. split; [exact Hids|]. constructor; [exact Hin | constructor].
  - (* the semaphore is released *)
    injection Estep as <- <-. split; [|simpl; lia]. constructor; simpl.
    + exact Hlen'.
    + rewrite count_threads_middle. simpl in *. lia.
    + lia.
    + exists evs. split; [exact Eres|]. constructor; auto.
      * rewrite count_threads_middle. simpl in *. lia.
      * rewrite sum_Z_middle. simpl in *. lia.
Qed.

Lemma sem_run_inv (n : nat) (schedule : list nat)
    (s : System Semaphore.Pc Semaphore.Shared) :
  Semaphore.interleave schedule (Semaphore.start n) = Some s ->
  sem_inv n s
  /\ sum_Z (map sem_left (threads s)) <= 5 * Z.of_nat n - Z.of_nat (length schedule).
Proof.
  intros E. rewrite <- sem_start_left.
  apply (sys_run_inv Semaphore.critical_section_with_semaphore (sem_inv n)
           (fun s => sum_Z (map sem_left (threads s)))) with (s := Semaphore.start n);
    [|apply sem_start_inv|exact E].
  intros tid s0 s1 HI E0. destruct (sem_step_inv _ _ _ _ HI E0) as [HI1 Hm].
  split; [exact HI1 | lia].
Qed.

(** X25. At most two threads are inside the with block of the semaphore: the
    threads inside and the free places of the semaphore are two.  The
    results are lines of the threads 0, ..., [n - 1]; at no point of them
    have more than two threads logged their acquisition without their
    release, and when the threads have ended there are two lines for each
    thread. *)
Theorem semaphore_two_threads_inside (n : nat) (schedule : list nat)
    (s : System Semaphore.Pc Semaphore.Shared) :
  Semaphore.interleave schedule (Semaphore.start n) = Some s ->
  count_threads Semaphore.inside (threads s) + Semaphore.semaphore (shared s) = 2
  /\ 0 <= Semaphore.semaphore (shared s)
  /\ exists evs,
       Semaphore.results (shared s) = map Semaphore.event_line evs
       /\ Forall (fun ev => (snd ev < n)%nat) evs
       /\ at_most 2 evs
       /\ (all_ended Semaphore.ended (threads s) ->
           length evs = (2 * n)%nat /\ Semaphore.balance evs = 0).
Proof.
  intros E.
  destruct (sem_run_inv n schedule s E) as [[Hn H1 H2 (evs & Eres & HL)] _].
  destruct HL as [Hbal Hlen Hmost Hids].
  split; [exact H1|]. split; [exact H2|].
  exists evs. split_and!; auto. intros Hend.
  assert (Hall : Forall (fun pc => pc = Semaphore.Ended) (threads s)).
  { eapply Forall_in_impl; [|exact Hend]. intros [] _; simpl; auto; discriminate. }
  rewrite (sum_Z_map_const sem_logged 2) in Hlen
    by (eapply Forall_in_impl; [|exact Hall]; now intros pc _ ->).
  unfold count_threads in Hbal. rewrite (sum_Z_map_const _ 0) in Hbal
    by (eapply Forall_in_impl; [|exact Hall]; now intros pc _ ->).
  split; lia.
Qed.

(** X26. The threads never block one another for ever: after any run, all
    threads have ended or one of them can run, and no run has more than
    five statements for each thread. *)
Theorem semaphore_threads_finish (n : nat) (schedule : list nat)
    (s : System Semaphore.Pc Semaphore.Shared) :
  Semaphore.interleave schedule (Semaphore.start n) = Some s ->
  (length schedule <= 5 * n)%nat
  /\ (all_ended Semaphore.ended (threads s) \/ can_run Semaphore.critical_section_with_semaphore s).
Proof.
  intros E. destruct (sem_run_inv n schedule s E) as [[Hn Hcount Hfree _] Hleft]. split.
  - assert (H0 : 0 <= sum_Z (map sem_left (threads s))); [|lia].
    apply sum_Z_map_nonneg. intros []; simpl; lia.
  - destruct (all_ended_dec Semaphore.ended (threads s)) as [Hall|Hnot]; [now left | right].
    destruct s as [ts d]. simpl in *.
    apply not_all_ended in Hnot as (l1 & pc & l2 & -> & Hpc).
    destruct pc; try discriminate; try (eapply sys_step_enabled; simpl; reflexivity).
    (* a thread waits for the semaphore *)
    destruct (Z.ltb_spec 0 (Semaphore.semaphore d)) as [Hs|Hs].
    + eapply sys_step_enabled. simpl.
      destruct (Z.ltb_spec 0 (Semaphore.semaphore d)); [reflexivity | lia].
    + destruct (count_threads_some Semaphore.inside (l1 ++ Semaphore.Acquire :: l2))
        as (k1 & pc & k2 & -> & Hin); [lia|].
      destruct pc; try discriminate; eapply sys_step_enabled; simpl; reflexivity.
Qed.

(** ** The two locks *)

Lemma ord_start_inv : ord_inv Ordered.start.
Proof.
  exists Ordered.Lock1, Ordered.Lock1. simpl. split_and!; auto.
Qed.

Ltac ord_forms :=
  match goal with
  | H : _ \/ _ |- _ => destruct H as [H|H]; ord_forms
  | H : _ /\ _ |- _ => destruct H as [? ?]; ord_forms
  | _ => idtac
  end.

Lemma ord_step_inv (tid : nat) (s s' : System Ordered.Pc Ordered.Shared) :
  ord_inv s -> Ordered.step tid s = Some s' ->
  ord_inv s'
  /\ sum_Z (map ord_left (threads s')) = sum_Z (map ord_left (threads s)) - 1.
Proof.
  intros (a & b & Et & E1 & E2 & Hx & Hres) E.
  destruct s as [ts [r1 r2 res]]. simpl in *. subst ts r1 r2.
  unfold Ordered.step, sys_step in E. simpl in E.
  destruct tid as [|[|tid]]; simpl in E; [| |discriminate].
  - (* a statement of process 1 *)
    destruct a, b; simpl in *; try discriminate; injection E as <-; simpl;
      (split; [|reflexivity]); eexists _, _; simpl; (split_and!; [reflexivity..|]);
      ord_forms; subst; try discriminate; simpl;
      first [ left; split; [reflexivity | auto; fail]
            | right; split; [reflexivity | auto; fail] ].
  - (* a statement of process 2 *)
    destruct a, b; simpl in *; try discriminate; injection E as <-; simpl;
      (split; [|reflexivity]); eexists _, _; simpl; (split_and!; [reflexivity..|]);
      ord_forms; subst; try discriminate; simpl;
      first [ left; split; [reflexivity | auto; fail]
            | right; split; [reflexivity | auto; fail] ].
Qed.

Lemma ord_run_inv (schedule : list nat) (s : System Ordered.Pc Ordered.Shared) :
  Ordered.interleave schedule Ordered.start = Some s ->
  ord_inv s
  /\ sum_Z (map ord_left (threads s)) <= 18 - Z.of_nat (length schedule).
Proof.
  intros E.
  apply (sys_run_inv Ordered.process ord_inv
           (fun s => sum_Z (map ord_left (threads s)))) with (s := Ordered.start);
    [|apply ord_start_inv|exact E].
  intros tid s0 s1 HI E0. destruct (ord_step_inv _ _ _ HI E0) as [HI1 Hm]. split; [exact HI1 | lia].
Qed.

(** X27. The two processes never deadlock: after any run, both have ended or
    one of them can run, and no run has more than nine statements for each
    process. *)
Theorem ordered_locks_never_deadlock (schedule : list nat)
    (s : System Ordered.Pc Ordered.Shared) :
  Ordered.interleave schedule Ordered.start = Some s ->
  (length schedule <= 18)%nat
  /\ (all_ended Ordered.ended (threads s) \/ can_run Ordered.process s).
Proof.
  intros E. destruct (ord_run_inv schedule s E) as [(a & b & Et & E1 & E2 & Hx & _) Hleft].
  destruct s as [ts [r1 r2 res]]. simpl in *. subst ts r1 r2. split.
  - assert (H0 : 0 <= sum_Z (map ord_left [a; b])); [|lia].
    apply sum_Z_map_nonneg. intros []; simpl; lia.
  - destruct a, b; simpl in *; try discriminate;
      first [ left; repeat constructor; fail
            | right; exists 0%nat; eexists; reflexivity
            | right; exists 1%nat; eexists; reflexivity ].
Qed.

(** X28. The processes run one after the other: when both have ended, the
    results are the three lines of one process followed by the three lines
    of the other. *)
Theorem ordered_locks_serialize (schedule : list nat)
    (s : System Ordered.Pc Ordered.Shared) :
  Ordered.interleave schedule Ordered.start = Some s ->
  all_ended Ordered.ended (threads s) ->
  Ordered.results (shared s) = Ordered.lines 0 ++ Ordered.lines 1
  \/ Ordered.results (shared s) = Ordered.lines 1 ++ Ordered.lines 0.
Proof.
  intros E Hend.
  destruct (ord_run_inv schedule s E) as [(a & b & Et & _ & _ & _ & Hres) _].
  rewrite Et in Hend. inversion Hend as [|? ? Ha Hb']; subst. inversion Hb' as [|? ? Hb _]; subst.
  destruct a; try discriminate. destruct b; try discriminate.
  destruct Hres as [[-> _]|[-> _]]; [now left | now right].
Qed.

(** ** The worker threads *)

Ltac zbool :=
  repeat match goal with
    | |- context [?a <? ?b] => destruct (Z.ltb_spec a b)
    | |- context [?a =? ?b] => destruct (Z.eqb_spec a b)
    | H : context [?a <? ?b] |- _ => destruct (Z.ltb_spec a b)
    | H : context [?a =? ?b] |- _ => destruct (Z.eqb_spec a b)
    end.

Ltac worker_facts :=
  unfold worker_progress, worker_terminated, worker_reported, worker_done,
    worker_in_range, worker_increments, worker_decrements, worker_inside,
    worker_left, worker_pid, ProcessThread.goto, ProcessThread.set_lock,
    ProcessThread.set_progress in *;
  simpl in *.

Ltac worker_solve :=
  worker_facts; zbool; simpl in *; try lia; try congruence; auto.

Lemma dict_get_set (k v : Z) (d : list (Z * Z)) : dict_get k (dict_set k v d) = Some v.
Proof.
  unfold dict_get. induction d as [|[k' v'] d IH]; simpl.
  - now rewrite Z.eqb_refl.
  - destruct (Z.eqb_spec k' k) as [->|Hne]; simpl.
    + now rewrite Z.eqb_refl.
    + destruct (Z.eqb_spec k' k); [contradiction | exact IH].
Qed.

Lemma dict_get_set_other (k k' v : Z) (d : list (Z * Z)) :
  k' <> k -> dict_get k' (dict_set k v d) = dict_get k' d.
Proof.
  intros Hne. unfold dict_get. induction d as [|[k0 v0] d IH]; simpl.
  - destruct (Z.eqb_spec k k'); [congruence | reflexivity].
  - destruct (Z.eqb_spec k0 k) as [->|Hk]; simpl.
    + destruct (Z.eqb_spec k k'); [congruence | reflexivity].
    + destruct (Z.eqb_spec k0 k'); [reflexivity | exact IH].
Qed.

Lemma worker_ok_frame (d d' : ProcessThread.Shared) (l : ProcessThread.Local) :
  dict_get (worker_pid l) (ProcessThread.progress d')
  = dict_get (worker_pid l) (ProcessThread.progress d) ->
  worker_ok d l -> worker_ok d' l.
Proof.
  intros E [H1 H2 H3 H4 H5]. constructor; auto. unfold worker_pid in E. congruence.
Qed.

Lemma worker_others (l1 l2 : list ProcessThread.Local) (l q : ProcessThread.Local) :
  NoDup (map worker_pid (l1 ++ l :: l2)) -> In q (l1 ++ l2) ->
  worker_pid q <> worker_pid l.
Proof.
  rewrite map_app. simpl. intros Hnd Hq E.
  apply NoDup_app in Hnd as (_ & Hx & Hnd). apply NoDup_cons in Hnd as [Hn _].
  apply in_app_or in Hq as [Hq|Hq].
  - apply (Hx (worker_pid l)).
    + rewrite <- E. apply list_elem_of_In. now apply in_map.
    + left.
  - apply Hn. rewrite <- E. apply list_elem_of_In. now apply in_map.
Qed.

(** What one statement of the thread [l] must do for the invariant. *)
Lemma worker_step_frame (processes : list Process) (l1 l2 : list ProcessThread.Local)
    (l l' : ProcessThread.Local) (d d' : ProcessThread.Shared) :
  NoDup (map pid processes) ->
  worker_inv processes (mkSystem (l1 ++ l :: l2) d) ->
  worker_pid l' = worker_pid l ->
  burst_time (ProcessThread.process l') = burst_time (ProcessThread.process l) ->
  worker_ok d' l' ->
  (forall k, k <> worker_pid l ->
             dict_get k (ProcessThread.progress d') = dict_get k (ProcessThread.progress d)) ->
  (worker_reported l' = worker_reported l /\ ProcessThread.completed d' = ProcessThread.completed d
   \/ worker_reported l = false /\ worker_reported l' = true
      /\ ProcessThread.completed d' = ProcessThread.completed d ++ [worker_pid l]) ->
  (if worker_inside l' then 1 else 0) + (if ProcessThread.lock d then 1 else 0)
  = (if worker_inside l then 1 else 0) + (if ProcessThread.lock d' then 1 else 0) ->
  worker_left l' <= worker_left l - 1 ->
  worker_inv processes (mkSystem (l1 ++ l' :: l2) d')
  /\ sum_Z (map worker_left (l1 ++ l' :: l2))
     <= sum_Z (map worker_left (l1 ++ l :: l2)) - 1.
Proof.
  intros Hnd [Hst Hok Hcomp Hlock] Epid Eburst Hok' Hframe Hrep Hin Hleft. simpl in *.
  assert (Hnd' : NoDup (map worker_pid (l1 ++ l :: l2))).
  { replace (map worker_pid (l1 ++ l :: l2))
      with (map fst (map (fun l => (worker_pid l, burst_time (ProcessThread.process l)))
                       (l1 ++ l :: l2))) by (rewrite map_map; reflexivity).
    rewrite Hst, map_map. exact Hnd. }
  split; [|rewrite !sum_Z_middle; lia].
  constructor; simpl.
  - rewrite <- Hst, !map_app. simpl. now rewrite Epid, Eburst.
  - apply List.Forall_forall. intros q Hq. rewrite List.Forall_forall in Hok.
    apply in_app_or in Hq as [Hq|[<-|Hq]]; [|exact Hok'|].
    + apply (worker_ok_frame d); [|apply Hok, in_or_app; now left].
      apply Hframe, (worker_others l1 l2); [exact Hnd' | apply in_or_app; now left].
    + apply (worker_ok_frame d); [|apply Hok, in_or_app; right; now right].
      apply Hframe, (worker_others l1 l2); [exact Hnd' | apply in_or_app; now right].
  - rewrite List.filter_app in *. simpl in *.
    destruct Hrep as [[-> ->]|(E1 & -> & ->)].
    + destruct (worker_reported l); rewrite !map_app in *; simpl in *;
        now rewrite ?Epid.
    + rewrite E1 in Hcomp. rewrite map_app in *. simpl. rewrite Epid.
      etransitivity; [|apply Permutation_middle].
      rewrite <- Hcomp. symmetry. apply Permutation_cons_append.
  - rewrite count_threads_middle in *. lia.
Qed.

Lemma worker_start_inv (processes : list Process) :
  Forall (fun p => remaining_time p = burst_time p) processes ->
  worker_inv processes (ProcessThread.start processes).
Proof.
  intros Hfresh. constructor; simpl.
  - rewrite map_map. reflexivity.
  - rewrite List.Forall_map. eapply Forall_in_impl; [|exact Hfresh].
    intros p _ Hp. constructor; worker_solve.
  - clear Hfresh. induction processes as [|p l IH]; simpl; [constructor|].
    unfold worker_reported at 1. simpl. rewrite andb_false_r. exact IH.
  - unfold count_threads. rewrite map_map. simpl. apply sum_Z_map_zero. reflexivity.
Qed.

Lemma worker_step_inv (processes : list Process) (tid : nat)
    (s s' : System ProcessThread.Local ProcessThread.Shared) :
  NoDup (map pid processes) ->
  worker_inv processes s -> ProcessThread.step tid s = Some s' ->
  worker_inv processes s'
  /\ sum_Z (map worker_left (threads s')) <= sum_Z (map worker_left (threads s)) - 1.
Proof.
  intros Hnd HI E.
  apply sys_step_split in E as (l1 & l & l2 & l' & d' & Et & Etid & Estep & ->).
  destruct s as [ts d]. simpl in *. subst ts.
  assert (Hok : worker_ok d l).
  { pose proof (wi_ok _ _ HI) as H. simpl in H. rewrite List.Forall_forall in H.
    apply H, in_or_app. right. now left. }
  pose proof (wi_lock _ _ HI) as Hlock. simpl in Hlock.
  rewrite count_threads_middle in Hlock.
  pose proof (count_threads_nonneg worker_inside (l1 ++ l2)) as Hnn.
  destruct Hok as [Hunits Hrange Hrem Hstate Hprog].
  destruct l as [pc units i p]. unfold ProcessThread.run in Estep. simpl in *.
  assert (Hstay : forall l' d',
            worker_pid l' = pid p -> burst_time (ProcessThread.process l') = burst_time p ->
            worker_ok d' l' ->
            (forall k, k <> pid p ->
                       dict_get k (ProcessThread.progress d')
                       = dict_get k (ProcessThread.progress d)) ->
            (worker_reported l' = worker_reported (ProcessThread.mkLocal pc units i p)
             /\ ProcessThread.completed d' = ProcessThread.completed d
             \/ worker_reported (ProcessThread.mkLocal pc units i p) = false
                /\ worker_reported l' = true
                /\ ProcessThread.completed d' = ProcessThread.completed d ++ [pid p]) ->
            (if worker_inside l' then 1 else 0) + (if ProcessThread.lock d then 1 else 0)
            = (if worker_inside (ProcessThread.mkLocal pc units i p) then 1 else 0)
              + (if ProcessThread.lock d' then 1 else 0) ->
            worker_left l' <= worker_left (ProcessThread.mkLocal pc units i p) - 1 ->
            worker_inv processes (mkSystem (l1 ++ l' :: l2) d')
            /\ sum_Z (map worker_left (l1 ++ l' :: l2))
               <= sum_Z (map worker_left
                           (l1 ++ ProcessThread.mkLocal pc units i p :: l2)) - 1).
  { intros l0 d0 H1 H2 H3 H4 H5 H6 H7.
    apply (worker_step_frame processes l1 l2 (ProcessThread.mkLocal pc units i p) l0 d d0);
      auto. }
  clear HI.
  destruct pc; simpl in Estep.
  - (* Begin *)
    injection Estep as <- <-.
    apply Hstay; [reflexivity..| | | | |].
    + constructor; worker_solve.
    + reflexivity.
    + left. split; [worker_solve | reflexivity].
    + worker_solve.
    + worker_solve.
  - (* Enter *)
    specialize (Hunits ltac:(discriminate)). subst units.
    destruct (Z.ltb_spec i (burst_time p)) as [Hi|Hi].
    + destruct (ProcessThread.lock d) eqn:El; [discriminate|]. injection Estep as <- <-.
      apply Hstay; [reflexivity..| | | | |].
      * constructor; worker_solve.
      * reflexivity.
      * left. split; [worker_solve | reflexivity].
      * worker_solve.
      * worker_solve.
    + injection Estep as <- <-.
      apply Hstay; [reflexivity..| | | | |].
      * constructor; worker_solve.
      * reflexivity.
      * left. split; [worker_solve | reflexivity].
      * worker_solve.
      * worker_solve.
  - (* CheckState *)
    assert (Hrun : state p = RUNNING) by worker_solve.
    rewrite Hrun in Estep. simpl in Estep. injection Estep as <- <-.
    apply Hstay; [reflexivity..| | | | |].
    + constructor; worker_solve.
    + reflexivity.
    + left. split; [worker_solve | reflexivity].
    + worker_solve.
    + worker_solve.
  - (* Sleep *)
    injection Estep as <- <-.
    apply Hstay; [reflexivity..| | | | |].
    + constructor; worker_solve.
    + reflexivity.
    + left. split; [worker_solve | reflexivity].
    + worker_solve.
    + worker_solve.
  - (* Decrement *)
    injection Estep as <- <-.
    apply Hstay; [reflexivity..| | | | |].
    + constructor; worker_solve.
    + reflexivity.
    + left. split; [worker_solve | reflexivity].
    + worker_solve.
    + worker_solve.
  - (* Lookup *)
    destruct (dict_get (pid p) (ProcessThread.progress d)) as [v|] eqn:Eg;
      injection Estep as <- <-.
    + apply Hstay; [reflexivity..| | | | |].
      * constructor; worker_solve.
      * reflexivity.
      * left. split; [worker_solve | reflexivity].
      * worker_solve.
      * worker_solve.
    + apply Hstay; [reflexivity..| | | | |].
      * constructor; worker_solve.
      * reflexivity.
      * left. split; [worker_solve | reflexivity].
      * worker_solve.
      * worker_solve.
  - (* Init *)
    injection Estep as <- <-.
    apply Hstay; [reflexivity..| | | | |].
    + constructor; try (worker_solve; fail). simpl. rewrite dict_get_set. worker_solve.
    + intros k Hk. simpl. now apply dict_get_set_other.
    + left. split; [worker_solve | reflexivity].
    + worker_solve.
    + worker_solve.
  - (* Increment *)
    destruct (dict_get (pid p) (ProcessThread.progress d)) as [v|] eqn:Eg;
      [|exfalso; worker_solve].
    injection Estep as <- <-.
    apply Hstay; [reflexivity..| | | | |].
    + constructor; try (worker_solve; fail). simpl. rewrite dict_get_set. worker_solve.
    + intros k Hk. simpl. now apply dict_get_set_other.
    + left. split; [worker_solve | reflexivity].
    + worker_solve.
    + worker_solve.
  - (* TestRemaining *)
    destruct (Z.eqb_spec (remaining_time p) 0) as [Hz|Hz]; injection Estep as <- <-.
    + apply Hstay; [reflexivity..| | | | |].
      * constructor; worker_solve.
      * reflexivity.
      * left. split; [worker_solve | reflexivity].
      * worker_solve.
      * worker_solve.
    + apply Hstay; [reflexivity..| | | | |].
      * constructor; worker_solve.
      * reflexivity.
      * left. split; [worker_solve | reflexivity].
      * worker_solve.
      * worker_solve.
  - (* Terminate *)
    injection Estep as <- <-.
    apply Hstay; [reflexivity..| | | | |].
    + constructor; worker_solve.
    + reflexivity.
    + left. split; [worker_solve | reflexivity].
    + worker_solve.
    + worker_solve.
  - (* Complete *)
    injection Estep as <- <-.
    apply Hstay; [reflexivity..| | | | |].
    + constructor; worker_solve.
    + reflexivity.
    + right. split_and!; [worker_solve | worker_solve | reflexivity].
    + worker_solve.
    + worker_solve.
  - (* Leave *)
    injection Estep as <- <-.
    apply Hstay; [reflexivity..| | | | |].
    + constructor; worker_solve.
    + reflexivity.
    + left. split; [worker_solve | reflexivity].
    + worker_facts. destruct (ProcessThread.lock d); lia.
    + worker_solve.
  - discriminate.
  - discriminate.
Qed.

Lemma worker_start_left (processes : list Process) :
  sum_Z (map worker_left (threads (ProcessThread.start processes)))
  = sum_Z (map (fun p => 11 * Z.max 0 (burst_time p) + 2) processes).
Proof.
  simpl. rewrite map_map. f_equal. apply map_ext. intros p.
  unfold worker_left. simpl. lia.
Qed.

Lemma worker_run_inv (processes : list Process) (schedule : list nat)
    (s : System ProcessThread.Local ProcessThread.Shared) :
  NoDup (map pid processes) ->
  Forall (fun p => remaining_time p = burst_time p) processes ->
  ProcessThread.interleave schedule (ProcessThread.start processes) = Some s ->
  worker_inv processes s
  /\ sum_Z (map worker_left (threads s))
     <= sum_Z (map (fun p => 11 * Z.max 0 (burst_time p) + 2) processes)
        - Z.of_nat (length schedule).
Proof.
  intros Hnd Hfresh E. rewrite <- worker_start_left.
  apply (sys_run_inv ProcessThread.run (worker_inv processes)
           (fun s => sum_Z (map worker_left (threads s))))
    with (s := ProcessThread.start processes);
    [|now apply worker_start_inv|exact E].
  intros tid s0 s1 HI E0. now apply (worker_step_inv processes tid).
Qed.

(** The pids of the threads that report, when all have ended. *)
Lemma worker_reported_pids (ls : list ProcessThread.Local) (processes : list Process) :
  map (fun l => (worker_pid l, burst_time (ProcessThread.process l))) ls
  = map (fun p => (pid p, burst_time p)) processes ->
  Forall (fun l => worker_reported l = (0 <? burst_time (ProcessThread.process l))) ls ->
  map worker_pid (List.filter worker_reported ls)
  = map pid (List.filter (fun p => 0 <? burst_time p) processes).
Proof.
  revert processes. induction ls as [|l ls IH]; intros [|p ps]; simpl; try discriminate.
  - reflexivity.
  - intros [= E1 E2 E3] Hall. inversion Hall as [|? ? Hl Hls]; subst.
    rewrite Hl, E2. destruct (0 <? burst_time p); simpl; rewrite (IH ps); auto.
    now rewrite E1.
Qed.

Lemma worker_ended_ok (d : ProcessThread.Shared) (l : ProcessThread.Local) :
  worker_ok d l -> ProcessThread.ended l = true ->
  worker_reported l = (0 <? burst_time (ProcessThread.process l))
  /\ dict_get (worker_pid l) (ProcessThread.progress d)
     = (if 0 <? burst_time (ProcessThread.process l)
        then Some (burst_time (ProcessThread.process l)) else None)
  /\ (0 < burst_time (ProcessThread.process l) ->
      state (ProcessThread.process l) = TERMINATED /\ remaining_time (ProcessThread.process l) = 0).
Proof.
  intros [Hunits Hrange Hrem Hstate Hprog] He. destruct l as [pc units i p].
  unfold ProcessThread.ended in He. simpl in *. destruct pc; try discriminate.
  unfold worker_pid. simpl. rewrite Hprog, Hstate.
  split_and!; worker_solve; f_equal; lia.
Qed.

(** X29. Every process is completed once: when the threads have ended, the
    completed pids are the pids of the processes with a positive burst time
    in some order, the progress of each of these processes is its burst
    time, each of them is TERMINATED with no remaining time, and a process
    with no burst has no entry in the progress. *)
Theorem workers_complete_each_process (processes : list Process) (schedule : list nat)
    (s : System ProcessThread.Local ProcessThread.Shared) :
  NoDup (map pid processes) ->
  Forall (fun p => remaining_time p = burst_time p) processes ->
  ProcessThread.interleave schedule (ProcessThread.start processes) = Some s ->
  all_ended ProcessThread.ended (threads s) ->
  Permutation (ProcessThread.completed (shared s))
    (map pid (List.filter (fun p => 0 <? burst_time p) processes))
  /\ Forall (fun p =>
       dict_get (pid p) (ProcessThread.progress (shared s))
       = (if 0 <? burst_time p then Some (burst_time p) else None)) processes
  /\ map (fun l => pid (ProcessThread.process l)) (threads s) = map pid processes
  /\ Forall (fun l =>
       0 < burst_time (ProcessThread.process l) ->
       state (ProcessThread.process l) = TERMINATED
       /\ remaining_time (ProcessThread.process l) = 0) (threads s).
Proof.
  intros Hnd Hfresh E Hend.
  destruct (worker_run_inv processes schedule s Hnd Hfresh E) as [[Hst Hok Hcomp _] _].
  assert (Hall : Forall (fun l =>
            worker_reported l = (0 <? burst_time (ProcessThread.process l))
            /\ dict_get (worker_pid l) (ProcessThread.progress (shared s))
               = (if 0 <? burst_time (ProcessThread.process l)
                  then Some (burst_time (ProcessThread.process l)) else None)
            /\ (0 < burst_time (ProcessThread.process l) ->
                state (ProcessThread.process l) = TERMINATED
                /\ remaining_time (ProcessThread.process l) = 0)) (threads s)).
  { unfold all_ended in Hend. rewrite List.Forall_forall in *. intros l Hl.
    apply worker_ended_ok; auto. }
  split_and!.
  - rewrite Hcomp. rewrite (worker_reported_pids _ processes Hst); [reflexivity|].
    eapply Forall_in_impl; [|exact Hall]. now intros l _ (H & _).
  - assert (Hd : Forall (fun kb : Z * Z =>
                   dict_get (fst kb) (ProcessThread.progress (shared s))
                   = (if 0 <? snd kb then Some (snd kb) else None))
                   (map (fun p => (pid p, burst_time p)) processes)).
    { rewrite <- Hst, List.Forall_map. eapply Forall_in_impl; [|exact Hall].
      now intros l _ (_ & H & _). }
    rewrite List.Forall_map in Hd. exact Hd.
  - replace (map pid processes)
      with (map fst (map (fun p => (pid p, burst_time p)) processes))
      by (rewrite map_map; reflexivity).
    rewrite <- Hst, map_map. reflexivity.
  - eapply Forall_in_impl; [|exact Hall]. now intros l _ (_ & _ & H).
Qed.

(** X30. The threads never block one another for ever and none dies of a
    missing key: after any run, all threads have ended or one of them can
    run, and no run has more statements than eleven for each unit of burst
    time and two more for each thread. *)
Theorem workers_finish (processes : list Process) (schedule : list nat)
    (s : System ProcessThread.Local ProcessThread.Shared) :
  NoDup (map pid processes) ->
  Forall (fun p => remaining_time p = burst_time p) processes ->
  ProcessThread.interleave schedule (ProcessThread.start processes) = Some s ->
  Z.of_nat (length schedule)
  <= sum_Z (map (fun p => 11 * Z.max 0 (burst_time p) + 2) processes)
  /\ Forall (fun l => ProcessThread.pc l <> ProcessThread.KeyError) (threads s)
  /\ (all_ended ProcessThread.ended (threads s) \/ can_run ProcessThread.run s).
Proof.
  intros Hnd Hfresh E.
  destruct (worker_run_inv processes schedule s Hnd Hfresh E) as [[_ Hok _ Hlock] Hleft].
  split_and!.
  - assert (H0 : 0 <= sum_Z (map worker_left (threads s))); [|lia].
    rewrite <- (sum_Z_map_eq (fun l => Z.max 0 (worker_left l))).
    + apply sum_Z_map_nonneg. intros l. lia.
    + eapply Forall_in_impl; [|exact Hok].
      intros [pc units i p] _ [_ Hrange _ _ _]. destruct pc; worker_solve.
  - eapply Forall_in_impl; [|exact Hok].
    intros [pc units i p] _ [_ Hrange _ _ _] Hk. simpl in Hk. subst pc. exact Hrange.
  - destruct (all_ended_dec ProcessThread.ended (threads s)) as [Hall|Hnot]; [now left | right].
    destruct s as [ts d]. simpl in *.
    assert (Hgo : forall l1 l l2, ts = l1 ++ l :: l2 ->
              (worker_inside l = true
               \/ ProcessThread.lock d = false /\ ProcessThread.ended l = false) ->
              can_run ProcessThread.run (mkSystem ts d)).
    { intros l1 l l2 -> Hl.
      assert (Hl' : worker_ok d l).
      { rewrite List.Forall_forall in Hok. apply Hok, in_or_app. right. now left. }
      destruct Hl' as [_ Hrange _ Hstate Hprog]. destruct l as [pc units i p].
      assert (Hsome : exists x, ProcessThread.run (length l1)
                                  (ProcessThread.mkLocal pc units i p) d = Some x).
      { unfold ProcessThread.run, ProcessThread.ended in *. simpl in *.
        destruct Hl as [Hl|[El Hl]]; destruct pc; try discriminate;
          try rewrite El; worker_facts; try contradiction;
          repeat match goal with
            | |- context [if ?c then _ else _] => destruct c
            | |- context [match ?c with Some _ => _ | None => _ end] => destruct c
            end; eauto. }
      destruct Hsome as [[l' d'] Hsome]. now apply (sys_step_enabled _ _ _ _ l' _ d'). }
    destruct (ProcessThread.lock d) eqn:El.
    + destruct (count_threads_some worker_inside ts) as (l1 & l & l2 & E1 & Hl); [lia|].
      apply (Hgo l1 l l2 E1). now left.
    + apply not_all_ended in Hnot as (l1 & l & l2 & E1 & Hl).
      apply (Hgo l1 l l2 E1). right. now split.
Qed.

(** ** The properties of the threads on runs of the demonstrations *)

Lemma mutex_loses_no_update_witness :
  exists s,
    Mutex.interleave mutex_schedule (Mutex.start 5) = Some s
    /\ all_ended Mutex.ended (threads s)
    /\ Mutex.shared_resource (shared s) = 3 * Z.of_nat 5
    /\ length (Mutex.results (shared s)) = (3 * 5)%nat
    /\ reports 5 1 (Mutex.results (shared s))
    /\ Mutex.lock (shared s) = false.
Proof.
  eexists. split; [vm_compute; reflexivity|]. split; [repeat constructor|].
  apply (mutex_loses_no_update 5 mutex_schedule);
    [vm_compute; reflexivity | repeat constructor].
Defined.

Lemma mutex_one_thread_inside_witness :
  exists s,
    Mutex.interleave (take 40 mutex_schedule) (Mutex.start 5) = Some s
    /\ count_threads mutex_inside (threads s)
       = (if Mutex.lock (shared s) then 1 else 0).
Proof.
  eexists. split; [vm_compute; reflexivity|].
  apply (mutex_one_thread_inside 5 (take 40 mutex_schedule)). vm_compute. reflexivity.
Defined.

Lemma mutex_threads_finish_witness :
  exists s,
    Mutex.interleave (take 40 mutex_schedule) (Mutex.start 5) = Some s
    /\ (length (take 40 mutex_schedule) <= 18 * 5)%nat
    /\ (all_ended Mutex.ended (threads s) \/ can_run Mutex.critical_section_with_lock s).
Proof.
  eexists. split; [vm_compute; reflexivity|].
  apply (mutex_threads_finish 5 (take 40 mutex_schedule)). vm_compute. reflexivity.
Defined.

Lemma semaphore_two_threads_inside_witness :
  exists s,
    Semaphore.interleave semaphore_schedule (Semaphore.start 5) = Some s
    /\ count_threads Semaphore.inside (threads s) + Semaphore.semaphore (shared s) = 2
    /\ 0 <= Semaphore.semaphore (shared s)
    /\ exists evs,
         Semaphore.results (shared s) = map Semaphore.event_line evs
         /\ Forall (fun ev => (snd ev < 5)%nat) evs
         /\ at_most 2 evs
         /\ (all_ended Semaphore.ended (threads s) ->
             length evs = (2 * 5)%nat /\ Semaphore.balance evs = 0).
Proof.
  eexists. split; [vm_compute; reflexivity|].
  apply (semaphore_two_threads_inside 5 semaphore_schedule). vm_compute. reflexivity.
Defined.

Lemma semaphore_threads_finish_witness :
  exists s,
    Semaphore.interleave (take 7 semaphore_schedule) (Semaphore.start 5) = Some s
    /\ (length (take 7 semaphore_schedule) <= 5 * 5)%nat
    /\ (all_ended Semaphore.ended (threads s)
        \/ can_run Semaphore.critical_section_with_semaphore s).
Proof.
  eexists. split; [vm_compute; reflexivity|].
  apply (semaphore_threads_finish 5 (take 7 semaphore_schedule)). vm_compute. reflexivity.
Defined.

Lemma ordered_locks_never_deadlock_witness :
  exists s,
    Ordered.interleave (take 4 ordered_schedule) Ordered.start = Some s
    /\ (length (take 4 ordered_schedule) <= 18)%nat
    /\ (all_ended Ordered.ended (threads s) \/ can_run Ordered.process s).
Proof.
  eexists. split; [vm_compute; reflexivity|].
  apply (ordered_locks_never_deadlock (take 4 ordered_schedule)). vm_compute. reflexivity.
Defined.

Lemma ordered_locks_serialize_witness :
  exists s,
    Ordered.interleave ordered_schedule Ordered.start = Some s
    /\ all_ended Ordered.ended (threads s)
    /\ (Ordered.results (shared s) = Ordered.lines 0 ++ Ordered.lines 1
        \/ Ordered.results (shared s) = Ordered.lines 1 ++ Ordered.lines 0).
Proof.
  eexists. split; [vm_compute; reflexivity|]. split; [repeat constructor|].
  apply (ordered_locks_serialize ordered_schedule);
    [vm_compute; reflexivity | repeat constructor].
Defined.

Lemma workers_complete_each_process_witness :
  exists s,
    NoDup (map pid sample_processes)
    /\ Forall (fun p => remaining_time p = burst_time p) sample_processes
    /\ ProcessThread.interleave worker_schedule (ProcessThread.start sample_processes) = Some s
    /\ all_ended ProcessThread.ended (threads s)
    /\ Permutation (ProcessThread.completed (shared s))
         (map pid (List.filter (fun p => 0 <? burst_time p) sample_processes))
    /\ Forall (fun p =>
         dict_get (pid p) (ProcessThread.progress (shared s))
         = (if 0 <? burst_time p then Some (burst_time p) else None)) sample_processes
    /\ map (fun l => pid (ProcessThread.process l)) (threads s) = map pid sample_processes
    /\ Forall (fun l =>
         0 < burst_time (ProcessThread.process l) ->
         state (ProcessThread.process l) = TERMINATED
         /\ remaining_time (ProcessThread.process l) = 0) (threads s).
Proof.
  assert (Hnd : NoDup (map pid sample_processes))
    by (apply (bool_decide_unpack _); vm_compute; exact I).
  assert (Hfresh : Forall (fun p => remaining_time p = burst_time p) sample_processes)
    by (repeat constructor).
  eexists. split; [exact Hnd|]. split; [exact Hfresh|].
  split; [vm_compute; reflexivity|]. split; [repeat constructor|].
  apply (workers_complete_each_process sample_processes worker_schedule);
    [exact Hnd | exact Hfresh | vm_compute; reflexivity | repeat constructor].
Defined.

Lemma workers_finish_witness :
  exists s,
    NoDup (map pid sample_processes)
    /\ Forall (fun p => remaining_time p = burst_time p) sample_processes
    /\ ProcessThread.interleave (take 30 worker_schedule)
         (ProcessThread.start sample_processes) = Some s
    /\ Z.of_nat (length (take 30 worker_schedule))
       <= sum_Z (map (fun p => 11 * Z.max 0 (burst_time p) + 2) sample_processes)
    /\ Forall (fun l => ProcessThread.pc l <> ProcessThread.KeyError) (threads s)
    /\ (all_ended ProcessThread.ended (threads s) \/ can_run ProcessThread.run s).
Proof.
  assert (Hnd : NoDup (map pid sample_processes))
    by (apply (bool_decide_unpack _); vm_compute; exact I).
  assert (Hfresh : Forall (fun p => remaining_time p = burst_time p) sample_processes)
    by (repeat constructor).
  eexists. split; [exact Hnd|]. split; [exact Hfresh|].
  split; [vm_compute; reflexivity|].
  apply (workers_finish sample_processes (take 30 worker_schedule));
    [exact Hnd | exact Hfresh | vm_compute; reflexivity].
Defined.
